(** * The database seeding route of nextjs-dashboard

    A shallow embedding of the route handler [GET] and of its four
    seeding functions ([seedUsers], [seedCustomers], [seedInvoices],
    [seedRevenue]), together with a model of the part of PostgreSQL the
    SQL text of the handler relies on: the four tables with the
    constraints their [CREATE TABLE] statements declare,
    [INSERT ... ON CONFLICT (col) DO NOTHING], and transaction blocks.

    Conventions.
    - A JavaScript [string] is a [string]; its length is taken as its
      number of characters.  A JavaScript [number] bound to an [INT]
      column is an integer ([Z]); the column's 32-bit range is checked.
    - An [await]ed call is a computation in the monad [Js]: it threads
      the world (database session, link, sources of randomness, the
      statements put on the wire) and either completes normally or
      throws.
    - A call of [client.sql] can fail in two ways: the server raises an
      error on the statement, or the link loses the statement before the
      server runs it.
    - The statements of one [Promise.all] batch are queued on the single
      connection in the order of the fixture list and the connection
      serves its queue first in, first out.  The batch rejects with the
      first error, while the statements queued behind the failing one
      are still served before anything the [catch] block sends.  This is
      how the batches of [seedCustomers], [seedInvoices] and
      [seedRevenue] run, whose calls are all made before the first
      [await].  For [seedUsers], whose inserts wait for their digests,
      it fixes one schedule: the digests are ready in the order of the
      list, all of them before the batch settles. *)

From Stdlib Require Import List String Ascii ZArith Bool Arith Lia.
Import ListNotations.
Local Open Scope string_scope.
Local Open Scope list_scope.

(** ** Record shapes (app/lib/definitions.ts) *)

Inductive InvoiceStatus : Type := pending | paid.

Module User.
Record t : Type := mk
  { id : string; name : string; email : string; password : string }.
End User.

Module Customer.
Record t : Type := mk
  { id : string; name : string; email : string; image_url : string }.
End Customer.

Module Invoice.
Record t : Type := mk
  { id : string; customer_id : string; amount : Z; date : string;
      status : InvoiceStatus }.
End Invoice.

Module Revenue.
Record t : Type := mk { month : string; revenue : Z }.
End Revenue.

(** The text a status value is at run time. *)
Definition status_text (s : InvoiceStatus) : string :=
  match s with
  | pending => "pending"
  | paid => "paid"
  end.

(** ** The statements the route sends *)

Inductive Stmt : Type :=
| BEGIN
| COMMIT
| ROLLBACK
| CREATE_EXTENSION_uuid_ossp
| CREATE_TABLE_users
| CREATE_TABLE_invoices
| CREATE_TABLE_customers
| CREATE_TABLE_revenue
| INSERT_users (id name email password : string)
| INSERT_invoices (customer_id : string) (amount : Z) (status date : string)
| INSERT_customers (id name email image_url : string)
| INSERT_revenue (month : string) (revenue : Z).

(** ** Stored rows *)

Module UsersRow.
Record t : Type := mk
  { id : string; name : string; email : string; password : string }.
End UsersRow.

Module CustomersRow.
Record t : Type := mk
  { id : string; name : string; email : string; image_url : string }.
End CustomersRow.

Module InvoicesRow.
Record t : Type := mk
  { id : string; customer_id : string; amount : Z; status : string;
    date : string }.
End InvoicesRow.

Module RevenueRow.
Record t : Type := mk { month : string; revenue : Z }.
End RevenueRow.

(** A table that was never created is [None]. *)
Record Database : Type := mkDatabase
  { uuid_ossp : bool;
    t_users : option (list UsersRow.t);
    t_customers : option (list CustomersRow.t);
    t_invoices : option (list InvoicesRow.t);
    t_revenue : option (list RevenueRow.t) }.

Definition empty_database : Database :=
  mkDatabase false None None None None.

Definition rows {A : Type} (tbl : option (list A)) : list A :=
  match tbl with
  | Some l => l
  | None => []
  end.

Definition count_users (d : Database) : nat :=
  List.length (rows (t_users d)).
Definition count_customers (d : Database) : nat :=
  List.length (rows (t_customers d)).
Definition count_invoices (d : Database) : nat :=
  List.length (rows (t_invoices d)).
Definition count_revenue (d : Database) : nat :=
  List.length (rows (t_revenue d)).

(** The identifier is that of a stored customer. *)
Definition has_customer (d : Database) (id : string) : Prop :=
  In id (map CustomersRow.id (rows (t_customers d))).

(** Every stored invoice is the invoice of a stored customer. *)
Definition references_customers (d : Database) : Prop :=
  forall row,
    In row (rows (t_invoices d)) ->
    has_customer d (InvoicesRow.customer_id row).

(** The identifier is that of a stored user; the month is stored. *)
Definition has_user (d : Database) (id : string) : Prop :=
  In id (map UsersRow.id (rows (t_users d))).

Definition has_month (d : Database) (month : string) : Prop :=
  In month (map RevenueRow.month (rows (t_revenue d))).

(** ** Errors a statement can raise (by SQLSTATE condition name) *)

Inductive SqlError : Type :=
| invalid_text_representation (column : string)
| invalid_datetime_format (column : string)
| character_not_in_repertoire (column : string)
| string_data_right_truncation (column : string)
| numeric_value_out_of_range (column : string)
| unique_violation (constraint : string)
| undefined_table (relation : string)
| undefined_function (function : string)
| in_failed_sql_transaction
| connection_failure.

(** ** Input conversions of the server

    The syntax of [UUID] and [DATE] literals and the generator behind
    [uuid_generate_v4()] belong to the server; they are an interface.
    [uuid_in] and [date_in] give the stored (canonical) text of a
    literal or [None] when the server rejects it; [uuid_generate_v4 n]
    is the [n]-th identifier the generator hands out. *)

Class PgServer : Type :=
  { uuid_in : string -> option string;
    date_in : string -> option string;
    uuid_generate_v4 : nat -> string }.

(** The hashing library: [salt_source n] is the [n]-th random salt,
    [bcrypt_hash_with salt data rounds] the digest, and
    [bcrypt_compare data encrypted] the check of the library. *)

Class Bcrypt : Type :=
  { salt_source : nat -> string;
    bcrypt_hash_with : string -> string -> nat -> string;
    bcrypt_compare : string -> string -> bool }.

(** [TEXT]: any string without a NUL character. *)
Fixpoint has_nul (s : string) : bool :=
  match s with
  | EmptyString => false
  | String c r => Ascii.eqb c zero || has_nul r
  end.

Definition text_in (column s : string) : SqlError + string :=
  if has_nul s then inl (character_not_in_repertoire column) else inr s.

Fixpoint all_spaces (s : string) : bool :=
  match s with
  | EmptyString => true
  | String c r => Ascii.eqb c " "%char && all_spaces r
  end.

(** [VARCHAR(n)]: at most [n] characters; a longer value is an error
    unless every character beyond the [n]-th is a space, in which case
    the value is cut to [n] characters. *)
Definition varchar_in (n : nat) (column s : string) : SqlError + string :=
  if has_nul s then inl (character_not_in_repertoire column)
  else if (String.length s <=? n)%nat then inr s
  else if all_spaces (substring n (String.length s - n) s)
       then inr (substring 0 n s)
       else inl (string_data_right_truncation column).

(** [INT]: a 32-bit signed integer. *)
Definition int4_in (column : string) (z : Z) : SqlError + Z :=
  if ((-2147483648 <=? z) && (z <=? 2147483647))%Z then inr z
  else inl (numeric_value_out_of_range column).

Definition of_option {A : Type} (e : SqlError) (o : option A)
  : SqlError + A :=
  match o with
  | Some a => inr a
  | None => inl e
  end.

(** Sequencing of fallible conversions. *)
Definition and_then {A B : Type} (x : SqlError + A)
  (k : A -> SqlError + B) : SqlError + B :=
  match x with
  | inl e => inl e
  | inr a => k a
  end.

Notation "'check' x <- c 'in' k" := (and_then c (fun x => k))
  (at level 10, x name, c at level 100, k at level 200).

(** ** What one statement does to the tables *)

Section Server.
Context {server : PgServer}.

Definition with_uuid_ossp (d : Database) : Database :=
  mkDatabase true (t_users d) (t_customers d) (t_invoices d) (t_revenue d).

Definition with_users (d : Database) (l : list UsersRow.t) : Database :=
  mkDatabase (uuid_ossp d) (Some l) (t_customers d) (t_invoices d)
    (t_revenue d).

Definition with_customers (d : Database) (l : list CustomersRow.t)
  : Database :=
  mkDatabase (uuid_ossp d) (t_users d) (Some l) (t_invoices d) (t_revenue d).

Definition with_invoices (d : Database) (l : list InvoicesRow.t)
  : Database :=
  mkDatabase (uuid_ossp d) (t_users d) (t_customers d) (Some l)
    (t_revenue d).

Definition with_revenue (d : Database) (l : list RevenueRow.t) : Database :=
  mkDatabase (uuid_ossp d) (t_users d) (t_customers d) (t_invoices d)
    (Some l).

(** [CREATE TABLE IF NOT EXISTS t (id UUID DEFAULT uuid_generate_v4() ...)]:
    nothing when the table is there; otherwise the default expression
    needs the function the extension brings. *)
Definition create_with_uuid_default (present : bool) (d d' : Database)
  : SqlError + Database :=
  if present then inr d
  else if uuid_ossp d then inr d'
  else inl (undefined_function "uuid_generate_v4").

Definition is_some {A : Type} (o : option A) : bool :=
  match o with
  | Some _ => true
  | None => false
  end.

(** The values of a statement, converted to the types of the columns:
    the row the statement asks to store. *)
Definition users_row_in (id name email password : string)
  : SqlError + UsersRow.t :=
  check id' <- of_option (invalid_text_representation "id") (uuid_in id) in
  check name' <- varchar_in 255 "name" name in
  check email' <- text_in "email" email in
  check password' <- text_in "password" password in
  inr (UsersRow.mk id' name' email' password').

Definition customers_row_in (id name email image_url : string)
  : SqlError + CustomersRow.t :=
  check id' <- of_option (invalid_text_representation "id") (uuid_in id) in
  check name' <- varchar_in 255 "name" name in
  check email' <- varchar_in 255 "email" email in
  check image_url' <- varchar_in 255 "image_url" image_url in
  inr (CustomersRow.mk id' name' email' image_url').

(** The invoice statement names no [id]: the row takes the identifier
    [generated] by the column default. *)
Definition invoices_row_in (generated customer_id : string) (amount : Z)
  (status date : string) : SqlError + InvoicesRow.t :=
  check customer_id' <-
    of_option (invalid_text_representation "customer_id")
      (uuid_in customer_id) in
  check amount' <- int4_in "amount" amount in
  check status' <- varchar_in 255 "status" status in
  check date' <- of_option (invalid_datetime_format "date") (date_in date) in
  inr (InvoicesRow.mk generated customer_id' amount' status' date').

Definition revenue_row_in (month : string) (revenue : Z)
  : SqlError + RevenueRow.t :=
  check month' <- varchar_in 4 "month" month in
  check revenue' <- int4_in "revenue" revenue in
  inr (RevenueRow.mk month' revenue').

(** [INSERT INTO users (id, name, email, password) VALUES (...)
     ON CONFLICT (id) DO NOTHING]: the arbiter is the primary key; the
    [UNIQUE] constraint on [email] is not an arbiter and is enforced. *)
Definition insert_users (id name email password : string) (d : Database)
  : SqlError + (Database * nat) :=
  match t_users d with
  | None => inl (undefined_table "users")
  | Some l =>
      check row <- users_row_in id name email password in
      if existsb (fun r => String.eqb (UsersRow.id r) (UsersRow.id row)) l
      then inr (d, 0)
      else if existsb
                (fun r => String.eqb (UsersRow.email r) (UsersRow.email row))
                l
      then inl (unique_violation "users_email_key")
      else inr (with_users d (l ++ [row]), 1)
  end.

(** [INSERT INTO customers (id, name, email, image_url) VALUES (...)
     ON CONFLICT (id) DO NOTHING]. *)
Definition insert_customers (id name email image_url : string)
  (d : Database) : SqlError + (Database * nat) :=
  match t_customers d with
  | None => inl (undefined_table "customers")
  | Some l =>
      check row <- customers_row_in id name email image_url in
      if existsb
           (fun r => String.eqb (CustomersRow.id r) (CustomersRow.id row)) l
      then inr (d, 0)
      else inr (with_customers d (l ++ [row]), 1)
  end.

(** [INSERT INTO invoices (customer_id, amount, status, date)
     VALUES (...) ON CONFLICT (id) DO NOTHING]: no [id] is supplied, so
    the column default [uuid_generate_v4()] fills it; [n] is the
    position of the generator. *)
Definition insert_invoices (customer_id : string) (amount : Z)
  (status date : string) (d : Database) (n : nat)
  : SqlError + (Database * nat) :=
  match t_invoices d with
  | None => inl (undefined_table "invoices")
  | Some l =>
      check row <-
        invoices_row_in (uuid_generate_v4 n) customer_id amount status date in
      if existsb
           (fun r => String.eqb (InvoicesRow.id r) (InvoicesRow.id row)) l
      then inr (d, 0)
      else inr (with_invoices d (l ++ [row]), 1)
  end.

(** [INSERT INTO revenue (month, revenue) VALUES (...)
     ON CONFLICT (month) DO NOTHING]. *)
Definition insert_revenue (month : string) (revenue : Z) (d : Database)
  : SqlError + (Database * nat) :=
  match t_revenue d with
  | None => inl (undefined_table "revenue")
  | Some l =>
      check row <- revenue_row_in month revenue in
      if existsb
           (fun r => String.eqb (RevenueRow.month r) (RevenueRow.month row)) l
      then inr (d, 0)
      else inr (with_revenue d (l ++ [row]), 1)
  end.

(** The result of a query as the route can see it: the row count of an
    [INSERT] ([Some 1] inserted, [Some 0] skipped), nothing otherwise. *)
Definition QueryResult : Type := option nat.

(** What a statement that did not fail leaves: the tables, the position
    of the identifier generator, and the result. *)
Definition Effect : Type := (Database * nat * QueryResult)%type.

Definition inserted (n : nat) (r : SqlError + (Database * nat))
  : SqlError + Effect :=
  match r with
  | inl e => inl e
  | inr (d, k) => inr (d, n, Some k)
  end.

Definition created (n : nat) (r : SqlError + Database) : SqlError + Effect :=
  match r with
  | inl e => inl e
  | inr d => inr (d, n, None)
  end.

(** The effect of a statement other than [BEGIN], [COMMIT] and
    [ROLLBACK] on the tables; [n] is the position of the identifier
    generator, which only the invoice insert reads and advances. *)
Definition apply_stmt (s : Stmt) (d : Database) (n : nat)
  : SqlError + Effect :=
  match s with
  | BEGIN | COMMIT | ROLLBACK => inr (d, n, None)
  | CREATE_EXTENSION_uuid_ossp => inr (with_uuid_ossp d, n, None)
  | CREATE_TABLE_users =>
      created n (create_with_uuid_default (is_some (t_users d)) d
                   (with_users d []))
  | CREATE_TABLE_invoices =>
      created n (create_with_uuid_default (is_some (t_invoices d)) d
                   (with_invoices d []))
  | CREATE_TABLE_customers =>
      created n (create_with_uuid_default (is_some (t_customers d)) d
                   (with_customers d []))
  | CREATE_TABLE_revenue =>
      inr (if is_some (t_revenue d) then d else with_revenue d [], n, None)
  | INSERT_users id name email password =>
      inserted n (insert_users id name email password d)
  | INSERT_invoices customer_id amount status date =>
      inserted (S n) (insert_invoices customer_id amount status date d n)
  | INSERT_customers id name email image_url =>
      inserted n (insert_customers id name email image_url d)
  | INSERT_revenue month revenue =>
      inserted n (insert_revenue month revenue d)
  end.

(** ** The session: tables and transaction block *)

Inductive TxStatus : Type :=
| Idle
| InTransaction (saved : Database)
| InFailedTransaction (saved : Database).

Record Session : Type := mkSession
  { data : Database; tx : TxStatus; uuid_seq : nat }.

(** The tables a [ROLLBACK] would bring back. *)
Definition snapshot (p : Session) : option Database :=
  match tx p with
  | Idle => None
  | InTransaction saved | InFailedTransaction saved => Some saved
  end.

(** The block after a statement of it raised an error. *)
Definition fail_tx (t : TxStatus) : TxStatus :=
  match t with
  | InTransaction saved => InFailedTransaction saved
  | _ => t
  end.

(** One statement on the session.  Data definition is transactional: a
    [ROLLBACK] undoes [CREATE TABLE] and [CREATE EXTENSION] like it undoes
    inserts.  The identifier generator is not rolled back.  After an
    error inside a transaction block every statement but [COMMIT] and
    [ROLLBACK] is refused; [COMMIT] then rolls back. *)
Definition pg_exec (s : Stmt) (p : Session)
  : (SqlError + QueryResult) * Session :=
  match s, tx p with
  | BEGIN, Idle =>
      (inr None, mkSession (data p) (InTransaction (data p)) (uuid_seq p))
  | BEGIN, InTransaction _ => (inr None, p)
  | COMMIT, Idle => (inr None, p)
  | COMMIT, InTransaction _ =>
      (inr None, mkSession (data p) Idle (uuid_seq p))
  | COMMIT, InFailedTransaction saved =>
      (inr None, mkSession saved Idle (uuid_seq p))
  | ROLLBACK, Idle => (inr None, p)
  | ROLLBACK, InTransaction saved | ROLLBACK, InFailedTransaction saved =>
      (inr None, mkSession saved Idle (uuid_seq p))
  | _, InFailedTransaction _ => (inl in_failed_sql_transaction, p)
  | _, _ =>
      match apply_stmt s (data p) (uuid_seq p) with
      | inr (d, n, r) => (inr r, mkSession d (tx p) n)
      | inl e => (inl e, mkSession (data p) (fail_tx (tx p)) (uuid_seq p))
      end
  end.

(** A property of the tables holds of the session: of the tables as
    they are and of those a [ROLLBACK] would restore. *)
Definition holds_throughout (D : Database -> Prop) (p : Session) : Prop :=
  D (data p) /\ forall d, snapshot p = Some d -> D d.

(** Every stored invoice has an identifier the generator handed out
    before its present position. *)
Definition generated_before (p : Session) : Prop :=
  forall row,
    In row (rows (t_invoices (data p))) ->
    exists j, j < uuid_seq p /\ InvoicesRow.id row = uuid_generate_v4 j.

(** Statements of transaction control. *)
Definition is_tx_control (s : Stmt) : bool :=
  match s with
  | BEGIN | COMMIT | ROLLBACK => true
  | _ => false
  end.

(** Running the statement keeps a property of the session. *)
Definition pg_keeps (P : Session -> Prop) (s : Stmt) : Prop :=
  forall p, P p -> P (snd (pg_exec s p)).

End Server.

(** ** The run time: completions and the monad of awaited calls *)

Inductive Completion (A : Type) : Type :=
| Normal (a : A)
| Thrown (error : SqlError).
Arguments Normal {A} a.
Arguments Thrown {A} error.

(** The world of one connection: the session behind it, the faults of
    the link still to come (one flag per statement sent, [true] when the
    statement is lost before the server runs it and the call rejects),
    the position of the salt source, and the statements sent so far. *)
Record World : Type := mkWorld
  { session : Session;
    faults : list bool;
    salt_seq : nat;
    wire : list Stmt }.

Definition Js (A : Type) : Type := World -> Completion A * World.

Definition ret {A : Type} (a : A) : Js A := fun w => (Normal a, w).

Definition bind {A B : Type} (m : Js A) (k : A -> Js B) : Js B :=
  fun w =>
    match m w with
    | (Normal a, w') => k a w'
    | (Thrown e, w') => (Thrown e, w')
    end.

Notation "x <- m ;; k" := (bind m (fun x => k))
  (at level 61, m at next level, right associativity).
Notation "m ;; k" := (bind m (fun _ => k))
  (at level 61, right associativity).

(** Run from [w], the computation sends a prefix of [l], all of [l] when
    it completes normally, and nothing else. *)
Definition emits_at {A : Type} (m : Js A) (w : World) (l : list Stmt)
  : Prop :=
  exists sent rest,
    l = sent ++ rest /\
    wire (snd (m w)) = wire w ++ sent /\
    (forall a, fst (m w) = Normal a -> rest = []).

(** A computation keeps a property of the session. *)
Definition keeps {A : Type} (P : Session -> Prop) (m : Js A) : Prop :=
  forall w, P (session w) -> P (session (snd (m w))).

(** [try { body } catch (error) { handler }]. *)
Definition try_catch {A : Type} (body : Js A) (handler : SqlError -> Js A)
  : Js A :=
  fun w =>
    match body w with
    | (Normal a, w') => (Normal a, w')
    | (Thrown e, w') => handler e w'
    end.

(** [Promise.all] over the calls of a batch: every call runs, in order;
    the batch completes with the results of all when none throws and
    rejects with the first error otherwise. *)
Fixpoint Promise_all {A : Type} (calls : list (Js A)) : Js (list A) :=
  match calls with
  | [] => ret []
  | call :: rest =>
      fun w =>
        let (c, w1) := call w in
        let (cs, w2) := Promise_all rest w1 in
        (match c, cs with
         | Thrown e, _ => Thrown e
         | Normal _, Thrown e => Thrown e
         | Normal a, Normal l => Normal (a :: l)
         end, w2)
  end.

(** ** The seed route *)

(** [Response.json(body, { status })]. *)
Inductive Json : Type :=
| message_body (message : string)
| error_body (error : SqlError).

Record Response : Type := Response_json { body : Json; status : nat }.

Section Route.
Context {server : PgServer} {bcrypt : Bcrypt}.

(** The fixture lists of [../lib/placeholder-data]. *)
Variable users : list User.t.
Variable customers : list Customer.t.
Variable invoices : list Invoice.t.
Variable revenue : list Revenue.t.

(** [client.sql`...`]: the statement goes on the wire; the link loses
    it or the server runs it. *)
Definition client_sql (s : Stmt) : Js QueryResult :=
  fun w =>
    let sent := wire w ++ [s] in
    match faults w with
    | true :: later =>
        (Thrown connection_failure,
         mkWorld (session w) later (salt_seq w) sent)
    | later =>
        let (r, p) := pg_exec s (session w) in
        (match r with
         | inl e => Thrown e
         | inr q => Normal q
         end,
         mkWorld p (tl later) (salt_seq w) sent)
    end.

(** [bcrypt.hash(data, rounds)] with a number of rounds: a fresh salt is
    drawn. *)
Definition bcrypt_hash (data : string) (rounds : nat) : Js string :=
  fun w =>
    (Normal (bcrypt_hash_with (salt_source (salt_seq w)) data rounds),
     mkWorld (session w) (faults w) (S (salt_seq w)) (wire w)).

(** [seedUsers].  Each insert waits for the digest of its password,
    made with 10 rounds; the digests come in the order of the list. *)
Definition seedUsers : Js (list QueryResult) :=
  client_sql CREATE_EXTENSION_uuid_ossp ;;
  client_sql CREATE_TABLE_users ;;
  insertedUsers <-
    Promise_all
      (map (fun user =>
              hashedPassword <- bcrypt_hash (User.password user) 10 ;;
              client_sql
                (INSERT_users (User.id user) (User.name user)
                   (User.email user) hashedPassword))
         users) ;;
  ret insertedUsers.

(** [seedInvoices].  The [id] of the fixture invoice is not among the
    values of the insert. *)
Definition seedInvoices : Js (list QueryResult) :=
  client_sql CREATE_EXTENSION_uuid_ossp ;;
  client_sql CREATE_TABLE_invoices ;;
  insertedInvoices <-
    Promise_all
      (map (fun invoice =>
              client_sql
                (INSERT_invoices (Invoice.customer_id invoice)
                   (Invoice.amount invoice)
                   (status_text (Invoice.status invoice))
                   (Invoice.date invoice)))
         invoices) ;;
  ret insertedInvoices.

(** [seedCustomers]. *)
Definition seedCustomers : Js (list QueryResult) :=
  client_sql CREATE_EXTENSION_uuid_ossp ;;
  client_sql CREATE_TABLE_customers ;;
  insertedCustomers <-
    Promise_all
      (map (fun customer =>
              client_sql
                (INSERT_customers (Customer.id customer)
                   (Customer.name customer) (Customer.email customer)
                   (Customer.image_url customer)))
         customers) ;;
  ret insertedCustomers.

(** [seedRevenue]: no extension is needed, the table has no generated
    column. *)
Definition seedRevenue : Js (list QueryResult) :=
  client_sql CREATE_TABLE_revenue ;;
  insertedRevenue <-
    Promise_all
      (map (fun rev =>
              client_sql
                (INSERT_revenue (Revenue.month rev) (Revenue.revenue rev)))
         revenue) ;;
  ret insertedRevenue.

(** The [try] block of [GET]. *)
Definition GET_try : Js Response :=
  client_sql BEGIN ;;
  seedUsers ;;
  seedCustomers ;;
  seedInvoices ;;
  seedRevenue ;;
  client_sql COMMIT ;;
  ret (Response_json (message_body "Database seeded successfully") 200).

(** The [catch (error)] block of [GET]. *)
Definition GET_catch (error : SqlError) : Js Response :=
  client_sql ROLLBACK ;;
  ret (Response_json (error_body error) 500).

(** [GET]: the handler of the route. *)
Definition GET : Js Response := try_catch GET_try GET_catch.

(** *** The awaited calls of the [try] block, one by one *)

Definition void {A : Type} (m : Js A) : Js unit := m ;; ret tt.

Fixpoint in_sequence (steps : list (Js unit)) : Js unit :=
  match steps with
  | [] => ret tt
  | step :: rest => step ;; in_sequence rest
  end.

Definition GET_steps : list (Js unit) :=
  [ void (client_sql BEGIN);
    void seedUsers;
    void seedCustomers;
    void seedInvoices;
    void seedRevenue;
    void (client_sql COMMIT) ].

(** Every step completes normally, leaving [w']. *)
Definition all_succeed (steps : list (Js unit)) (w w' : World) : Prop :=
  in_sequence steps w = (Normal tt, w').

(** The steps before some step complete normally and that step throws
    [e], leaving [w']. *)
Definition fails_at (steps : list (Js unit)) (w : World) (e : SqlError)
  (w' : World) : Prop :=
  exists before step after w1,
    steps = before ++ step :: after /\
    in_sequence before w = (Normal tt, w1) /\
    step w1 = (Thrown e, w').

(** *** The statements of each group, as the source lists them *)

Fixpoint users_inserts (salt : nat) (l : list User.t) : list Stmt :=
  match l with
  | [] => []
  | user :: rest =>
      INSERT_users (User.id user) (User.name user) (User.email user)
        (bcrypt_hash_with (salt_source salt) (User.password user) 10)
      :: users_inserts (S salt) rest
  end.

Definition seedUsers_stmts (salt : nat) : list Stmt :=
  CREATE_EXTENSION_uuid_ossp :: CREATE_TABLE_users
  :: users_inserts salt users.

Definition seedCustomers_stmts : list Stmt :=
  CREATE_EXTENSION_uuid_ossp :: CREATE_TABLE_customers
  :: map (fun customer =>
            INSERT_customers (Customer.id customer) (Customer.name customer)
              (Customer.email customer) (Customer.image_url customer))
       customers.

Definition seedInvoices_stmts : list Stmt :=
  CREATE_EXTENSION_uuid_ossp :: CREATE_TABLE_invoices
  :: map (fun invoice =>
            INSERT_invoices (Invoice.customer_id invoice)
              (Invoice.amount invoice)
              (status_text (Invoice.status invoice)) (Invoice.date invoice))
       invoices.

Definition seedRevenue_stmts : list Stmt :=
  CREATE_TABLE_revenue
  :: map (fun rev =>
            INSERT_revenue (Revenue.month rev) (Revenue.revenue rev))
       revenue.

(** What a run of [GET] sends when nothing fails. *)
Definition GET_stmts (salt : nat) : list Stmt :=
  BEGIN :: seedUsers_stmts salt ++ seedCustomers_stmts
  ++ seedInvoices_stmts ++ seedRevenue_stmts ++ [COMMIT].

(** *** The shape of the statements of each group *)

Definition users_stmt (s : Stmt) : Prop :=
  s = CREATE_EXTENSION_uuid_ossp \/ s = CREATE_TABLE_users \/
  exists user salt,
    In user users /\
    s = INSERT_users (User.id user) (User.name user) (User.email user)
          (bcrypt_hash_with salt (User.password user) 10).

Definition customers_stmt (s : Stmt) : Prop :=
  s = CREATE_EXTENSION_uuid_ossp \/ s = CREATE_TABLE_customers \/
  exists customer,
    In customer customers /\
    s = INSERT_customers (Customer.id customer) (Customer.name customer)
          (Customer.email customer) (Customer.image_url customer).

Definition invoices_stmt (s : Stmt) : Prop :=
  s = CREATE_EXTENSION_uuid_ossp \/ s = CREATE_TABLE_invoices \/
  exists invoice,
    In invoice invoices /\
    s = INSERT_invoices (Invoice.customer_id invoice)
          (Invoice.amount invoice) (status_text (Invoice.status invoice))
          (Invoice.date invoice).

Definition revenue_stmt (s : Stmt) : Prop :=
  s = CREATE_TABLE_revenue \/
  exists rev,
    In rev revenue /\
    s = INSERT_revenue (Revenue.month rev) (Revenue.revenue rev).

Definition seeding_stmt (s : Stmt) : Prop :=
  users_stmt s \/ customers_stmt s \/ invoices_stmt s \/ revenue_stmt s.

(** *** The keys of the fixture, stored *)

Definition users_stored (d : Database) : Prop :=
  forall user,
    In user users ->
    exists k, uuid_in (User.id user) = Some k /\ has_user d k.

Definition customers_stored (d : Database) : Prop :=
  forall customer,
    In customer customers ->
    exists k, uuid_in (Customer.id customer) = Some k /\ has_customer d k.

Definition revenue_stored (d : Database) : Prop :=
  forall rev,
    In rev revenue ->
    exists m,
      varchar_in 4 "month" (Revenue.month rev) = inr m /\ has_month d m.

End Route.

(** ** A small server and hashing library to run the route on

    Identifiers are accepted when they have the 36 characters of the
    usual form and stored as given; dates when they have the 10
    characters of [YYYY-MM-DD]; the generator counts. *)

Definition hex_digit (n : nat) : ascii :=
  match n with
  | 0 => "0" | 1 => "1" | 2 => "2" | 3 => "3" | 4 => "4" | 5 => "5"
  | 6 => "6" | 7 => "7" | 8 => "8" | 9 => "9" | 10 => "a" | 11 => "b"
  | 12 => "c" | 13 => "d" | 14 => "e" | _ => "f"
  end%char.

Fixpoint hex_of (digits n : nat) : string :=
  match digits with
  | 0 => ""
  | S k => (hex_of k (n / 16) ++ String (hex_digit (n mod 16)) "")%string
  end.

#[local] Instance counting_server : PgServer :=
  {| uuid_in := fun s => if (String.length s =? 36)%nat then Some s else None;
     date_in := fun s => if (String.length s =? 10)%nat then Some s else None;
     uuid_generate_v4 := fun n =>
       ("00000000-0000-4000-8000-" ++ hex_of 12 n)%string |}.

(** A stand-in for the hashing library: the digest carries the data
    behind a marker and the salt, and the check looks for the data. *)
#[local] Instance marking_bcrypt : Bcrypt :=
  {| salt_source := fun n => hex_of 22 n;
     bcrypt_hash_with := fun salt data rounds =>
       ("$" ++ data ++ "$" ++ salt)%string;
     bcrypt_compare := fun data encrypted =>
       String.prefix ("$" ++ data ++ "$")%string encrypted |}.

Definition fresh_session : Session := mkSession empty_database Idle 0.

(** A connection to the empty database over a link that loses the
    statements flagged in [lost]. *)
Definition fresh_world (lost : list bool) : World :=
  mkWorld fresh_session lost 0 [].

(** The fixture of the concrete scenario: one user, one customer, one
    invoice of that customer, one month of revenue. *)
Definition one_user : User.t :=
  User.mk "410544b2-4001-4271-9855-fec4b6a6442a" "User" "user@nextmail.com"
    "123456".

Definition one_customer : Customer.t :=
  Customer.mk "d6e15727-9fe1-4961-8c5b-ea44a9bd81aa" "Evil Rabbit"
    "evil@rabbit.com" "/customers/evil-rabbit.png".

Definition one_invoice : Invoice.t :=
  Invoice.mk "7a1a4c3e-0c5d-4a6e-9d7b-2f1e3c4b5a69"
    "d6e15727-9fe1-4961-8c5b-ea44a9bd81aa" 15795 "2022-12-06" pending.

Definition one_revenue : Revenue.t := Revenue.mk "Jan" 2000.

(** A month that does not fit [VARCHAR(4)]. *)
Definition long_month : Revenue.t := Revenue.mk "January" 2000.

(** A second user with the e-mail address of [one_user]. *)
Definition same_email_user : User.t :=
  User.mk "3958dc9e-712f-4377-85e9-fec4b6a6442a" "Other" "user@nextmail.com"
    "abcdef".

(** An invoice of a customer nobody seeds. *)
Definition stray_invoice : Invoice.t :=
  Invoice.mk "5b2c1d3e-4f5a-4b6c-8d7e-9f0a1b2c3d4e"
    "cc27c14a-0acf-4f4a-a6c9-d45682c144b9" 666 "2023-06-27" paid.

(** The fields of a fixture invoice that [seedInvoices] reads. *)
Definition written_fields (invoice : Invoice.t)
  : string * Z * InvoiceStatus * string :=
  (Invoice.customer_id invoice, Invoice.amount invoice,
   Invoice.status invoice, Invoice.date invoice).

(** No statement of the open transaction block, if any, has failed. *)
Definition accepting (p : Session) : Prop :=
  forall saved, tx p <> InFailedTransaction saved.

(** The tables of the session replaced, the rest kept. *)
Definition with_data (p : Session) (d : Database) (n : nat) : Session :=
  mkSession d (tx p) n.

(** A database with the one user row of the scenario stored. *)
Definition one_user_stored : Database :=
  with_users (with_uuid_ossp empty_database)
    [UsersRow.mk "410544b2-4001-4271-9855-fec4b6a6442a" "User"
       "user@nextmail.com" "$123456$0000000000000000000000"].

(** A server whose generator counts in tally marks: it never hands out
    an identifier twice. *)
Fixpoint tally (n : nat) : string :=
  match n with
  | 0 => ""
  | S k => String "0" (tally k)
  end.

Definition tally_server : PgServer :=
  {| uuid_in := fun s => Some s;
     date_in := fun s => Some s;
     uuid_generate_v4 := tally |}.

(** ** Further notions for runs of the route *)

(** A computation keeps a property of the world. *)
Definition keeps_world {A : Type} (P : World -> Prop) (m : Js A) : Prop :=
  forall w, P w -> P (snd (m w)).

(** Run in a block that accepts statements, the computation either
    completes and leaves such a block, or throws an error other than the
    refusal [in_failed_sql_transaction]: what it throws is the error
    that broke the block, not one that follows from it. *)
Definition root_cause {A : Type} (m : Js A) : Prop :=
  forall w,
    accepting (session w) ->
    match m w with
    | (Normal _, w') => accepting (session w')
    | (Thrown e, _) => e <> in_failed_sql_transaction
    end.

(** The extension and the four tables are there. *)
Definition provisioned (d : Database) : Prop :=
  uuid_ossp d = true /\
  t_users d <> None /\ t_customers d <> None /\
  t_invoices d <> None /\ t_revenue d <> None.

(** What the constraints of the four [CREATE TABLE] statements ask of
    the rows: one row per primary key, one user per e-mail address, one
    revenue row per month. *)
Definition keys_distinct (d : Database) : Prop :=
  NoDup (map UsersRow.id (rows (t_users d))) /\
  NoDup (map UsersRow.email (rows (t_users d))) /\
  NoDup (map CustomersRow.id (rows (t_customers d))) /\
  NoDup (map InvoicesRow.id (rows (t_invoices d))) /\
  NoDup (map RevenueRow.month (rows (t_revenue d))).

(** The rows of before, in their order, with rows added behind them. *)
Definition extends {A : Type} (before after : list A) : Prop :=
  exists added, after = before ++ added.

(** Every table holds the rows of [d0] and rows behind them. *)
Definition extends_database (d0 d : Database) : Prop :=
  extends (rows (t_users d0)) (rows (t_users d)) /\
  extends (rows (t_customers d0)) (rows (t_customers d)) /\
  extends (rows (t_invoices d0)) (rows (t_invoices d)) /\
  extends (rows (t_revenue d0)) (rows (t_revenue d)).

Section Provenance.
Context {server : PgServer} {bcrypt : Bcrypt}.
Variable users : list User.t.
Variable customers : list Customer.t.
Variable invoices : list Invoice.t.
Variable revenue : list Revenue.t.

(** The row is what the columns make of a record of the fixture: of a
    user with the digest of the password, of a customer, of an invoice
    under a generated identifier, of a month of revenue. *)
Definition users_row_of_fixture (row : UsersRow.t) : Prop :=
  exists user salt,
    In user users /\
    users_row_in (User.id user) (User.name user) (User.email user)
      (bcrypt_hash_with salt (User.password user) 10) = inr row.

Definition customers_row_of_fixture (row : CustomersRow.t) : Prop :=
  exists customer,
    In customer customers /\
    customers_row_in (Customer.id customer) (Customer.name customer)
      (Customer.email customer) (Customer.image_url customer) = inr row.

Definition invoices_row_of_fixture (row : InvoicesRow.t) : Prop :=
  exists invoice n,
    In invoice invoices /\
    invoices_row_in (uuid_generate_v4 n) (Invoice.customer_id invoice)
      (Invoice.amount invoice) (status_text (Invoice.status invoice))
      (Invoice.date invoice) = inr row.

Definition revenue_row_of_fixture (row : RevenueRow.t) : Prop :=
  exists rev,
    In rev revenue /\
    revenue_row_in (Revenue.month rev) (Revenue.revenue rev) = inr row.

(** The rows of [d] that are not rows of [d0] come from the fixture. *)
Definition added_from_fixture (d0 d : Database) : Prop :=
  (forall row, In row (rows (t_users d)) ->
     In row (rows (t_users d0)) \/ users_row_of_fixture row) /\
  (forall row, In row (rows (t_customers d)) ->
     In row (rows (t_customers d0)) \/ customers_row_of_fixture row) /\
  (forall row, In row (rows (t_invoices d)) ->
     In row (rows (t_invoices d0)) \/ invoices_row_of_fixture row) /\
  (forall row, In row (rows (t_revenue d)) ->
     In row (rows (t_revenue d0)) \/ revenue_row_of_fixture row).

End Provenance.

(** A customer whose [id] is no identifier, and a second customer. *)
Definition malformed_customer : Customer.t :=
  Customer.mk "not-an-identifier" "Nobody" "nobody@nowhere.com"
    "/customers/nobody.png".

Definition another_customer : Customer.t :=
  Customer.mk "3958dc9e-742f-4377-85e9-fec4b6a6442a" "Delba de Oliveira"
    "delba@oliveira.com" "/customers/delba-de-oliveira.png".

(** * Facts *)

(** ** The monad *)

Lemma bind_normal {A B : Type} (m : Js A) (k : A -> Js B) w a w' :
  m w = (Normal a, w') -> bind m k w = k a w'.
Proof. unfold bind; intros ->; reflexivity. Qed.

Lemma bind_thrown {A B : Type} (m : Js A) (k : A -> Js B) w e w' :
  m w = (Thrown e, w') -> bind m k w = (Thrown e, w').
Proof. unfold bind; intros ->; reflexivity. Qed.

Lemma bind_normal_inv {A B : Type} (m : Js A) (k : A -> Js B) w b w' :
  bind m k w = (Normal b, w') ->
  exists a w1, m w = (Normal a, w1) /\ k a w1 = (Normal b, w').
Proof.
  unfold bind; destruct (m w) as [[a | e] w1]; intros H.
  - exists a, w1; split; [reflexivity | exact H].
  - discriminate H.
Qed.

Lemma bind_thrown_inv {A B : Type} (m : Js A) (k : A -> Js B) w e w' :
  bind m k w = (Thrown e, w') ->
  m w = (Thrown e, w') \/
  exists a w1, m w = (Normal a, w1) /\ k a w1 = (Thrown e, w').
Proof.
  unfold bind; destruct (m w) as [[a | e0] w1]; intros H.
  - right; exists a, w1; split; [reflexivity | exact H].
  - left; inversion H; reflexivity.
Qed.

Lemma void_normal {A : Type} (m : Js A) w a w' :
  m w = (Normal a, w') -> void m w = (Normal tt, w').
Proof.
  unfold void; intros H; rewrite (bind_normal _ _ _ _ _ H); reflexivity.
Qed.

Lemma void_thrown {A : Type} (m : Js A) w e w' :
  m w = (Thrown e, w') -> void m w = (Thrown e, w').
Proof. unfold void; intros H; apply bind_thrown; exact H. Qed.



Lemma in_sequence_app (l1 l2 : list (Js unit)) w :
  in_sequence (l1 ++ l2) w = (in_sequence l1 ;; in_sequence l2) w.
Proof.
  revert w; induction l1 as [| step rest IH]; intros w; simpl.
  - reflexivity.
  - unfold bind; destruct (step w) as [[[] | e] w1].
    + rewrite IH; reflexivity.
    + reflexivity.
Qed.


(** A failing step makes the sequence throw what the step throws. *)
Lemma fails_at_thrown steps w e w' :
  fails_at steps w e w' -> in_sequence steps w = (Thrown e, w').
Proof.
  intros (before & step & after & w1 & -> & Hb & Hs).
  rewrite in_sequence_app; rewrite (bind_normal _ _ _ _ _ Hb); simpl.
  apply bind_thrown; exact Hs.
Qed.

(** A sequence that throws has a failing step. *)
Lemma thrown_fails_at steps w e w' :
  in_sequence steps w = (Thrown e, w') -> fails_at steps w e w'.
Proof.
  revert w; induction steps as [| step rest IH]; intros w H; simpl in H.
  - discriminate H.
  - destruct (bind_thrown_inv _ _ _ _ _ H) as [Hs | ([] & w1 & Hs & Hr)].
    + exists [], step, rest, w; repeat split; assumption.
    + destruct (IH _ Hr) as (before & st & after & w2 & -> & Hb & Hst).
      exists (step :: before), st, after, w2; repeat split; try assumption.
      simpl; rewrite (bind_normal _ _ _ _ _ Hs); exact Hb.
Qed.

Lemma keeps_ret {A : Type} (P : Session -> Prop) (a : A) : keeps P (ret a).
Proof. intros w H; exact H. Qed.

Lemma keeps_bind {A B : Type} (P : Session -> Prop) (m : Js A)
  (k : A -> Js B) :
  keeps P m -> (forall a, keeps P (k a)) -> keeps P (bind m k).
Proof.
  intros Hm Hk w H; unfold bind.
  specialize (Hm w H); destruct (m w) as [[a | e] w1]; simpl in Hm.
  - apply Hk; exact Hm.
  - exact Hm.
Qed.


Lemma keeps_Promise_all {A : Type} (P : Session -> Prop)
  (calls : list (Js A)) :
  Forall (keeps P) calls -> keeps P (Promise_all calls).
Proof.
  induction 1 as [| call rest Hc _ IH]; intros w H; simpl.
  - exact H.
  - specialize (Hc w H); destruct (call w) as [c w1]; simpl in Hc.
    specialize (IH w1 Hc); destruct (Promise_all rest w1) as [cs w2].
    exact IH.
Qed.


(** ** Sessions *)

Section ServerFacts.
Context {server : PgServer}.

Lemma pg_exec_data_stmt s p :
  is_tx_control s = false ->
  pg_exec s p =
    match tx p with
    | InFailedTransaction _ => (inl in_failed_sql_transaction, p)
    | _ =>
        match apply_stmt s (data p) (uuid_seq p) with
        | inr (d, n, r) => (inr r, mkSession d (tx p) n)
        | inl e => (inl e, mkSession (data p) (fail_tx (tx p)) (uuid_seq p))
        end
    end.
Proof.
  intros H; unfold pg_exec.
  destruct s; try discriminate H; destruct (tx p); reflexivity.
Qed.



Lemma pg_exec_ROLLBACK_ok p : exists q, fst (pg_exec ROLLBACK p) = inr q.
Proof. unfold pg_exec; destruct (tx p); eexists; reflexivity. Qed.





(** *** What an insert does *)

Lemma existsb_eqb_In {A : Type} (f : A -> string) (x : string) (l : list A) :
  existsb (fun r => String.eqb (f r) x) l = true <-> In x (map f l).
Proof.
  rewrite existsb_exists, in_map_iff; split.
  - intros (r & Hr & He); apply String.eqb_eq in He; exists r; auto.
  - intros (r & He & Hr); exists r; split; [exact Hr |].
    apply String.eqb_eq; exact He.
Qed.

Lemma existsb_eqb_not_In {A : Type} (f : A -> string) (x : string)
  (l : list A) :
  existsb (fun r => String.eqb (f r) x) l = false <-> ~ In x (map f l).
Proof.
  rewrite <- existsb_eqb_In.
  destruct (existsb _ l); split; intros H; try reflexivity;
    try discriminate; try (intros H'; discriminate H').
  exfalso; apply H; reflexivity.
Qed.

Lemma insert_users_inv id name email password d d' k :
  insert_users id name email password d = inr (d', k) ->
  exists l row,
    t_users d = Some l /\
    users_row_in id name email password = inr row /\
    ((In (UsersRow.id row) (map UsersRow.id l) /\ d' = d /\ k = 0) \/
     (~ In (UsersRow.id row) (map UsersRow.id l) /\
      ~ In (UsersRow.email row) (map UsersRow.email l) /\
      d' = with_users d (l ++ [row]) /\ k = 1)).
Proof.
  unfold insert_users; destruct (t_users d) as [l |]; [| discriminate].
  destruct (users_row_in id name email password) as [e | row];
    [discriminate |]; simpl.
  destruct (existsb
              (fun r => String.eqb (UsersRow.id r) (UsersRow.id row)) l)
    eqn:Hid.
  - intros H; inversion H; subst; exists l, row; repeat split.
    left; repeat split; apply existsb_eqb_In; exact Hid.
  - destruct (existsb
                (fun r => String.eqb (UsersRow.email r) (UsersRow.email row))
                l) eqn:Hem; [discriminate |].
    intros H; inversion H; subst; exists l, row; repeat split.
    right; repeat split.
    + apply existsb_eqb_not_In; exact Hid.
    + apply existsb_eqb_not_In; exact Hem.
Qed.

Lemma insert_customers_inv id name email image_url d d' k :
  insert_customers id name email image_url d = inr (d', k) ->
  exists l row,
    t_customers d = Some l /\
    customers_row_in id name email image_url = inr row /\
    ((In (CustomersRow.id row) (map CustomersRow.id l) /\ d' = d /\ k = 0) \/
     (~ In (CustomersRow.id row) (map CustomersRow.id l) /\
      d' = with_customers d (l ++ [row]) /\ k = 1)).
Proof.
  unfold insert_customers; destruct (t_customers d) as [l |]; [| discriminate].
  destruct (customers_row_in id name email image_url) as [e | row];
    [discriminate |]; simpl.
  destruct (existsb _ l) eqn:Hid;
    intros H; inversion H; subst; exists l, row; repeat split.
  - left; repeat split; apply existsb_eqb_In; exact Hid.
  - right; repeat split; apply existsb_eqb_not_In; exact Hid.
Qed.

Lemma insert_invoices_inv customer_id amount status date d n d' k :
  insert_invoices customer_id amount status date d n = inr (d', k) ->
  exists l row,
    t_invoices d = Some l /\
    invoices_row_in (uuid_generate_v4 n) customer_id amount status date =
      inr row /\
    ((In (InvoicesRow.id row) (map InvoicesRow.id l) /\ d' = d /\ k = 0) \/
     (~ In (InvoicesRow.id row) (map InvoicesRow.id l) /\
      d' = with_invoices d (l ++ [row]) /\ k = 1)).
Proof.
  unfold insert_invoices; destruct (t_invoices d) as [l |]; [| discriminate].
  destruct (invoices_row_in _ customer_id amount status date) as [e | row];
    [discriminate |]; simpl.
  destruct (existsb _ l) eqn:Hid;
    intros H; inversion H; subst; exists l, row; repeat split.
  - left; repeat split; apply existsb_eqb_In; exact Hid.
  - right; repeat split; apply existsb_eqb_not_In; exact Hid.
Qed.

Lemma insert_revenue_inv month revenue d d' k :
  insert_revenue month revenue d = inr (d', k) ->
  exists l row,
    t_revenue d = Some l /\
    revenue_row_in month revenue = inr row /\
    ((In (RevenueRow.month row) (map RevenueRow.month l) /\ d' = d /\ k = 0)
     \/
     (~ In (RevenueRow.month row) (map RevenueRow.month l) /\
      d' = with_revenue d (l ++ [row]) /\ k = 1)).
Proof.
  unfold insert_revenue; destruct (t_revenue d) as [l |]; [| discriminate].
  destruct (revenue_row_in month revenue) as [e | row];
    [discriminate |]; simpl.
  destruct (existsb _ l) eqn:Hid;
    intros H; inversion H; subst; exists l, row; repeat split.
  - left; repeat split; apply existsb_eqb_In; exact Hid.
  - right; repeat split; apply existsb_eqb_not_In; exact Hid.
Qed.


(** *** What a statement does to each table *)

Ltac unchanged_table :=
  match goal with
  | H : inr _ = inr _ |- _ => inversion H; subst; clear H
  | H : (if ?b then _ else _) = inr _ |- _ => destruct b eqn:?
  | H : match ?x with _ => _ end = inr _ |- _ => destruct x eqn:?
  | H : inl _ = inr _ |- _ => discriminate H
  | H : created _ _ = inr _ |- _ => unfold created in H
  | H : inserted _ _ = inr _ |- _ => unfold inserted in H
  | H : context [create_with_uuid_default] |- _ =>
      unfold create_with_uuid_default in H
  | H : insert_users _ _ _ _ _ = inr _ |- _ =>
      apply insert_users_inv in H;
      destruct H as (? & ? & ? & ? & [(? & ? & ?) | (? & ? & ? & ?)]); subst
  | H : insert_customers _ _ _ _ _ = inr _ |- _ =>
      apply insert_customers_inv in H;
      destruct H as (? & ? & ? & ? & [(? & ? & ?) | (? & ? & ?)]); subst
  | H : insert_invoices _ _ _ _ _ _ = inr _ |- _ =>
      apply insert_invoices_inv in H;
      destruct H as (? & ? & ? & ? & [(? & ? & ?) | (? & ? & ?)]); subst
  | H : insert_revenue _ _ _ = inr _ |- _ =>
      apply insert_revenue_inv in H;
      destruct H as (? & ? & ? & ? & [(? & ? & ?) | (? & ? & ?)]); subst
  end.

Ltac by_statement H s :=
  destruct s; simpl in H; repeat unchanged_table;
  repeat
    match goal with
    | E : is_some ?t = _ |- _ =>
        destruct t eqn:?; simpl in E; try discriminate E; clear E
    | |- context [if is_some ?t then _ else _] => destruct t eqn:?; simpl
    end;
  try (left; simpl;
       repeat match goal with E : _ = None |- _ => rewrite E end;
       repeat match goal with E : _ = Some _ |- _ => rewrite E end;
       reflexivity).

Lemma apply_stmt_users s d n d' n' r :
  apply_stmt s d n = inr (d', n', r) ->
  rows (t_users d') = rows (t_users d) \/
  exists id name email password row,
    s = INSERT_users id name email password /\
    users_row_in id name email password = inr row /\
    rows (t_users d') = rows (t_users d) ++ [row].
Proof.
  intros H; by_statement H s.
  right; eexists _, _, _, _, _; repeat split; [eassumption |].
  simpl; match goal with E : _ = Some _ |- _ => rewrite E end; reflexivity.
Qed.

Lemma apply_stmt_customers s d n d' n' r :
  apply_stmt s d n = inr (d', n', r) ->
  rows (t_customers d') = rows (t_customers d) \/
  exists id name email image_url row,
    s = INSERT_customers id name email image_url /\
    customers_row_in id name email image_url = inr row /\
    rows (t_customers d') = rows (t_customers d) ++ [row].
Proof.
  intros H; by_statement H s.
  right; eexists _, _, _, _, _; repeat split; [eassumption |].
  simpl; match goal with E : _ = Some _ |- _ => rewrite E end; reflexivity.
Qed.

Lemma apply_stmt_invoices s d n d' n' r :
  apply_stmt s d n = inr (d', n', r) ->
  rows (t_invoices d') = rows (t_invoices d) \/
  exists customer_id amount status date row,
    s = INSERT_invoices customer_id amount status date /\
    invoices_row_in (uuid_generate_v4 n) customer_id amount status date =
      inr row /\
    rows (t_invoices d') = rows (t_invoices d) ++ [row].
Proof.
  intros H; by_statement H s.
  right; eexists _, _, _, _, _; repeat split; [eassumption |].
  simpl; match goal with E : _ = Some _ |- _ => rewrite E end; reflexivity.
Qed.

Lemma apply_stmt_revenue s d n d' n' r :
  apply_stmt s d n = inr (d', n', r) ->
  rows (t_revenue d') = rows (t_revenue d) \/
  exists month revenue row,
    s = INSERT_revenue month revenue /\
    revenue_row_in month revenue = inr row /\
    rows (t_revenue d') = rows (t_revenue d) ++ [row].
Proof.
  intros H; by_statement H s.
  right; eexists _, _, _; repeat split; [eassumption |].
  simpl; match goal with E : _ = Some _ |- _ => rewrite E end; reflexivity.
Qed.

(** *** A row is added only under a key that is not stored *)

Lemma apply_stmt_users_key s d n d' n' r :
  apply_stmt s d n = inr (d', n', r) ->
  rows (t_users d') = rows (t_users d) \/
  exists id name email password row,
    s = INSERT_users id name email password /\
    users_row_in id name email password = inr row /\
    ~ In (UsersRow.id row) (map UsersRow.id (rows (t_users d))).
Proof.
  intros H; by_statement H s.
  right; eexists _, _, _, _, _; repeat split; [eassumption |].
  match goal with E : _ = Some _ |- _ => rewrite E end; assumption.
Qed.

Lemma apply_stmt_customers_key s d n d' n' r :
  apply_stmt s d n = inr (d', n', r) ->
  rows (t_customers d') = rows (t_customers d) \/
  exists id name email image_url row,
    s = INSERT_customers id name email image_url /\
    customers_row_in id name email image_url = inr row /\
    ~ In (CustomersRow.id row)
        (map CustomersRow.id (rows (t_customers d))).
Proof.
  intros H; by_statement H s.
  right; eexists _, _, _, _, _; repeat split; [eassumption |].
  match goal with E : _ = Some _ |- _ => rewrite E end; assumption.
Qed.

Lemma apply_stmt_revenue_key s d n d' n' r :
  apply_stmt s d n = inr (d', n', r) ->
  rows (t_revenue d') = rows (t_revenue d) \/
  exists month revenue row,
    s = INSERT_revenue month revenue /\
    revenue_row_in month revenue = inr row /\
    ~ In (RevenueRow.month row) (map RevenueRow.month (rows (t_revenue d))).
Proof.
  intros H; by_statement H s.
  right; eexists _, _, _; repeat split; [eassumption |].
  match goal with E : _ = Some _ |- _ => rewrite E end; assumption.
Qed.

(** The generator moves by one at each invoice insert the server runs,
    and at nothing else. *)
Lemma apply_stmt_uuid_seq s d n d' n' r :
  apply_stmt s d n = inr (d', n', r) ->
  (n' = n /\ rows (t_invoices d') = rows (t_invoices d)) \/
  (n' = S n /\
   (rows (t_invoices d') = rows (t_invoices d) \/
    exists row,
      InvoicesRow.id row = uuid_generate_v4 n /\
      ~ In (uuid_generate_v4 n)
          (map InvoicesRow.id (rows (t_invoices d))) /\
      rows (t_invoices d') = rows (t_invoices d) ++ [row])).
Proof.
  intros H; destruct s; simpl in H; repeat unchanged_table;
    repeat
      match goal with
      | E : is_some ?t = _ |- _ =>
          destruct t eqn:?; simpl in E; try discriminate E; clear E
      | |- context [if is_some ?t then _ else _] => destruct t eqn:?; simpl
      end;
    try (left; split; [reflexivity |]; simpl;
         repeat match goal with E : _ = None |- _ => rewrite E end;
         repeat match goal with E : _ = Some _ |- _ => rewrite E end;
         reflexivity).
  - right; split; [reflexivity | left; reflexivity].
  - right; split; [reflexivity | right].
    match goal with
    | Hrow : invoices_row_in _ _ _ _ _ = inr ?row |- _ =>
        exists row;
        assert (Hid : InvoicesRow.id row = uuid_generate_v4 n)
    end.
    { match goal with
      | Hrow : invoices_row_in _ ?c ?a ?st ?dt = inr _ |- _ =>
          revert Hrow; unfold invoices_row_in, and_then, of_option;
          destruct (uuid_in c); [| discriminate];
          destruct (int4_in "amount" a); [discriminate |];
          destruct (varchar_in 255 "status" st); [discriminate |];
          destruct (date_in dt); [| discriminate];
          intros Hrow; inversion Hrow; reflexivity
      end. }
    split; [exact Hid | split].
    + rewrite <- Hid.
      match goal with E : _ = Some _ |- _ => rewrite E end; assumption.
    + simpl; match goal with E : _ = Some _ |- _ => rewrite E end;
        reflexivity.
Qed.

(** *** Properties of the tables that every statement keeps *)

Lemma pg_keeps_holds_throughout (D : Database -> Prop) s :
  (forall d n d' n' r, apply_stmt s d n = inr (d', n', r) -> D d -> D d') ->
  pg_keeps (holds_throughout D) s.
Proof.
  intros H p [Hd Hs]; unfold holds_throughout, snapshot in *.
  destruct (is_tx_control s) eqn:Hc.
  - destruct s; try discriminate Hc; unfold pg_exec;
      destruct (tx p) as [| saved | saved] eqn:Ht; simpl;
      rewrite ?Ht; split; try exact Hd; try exact Hs;
      try (intros d E; inversion E; subst; exact Hd);
      try (intros d E; discriminate E);
      try (apply Hs; reflexivity).
  - rewrite (pg_exec_data_stmt _ _ Hc).
    destruct (tx p) as [| saved | saved] eqn:Ht.
    + destruct (apply_stmt s (data p) (uuid_seq p)) as [e | [[d n] r]] eqn:Ha;
        simpl; rewrite ?Ht; split; try exact Hd; try exact Hs.
      eapply H; [exact Ha | exact Hd].
    + destruct (apply_stmt s (data p) (uuid_seq p)) as [e | [[d n] r]] eqn:Ha;
        simpl; rewrite ?Ht; split; try exact Hd; try exact Hs.
      eapply H; [exact Ha | exact Hd].
    + simpl; rewrite Ht; split; [exact Hd | exact Hs].
Qed.

End ServerFacts.

(** ** The calls of the route *)

Section RouteFacts.
Context {server : PgServer} {bcrypt : Bcrypt}.
Variable users : list User.t.
Variable customers : list Customer.t.
Variable invoices : list Invoice.t.
Variable revenue : list Revenue.t.

Lemma client_sql_wire s w : wire (snd (client_sql s w)) = wire w ++ [s].
Proof.
  unfold client_sql; destruct (faults w) as [| [|] later];
    try destruct (pg_exec s (session w)); reflexivity.
Qed.

Lemma client_sql_salt s w : salt_seq (snd (client_sql s w)) = salt_seq w.
Proof.
  unfold client_sql; destruct (faults w) as [| [|] later];
    try destruct (pg_exec s (session w)); reflexivity.
Qed.

(** A call either is lost, and the session is as before, or runs on the
    server. *)
Lemma client_sql_session s w :
  (fst (client_sql s w) = Thrown connection_failure /\
   session (snd (client_sql s w)) = session w) \/
  (session (snd (client_sql s w)) = snd (pg_exec s (session w)) /\
   fst (client_sql s w) =
     match fst (pg_exec s (session w)) with
     | inl e => Thrown e
     | inr q => Normal q
     end).
Proof.
  unfold client_sql; destruct (faults w) as [| [|] later].
  - right; destruct (pg_exec s (session w)); split; reflexivity.
  - left; split; reflexivity.
  - right; destruct (pg_exec s (session w)); split; reflexivity.
Qed.

Lemma keeps_client_sql (P : Session -> Prop) s :
  pg_keeps P s -> keeps P (client_sql s).
Proof.
  intros H w Hw.
  destruct (client_sql_session s w) as [[_ ->] | [-> _]];
    [exact Hw | apply H; exact Hw].
Qed.

Lemma keeps_bcrypt_hash (P : Session -> Prop) data rounds :
  keeps P (bcrypt_hash data rounds).
Proof. intros w H; exact H. Qed.


Lemma client_sql_ROLLBACK_normal w q w' :
  client_sql ROLLBACK w = (Normal q, w') ->
  session w' = snd (pg_exec ROLLBACK (session w)).
Proof.
  intros H.
  destruct (client_sql_session ROLLBACK w) as [[Hc _] | [Hs _]];
    rewrite H in *; cbn [fst snd] in *.
  - discriminate Hc.
  - exact Hs.
Qed.


(** *** Each group sends statements of its shape only *)

Lemma seedUsers_keeps (P : Session -> Prop) :
  (forall s, users_stmt users s -> pg_keeps P s) -> keeps P (seedUsers users).
Proof.
  intros H; unfold seedUsers.
  apply keeps_bind; [apply keeps_client_sql, H; left; reflexivity |].
  intros _; apply keeps_bind;
    [apply keeps_client_sql, H; right; left; reflexivity |].
  intros _; apply keeps_bind; [| intros; apply keeps_ret].
  apply keeps_Promise_all, Forall_forall; intros call Hc.
  apply in_map_iff in Hc; destruct Hc as (user & <- & Hu).
  intros w Hw; unfold bind, bcrypt_hash.
  apply (keeps_client_sql P); [| exact Hw].
  apply H; right; right; exists user, (salt_source (salt_seq w)).
  split; [exact Hu | reflexivity].
Qed.

Lemma seedCustomers_keeps (P : Session -> Prop) :
  (forall s, customers_stmt customers s -> pg_keeps P s) ->
  keeps P (seedCustomers customers).
Proof.
  intros H; unfold seedCustomers.
  apply keeps_bind; [apply keeps_client_sql, H; left; reflexivity |].
  intros _; apply keeps_bind;
    [apply keeps_client_sql, H; right; left; reflexivity |].
  intros _; apply keeps_bind; [| intros; apply keeps_ret].
  apply keeps_Promise_all, Forall_forall; intros call Hc.
  apply in_map_iff in Hc; destruct Hc as (customer & <- & Hu).
  apply keeps_client_sql, H; right; right; exists customer.
  split; [exact Hu | reflexivity].
Qed.

Lemma seedInvoices_keeps (P : Session -> Prop) :
  (forall s, invoices_stmt invoices s -> pg_keeps P s) ->
  keeps P (seedInvoices invoices).
Proof.
  intros H; unfold seedInvoices.
  apply keeps_bind; [apply keeps_client_sql, H; left; reflexivity |].
  intros _; apply keeps_bind;
    [apply keeps_client_sql, H; right; left; reflexivity |].
  intros _; apply keeps_bind; [| intros; apply keeps_ret].
  apply keeps_Promise_all, Forall_forall; intros call Hc.
  apply in_map_iff in Hc; destruct Hc as (invoice & <- & Hu).
  apply keeps_client_sql, H; right; right; exists invoice.
  split; [exact Hu | reflexivity].
Qed.

Lemma seedRevenue_keeps (P : Session -> Prop) :
  (forall s, revenue_stmt revenue s -> pg_keeps P s) ->
  keeps P (seedRevenue revenue).
Proof.
  intros H; unfold seedRevenue.
  apply keeps_bind; [apply keeps_client_sql, H; left; reflexivity |].
  intros _; apply keeps_bind; [| intros; apply keeps_ret].
  apply keeps_Promise_all, Forall_forall; intros call Hc.
  apply in_map_iff in Hc; destruct Hc as (rev & <- & Hu).
  apply keeps_client_sql, H; right; exists rev.
  split; [exact Hu | reflexivity].
Qed.

Lemma seeding_stmt_not_tx_control s :
  seeding_stmt users customers invoices revenue s -> is_tx_control s = false.
Proof.
  intros [[-> | [-> | (? & ? & _ & ->)]]
         | [[-> | [-> | (? & _ & ->)]]
         | [[-> | [-> | (? & _ & ->)]]
         | [-> | (? & _ & ->)]]]]; reflexivity.
Qed.


(** *** The [try] block is its steps in sequence *)

Lemma GET_try_steps w :
  GET_try users customers invoices revenue w =
    (in_sequence (GET_steps users customers invoices revenue) ;;
     ret (Response_json (message_body "Database seeded successfully") 200)) w.
Proof.
  unfold GET_try, GET_steps, in_sequence, void, bind, ret.
  destruct (client_sql BEGIN w) as [[? | ?] w0]; [| reflexivity].
  destruct (seedUsers users w0) as [[? | ?] w1]; [| reflexivity].
  destruct (seedCustomers customers w1) as [[? | ?] w2]; [| reflexivity].
  destruct (seedInvoices invoices w2) as [[? | ?] w3]; [| reflexivity].
  destruct (seedRevenue revenue w3) as [[? | ?] w4]; [| reflexivity].
  destruct (client_sql COMMIT w4) as [[? | ?] w5]; reflexivity.
Qed.

Lemma GET_try_all_succeed w w' :
  all_succeed (GET_steps users customers invoices revenue) w w' ->
  GET_try users customers invoices revenue w =
    (Normal (Response_json (message_body "Database seeded successfully") 200),
     w').
Proof.
  unfold all_succeed; intros H; rewrite GET_try_steps.
  rewrite (bind_normal _ _ _ _ _ H); reflexivity.
Qed.

Lemma GET_try_fails_at w e w' :
  fails_at (GET_steps users customers invoices revenue) w e w' ->
  GET_try users customers invoices revenue w = (Thrown e, w').
Proof.
  intros H; rewrite GET_try_steps.
  apply bind_thrown, fails_at_thrown; exact H.
Qed.

End RouteFacts.

(** ** Responses, rollback and rejection *)

Section Outcomes.
Context {server : PgServer} {bcrypt : Bcrypt}.
Variable users : list User.t.
Variable customers : list Customer.t.
Variable invoices : list Invoice.t.
Variable revenue : list Revenue.t.

Local Abbreviation steps := (GET_steps users customers invoices revenue).
Local Abbreviation GET' := (GET users customers invoices revenue).

Lemma GET_when_try_throws w e w1 :
  fails_at steps w e w1 -> GET' w = GET_catch e w1.
Proof.
  intros H; unfold GET, try_catch.
  rewrite (GET_try_fails_at _ _ _ _ _ _ _ H); reflexivity.
Qed.

Lemma GET_when_rollback_completes w e w1 q w2 :
  fails_at steps w e w1 ->
  client_sql ROLLBACK w1 = (Normal q, w2) ->
  GET' w = (Normal (Response_json (error_body e) 500), w2).
Proof.
  intros Hf Hr; rewrite (GET_when_try_throws _ _ _ Hf).
  unfold GET_catch; rewrite (bind_normal _ _ _ _ _ Hr); reflexivity.
Qed.

(** C3 (as amended).  When [BEGIN], the four seeding steps and [COMMIT]
    all complete, [GET] answers with the JSON object
    [{ message: "Database seeded successfully" }] and status 200.  When
    one of them throws and the [ROLLBACK] of the [catch] block completes,
    [GET] answers with [{ error }], carrying the error thrown, and
    status 500. *)
Theorem GET_response_by_outcome (w : World) :
  (forall w',
     all_succeed steps w w' ->
     GET' w =
       (Normal
          (Response_json (message_body "Database seeded successfully") 200),
        w')) /\
  (forall e w1 q w2,
     fails_at steps w e w1 ->
     client_sql ROLLBACK w1 = (Normal q, w2) ->
     GET' w = (Normal (Response_json (error_body e) 500), w2)).
Proof.
  split.
  - intros w' H; unfold GET, try_catch.
    rewrite (GET_try_all_succeed _ _ _ _ _ _ H); reflexivity.
  - intros e w1 q w2; apply GET_when_rollback_completes.
Qed.

(** C10.  When a step of the [try] block throws and the [ROLLBACK] of the
    [catch] block throws as well, [GET] returns no response: it rejects
    with what the [ROLLBACK] threw. *)
Theorem GET_rejects_when_rollback_throws (w : World) e w1 e' w2 :
  fails_at steps w e w1 ->
  client_sql ROLLBACK w1 = (Thrown e', w2) ->
  GET' w = (Thrown e', w2) /\ forall r w', GET' w <> (Normal r, w').
Proof.
  intros Hf Hr.
  assert (HG : GET' w = (Thrown e', w2)).
  { rewrite (GET_when_try_throws _ _ _ Hf).
    unfold GET_catch; apply bind_thrown; exact Hr. }
  split; [exact HG |].
  intros r w' H; rewrite HG in H; discriminate H.
Qed.



End Outcomes.

(** ** The outcomes on the one-row fixture *)

Lemma GET_response_by_outcome_witness :
  (exists w',
     GET [one_user] [one_customer] [one_invoice] [one_revenue]
       (fresh_world []) =
     (Normal
        (Response_json (message_body "Database seeded successfully") 200),
      w')) /\
  (exists w2,
     GET [one_user] [one_customer] [one_invoice] [long_month]
       (fresh_world []) =
     (Normal
        (Response_json
           (error_body (string_data_right_truncation "month")) 500),
      w2)).
Proof.
  split.
  - eexists.
    apply (proj1 (GET_response_by_outcome [one_user] [one_customer]
                    [one_invoice] [one_revenue] (fresh_world []))).
    vm_compute; reflexivity.
  - eexists.
    eapply (proj2 (GET_response_by_outcome [one_user] [one_customer]
                     [one_invoice] [long_month] (fresh_world []))).
    + apply thrown_fails_at; vm_compute; reflexivity.
    + vm_compute; reflexivity.
Defined.

(** C3 as stated fails.  The link carries [BEGIN] and then drops: the
    first statement of [seedUsers] throws, the [ROLLBACK] throws, and
    [GET] rejects where the claim promises the [{ error }] response with
    status 500. *)
Lemma GET_step_throws_without_response :
  let w := fresh_world [false; true; true] in
  (exists w0 w1,
     client_sql BEGIN w = (Normal None, w0) /\
     seedUsers [one_user] w0 = (Thrown connection_failure, w1)) /\
  fst (GET [one_user] [one_customer] [one_invoice] [one_revenue] w) =
    Thrown connection_failure /\
  forall r w',
    GET [one_user] [one_customer] [one_invoice] [one_revenue] w <>
    (Normal r, w').
Proof.
  split; [| split].
  - eexists _, _; split; vm_compute; reflexivity.
  - vm_compute; reflexivity.
  - intros r w'; vm_compute; discriminate.
Qed.

Lemma GET_rejects_when_rollback_throws_witness :
  exists w2,
    GET [one_user] [one_customer] [one_invoice] [one_revenue]
      (fresh_world [false; false; true; true]) =
    (Thrown connection_failure, w2).
Proof.
  eexists.
  edestruct (GET_rejects_when_rollback_throws [one_user] [one_customer]
               [one_invoice] [one_revenue]
               (fresh_world [false; false; true; true])) as [HG _];
    [| | exact HG].
  - apply thrown_fails_at; vm_compute; reflexivity.
  - vm_compute; reflexivity.
Defined.



(** ** What goes on the wire, and in which order *)

Lemma emits_ret {A : Type} (a : A) w : emits_at (ret a) w [].
Proof.
  exists [], []; split; [reflexivity | split].
  - simpl; rewrite app_nil_r; reflexivity.
  - reflexivity.
Qed.

Lemma emits_bind {A B : Type} (m : Js A) (k : A -> Js B) w l1 l2 :
  emits_at m w l1 ->
  (forall a w1, m w = (Normal a, w1) -> emits_at (k a) w1 l2) ->
  emits_at (bind m k) w (l1 ++ l2).
Proof.
  intros (sent & rest & -> & Hw & Hn) Hk; unfold emits_at, bind.
  destruct (m w) as [[a | e] w1] eqn:Hm; simpl in *.
  - rewrite (Hn a eq_refl), app_nil_r in *.
    destruct (Hk a w1 eq_refl) as (sent2 & rest2 & -> & Hw2 & Hn2).
    exists (sent ++ sent2), rest2; repeat split.
    + rewrite app_assoc; reflexivity.
    + rewrite Hw2, Hw, app_assoc; reflexivity.
    + exact Hn2.
  - exists sent, (rest ++ l2); repeat split.
    + rewrite app_assoc; reflexivity.
    + exact Hw.
    + intros a H; discriminate H.
Qed.

Lemma emits_bind_ret {A B : Type} (m : Js A) (f : A -> B) w l :
  emits_at m w l -> emits_at (bind m (fun a => ret (f a))) w l.
Proof.
  intros H; rewrite <- (app_nil_r l).
  apply emits_bind; [exact H | intros; apply emits_ret].
Qed.

Lemma emits_void {A : Type} (m : Js A) w l :
  emits_at m w l -> emits_at (void m) w l.
Proof. apply emits_bind_ret. Qed.

Section Wire.
Context {server : PgServer} {bcrypt : Bcrypt}.
Variable users : list User.t.
Variable customers : list Customer.t.
Variable invoices : list Invoice.t.
Variable revenue : list Revenue.t.

Lemma emits_client_sql s w : emits_at (client_sql s) w [s].
Proof.
  exists [s], []; split; [reflexivity | split].
  - apply client_sql_wire.
  - reflexivity.
Qed.

(** A batch of statements goes on the wire whole, in the order of the
    list, whatever fails. *)
Lemma Promise_all_wire {A : Type} (g : A -> Stmt) (l : list A) w :
  wire (snd (Promise_all (map (fun x => client_sql (g x)) l) w)) =
  wire w ++ map g l.
Proof.
  revert w; induction l as [| x l IH]; intros w; simpl.
  - rewrite app_nil_r; reflexivity.
  - pose proof (client_sql_wire (g x) w) as Hx.
    destruct (client_sql (g x) w) as [c w1]; simpl in Hx.
    specialize (IH w1).
    destruct (Promise_all (map (fun x => client_sql (g x)) l) w1) as [cs w2].
    simpl in *; rewrite IH, Hx, <- app_assoc; reflexivity.
Qed.

Lemma emits_Promise_all {A : Type} (g : A -> Stmt) (l : list A) w :
  emits_at (Promise_all (map (fun x => client_sql (g x)) l)) w (map g l).
Proof.
  exists (map g l), []; split; [| split].
  - rewrite app_nil_r; reflexivity.
  - apply Promise_all_wire.
  - reflexivity.
Qed.

(** The batch of [seedUsers]: one salt per user, in the order of the
    list. *)
Lemma users_batch_wire (l : list User.t) w :
  wire
    (snd
       (Promise_all
          (map (fun user =>
                  hashedPassword <- bcrypt_hash (User.password user) 10 ;;
                  client_sql
                    (INSERT_users (User.id user) (User.name user)
                       (User.email user) hashedPassword))
             l) w)) =
  wire w ++ users_inserts (salt_seq w) l.
Proof.
  revert w; induction l as [| user l IH]; intros w; simpl.
  - rewrite app_nil_r; reflexivity.
  - unfold bind at 1, bcrypt_hash at 1.
    match goal with
    | |- context [client_sql ?s ?w0] =>
        pose proof (client_sql_wire s w0) as Hx;
        pose proof (client_sql_salt s w0) as Hs;
        destruct (client_sql s w0) as [c w1]
    end.
    simpl in Hx, Hs; specialize (IH w1).
    match goal with
    | |- context [Promise_all ?calls w1] =>
        destruct (Promise_all calls w1) as [cs w2]
    end.
    simpl in *; rewrite IH, Hx, Hs, <- app_assoc; reflexivity.
Qed.

Lemma emits_seedUsers w :
  emits_at (seedUsers users) w (seedUsers_stmts users (salt_seq w)).
Proof.
  unfold seedUsers, seedUsers_stmts.
  apply (emits_bind _ _ _ [_] _ (emits_client_sql _ _)); intros q0 w0 H0.
  apply (emits_bind _ _ _ [_] _ (emits_client_sql _ _)); intros q1 w1 H1.
  apply (emits_bind_ret _ (fun r => r)).
  exists (users_inserts (salt_seq w) users), []; split; [| split].
  - rewrite app_nil_r; reflexivity.
  - rewrite users_batch_wire.
    pose proof (client_sql_salt CREATE_EXTENSION_uuid_ossp w) as S0.
    pose proof (client_sql_salt CREATE_TABLE_users w0) as S1.
    rewrite H0 in S0; rewrite H1 in S1; simpl in S0, S1.
    rewrite S1, S0; reflexivity.
  - reflexivity.
Qed.

Lemma emits_seedCustomers w :
  emits_at (seedCustomers customers) w (seedCustomers_stmts customers).
Proof.
  unfold seedCustomers, seedCustomers_stmts.
  apply (emits_bind _ _ _ [_] _ (emits_client_sql _ _)); intros q0 w0 H0.
  apply (emits_bind _ _ _ [_] _ (emits_client_sql _ _)); intros q1 w1 H1.
  apply (emits_bind_ret _ (fun r => r)).
  apply (emits_Promise_all
           (fun customer =>
              INSERT_customers (Customer.id customer)
                (Customer.name customer) (Customer.email customer)
                (Customer.image_url customer))).
Qed.

Lemma emits_seedInvoices w :
  emits_at (seedInvoices invoices) w (seedInvoices_stmts invoices).
Proof.
  unfold seedInvoices, seedInvoices_stmts.
  apply (emits_bind _ _ _ [_] _ (emits_client_sql _ _)); intros q0 w0 H0.
  apply (emits_bind _ _ _ [_] _ (emits_client_sql _ _)); intros q1 w1 H1.
  apply (emits_bind_ret _ (fun r => r)).
  apply (emits_Promise_all
           (fun invoice =>
              INSERT_invoices (Invoice.customer_id invoice)
                (Invoice.amount invoice)
                (status_text (Invoice.status invoice))
                (Invoice.date invoice))).
Qed.

Lemma emits_seedRevenue w :
  emits_at (seedRevenue revenue) w (seedRevenue_stmts revenue).
Proof.
  unfold seedRevenue, seedRevenue_stmts.
  apply (emits_bind _ _ _ [_] _ (emits_client_sql _ _)); intros q0 w0 H0.
  apply (emits_bind_ret _ (fun r => r)).
  apply (emits_Promise_all
           (fun rev =>
              INSERT_revenue (Revenue.month rev) (Revenue.revenue rev))).
Qed.

Lemma emits_GET_try w :
  emits_at (GET_try users customers invoices revenue) w
    (GET_stmts users customers invoices revenue (salt_seq w)).
Proof.
  unfold GET_try, GET_stmts.
  apply (emits_bind _ _ _ [_] _ (emits_client_sql _ _)); intros q0 w0 H0.
  pose proof (client_sql_salt BEGIN w) as S0; rewrite H0 in S0; simpl in S0.
  rewrite <- S0.
  apply emits_bind; [apply emits_seedUsers | intros r1 w1 _].
  apply emits_bind; [apply emits_seedCustomers | intros r2 w2 _].
  apply emits_bind; [apply emits_seedInvoices | intros r3 w3 _].
  apply emits_bind; [apply emits_seedRevenue | intros r4 w4 _].
  apply (emits_bind_ret _ (fun _ => _)), emits_client_sql.
Qed.


End Wire.

(** ** Rows the route stores *)

Lemma keeps_try_catch {A : Type} (P : Session -> Prop) (body : Js A)
  (handler : SqlError -> Js A) :
  keeps P body -> (forall e, keeps P (handler e)) ->
  keeps P (try_catch body handler).
Proof.
  intros Hb Hh w H; unfold try_catch.
  specialize (Hb w H); destruct (body w) as [[a | e] w1]; simpl in Hb.
  - exact Hb.
  - apply Hh; exact Hb.
Qed.

Section Stored.
Context {server : PgServer} {bcrypt : Bcrypt}.
Variable users : list User.t.
Variable customers : list Customer.t.
Variable invoices : list Invoice.t.
Variable revenue : list Revenue.t.

Local Abbreviation GET' := (GET users customers invoices revenue).
Local Abbreviation seeding := (seeding_stmt users customers invoices revenue).

Lemma GET_keeps (P : Session -> Prop) :
  (forall s, seeding s -> pg_keeps P s) ->
  pg_keeps P BEGIN -> pg_keeps P COMMIT -> pg_keeps P ROLLBACK ->
  keeps P GET'.
Proof.
  intros Hs Hb Hc Hr; apply keeps_try_catch.
  - unfold GET_try.
    apply keeps_bind; [apply keeps_client_sql, Hb | intros _].
    apply keeps_bind;
      [apply seedUsers_keeps; intros s H; apply Hs; left; exact H
      | intros _].
    apply keeps_bind;
      [apply seedCustomers_keeps; intros s H; apply Hs; right; left; exact H
      | intros _].
    apply keeps_bind;
      [apply seedInvoices_keeps; intros s H; apply Hs; right; right; left;
       exact H
      | intros _].
    apply keeps_bind;
      [apply seedRevenue_keeps; intros s H; apply Hs; right; right; right;
       exact H
      | intros _].
    apply keeps_bind; [apply keeps_client_sql, Hc | intros _].
    apply keeps_ret.
  - intros e; unfold GET_catch.
    apply keeps_bind; [apply keeps_client_sql, Hr | intros _].
    apply keeps_ret.
Qed.

(** A property of the tables that every seeding statement keeps holds
    after [GET], whatever the outcome, when it holds before on a
    connection with no transaction open. *)
Lemma GET_keeps_tables (D : Database -> Prop) w :
  (forall s d n d' n' r,
     seeding s -> apply_stmt s d n = inr (d', n', r) -> D d -> D d') ->
  tx (session w) = Idle ->
  D (data (session w)) ->
  D (data (session (snd (GET' w)))).
Proof.
  intros H Hi Hd.
  apply (GET_keeps (holds_throughout D)).
  - intros s Hs; apply pg_keeps_holds_throughout.
    intros; eapply H; eassumption.
  - apply pg_keeps_holds_throughout; intros ? ? ? ? ? E; inversion E; auto.
  - apply pg_keeps_holds_throughout; intros ? ? ? ? ? E; inversion E; auto.
  - apply pg_keeps_holds_throughout; intros ? ? ? ? ? E; inversion E; auto.
  - split; [exact Hd |].
    unfold snapshot; rewrite Hi; intros d E; discriminate E.
Qed.

(** The invoice inserts among the seeding statements come from the
    invoice fixture. *)
Lemma seeding_INSERT_invoices customer_id amount status date :
  seeding (INSERT_invoices customer_id amount status date) ->
  exists invoice,
    In invoice invoices /\
    customer_id = Invoice.customer_id invoice /\
    amount = Invoice.amount invoice /\
    status = status_text (Invoice.status invoice) /\
    date = Invoice.date invoice.
Proof.
  intros [[H | [H | (? & ? & _ & H)]]
         | [[H | [H | (? & _ & H)]]
         | [[H | [H | (invoice & Hin & H)]]
         | [H | (? & _ & H)]]]]; try discriminate H.
  inversion H; subst; exists invoice; repeat split; exact Hin.
Qed.

(** The user inserts among the seeding statements come from the user
    fixture and carry a digest of ten rounds in place of the password. *)
Lemma seeding_INSERT_users id name email password :
  seeding (INSERT_users id name email password) ->
  exists user salt,
    In user users /\
    id = User.id user /\
    name = User.name user /\
    email = User.email user /\
    password = bcrypt_hash_with salt (User.password user) 10.
Proof.
  intros [[H | [H | (user & salt & Hin & H)]]
         | [[H | [H | (? & _ & H)]]
         | [[H | [H | (? & _ & H)]]
         | [H | (? & _ & H)]]]]; try discriminate H.
  inversion H; subst; exists user, salt; repeat split; exact Hin.
Qed.

Lemma seeding_INSERT_customers id name email image_url :
  seeding (INSERT_customers id name email image_url) ->
  exists customer,
    In customer customers /\
    id = Customer.id customer /\
    name = Customer.name customer /\
    email = Customer.email customer /\
    image_url = Customer.image_url customer.
Proof.
  intros [[H | [H | (? & ? & _ & H)]]
         | [[H | [H | (customer & Hin & H)]]
         | [[H | [H | (? & _ & H)]]
         | [H | (? & _ & H)]]]]; try discriminate H.
  inversion H; subst; exists customer; repeat split; exact Hin.
Qed.

(** The text of a status is stored as it is. *)
Lemma invoices_row_in_status generated customer_id amount st date row :
  invoices_row_in generated customer_id amount (status_text st) date =
    inr row ->
  InvoicesRow.id row = generated /\
  uuid_in customer_id = Some (InvoicesRow.customer_id row) /\
  InvoicesRow.status row = status_text st.
Proof.
  unfold invoices_row_in, and_then, of_option.
  destruct (uuid_in customer_id); [| discriminate].
  destruct (int4_in "amount" amount); [discriminate |].
  assert (Hv : varchar_in 255 "status" (status_text st) = inr (status_text st))
    by (destruct st; reflexivity).
  rewrite Hv.
  destruct (date_in date); [| discriminate].
  intros H; inversion H; subst; repeat split.
Qed.

(** The password given to the statement is stored as it is. *)
Lemma users_row_in_password id name email password row :
  users_row_in id name email password = inr row ->
  uuid_in id = Some (UsersRow.id row) /\ UsersRow.password row = password.
Proof.
  unfold users_row_in, and_then, of_option, text_in.
  destruct (uuid_in id); [| discriminate].
  destruct (varchar_in 255 "name" name); [discriminate |].
  destruct (has_nul email); [discriminate |].
  destruct (has_nul password); [discriminate |].
  intros H; inversion H; subst; split; reflexivity.
Qed.

(** C8.  After an invocation of [GET] on a connection with no
    transaction open, every row of the invoices table that the invocation
    put there has a status that is exactly ['pending'] or ['paid']. *)
Theorem seeded_invoice_status (w : World) (row : InvoicesRow.t) :
  tx (session w) = Idle ->
  In row (rows (t_invoices (data (session (snd (GET' w)))))) ->
  In row (rows (t_invoices (data (session w)))) \/
  InvoicesRow.status row = "pending" \/ InvoicesRow.status row = "paid".
Proof.
  intros Hi.
  set (before := rows (t_invoices (data (session w)))).
  revert row.
  apply (GET_keeps_tables
           (fun d => forall row, In row (rows (t_invoices d)) ->
              In row before \/
              InvoicesRow.status row = "pending" \/
              InvoicesRow.status row = "paid"));
    [| exact Hi | intros row H; left; exact H].
  intros s d n d' n' r Hs Ha Hd row Hrow.
  destruct (apply_stmt_invoices _ _ _ _ _ _ Ha)
    as [E | (cid & amt & st & date & new & -> & Hnew & E)];
    rewrite E in Hrow.
  - apply Hd; exact Hrow.
  - apply in_app_or in Hrow; destruct Hrow as [Hrow | [<- | []]].
    + apply Hd; exact Hrow.
    + destruct (seeding_INSERT_invoices _ _ _ _ Hs)
        as (invoice & _ & _ & _ & -> & _).
      apply invoices_row_in_status in Hnew; destruct Hnew as (_ & _ & ->).
      right; destruct (Invoice.status invoice); [left | right]; reflexivity.
Qed.

(** C4.  With a hashing library whose check accepts the digests it
    makes and whose ten-round digest of a value is never that value,
    every row of the users table that an invocation of [GET] put there
    holds, for a user of the fixture, the ten-round salted digest of the
    user's password, made before the insert: a value that differs from
    the password and that the check accepts for it. *)
Theorem seeded_password_is_hashed
  (Hcheck : forall salt data,
     bcrypt_compare data (bcrypt_hash_with salt data 10) = true)
  (Hdiffer : forall salt data, bcrypt_hash_with salt data 10 <> data)
  (w : World) (row : UsersRow.t) :
  tx (session w) = Idle ->
  In row (rows (t_users (data (session (snd (GET' w)))))) ->
  In row (rows (t_users (data (session w)))) \/
  exists user salt,
    In user users /\
    uuid_in (User.id user) = Some (UsersRow.id row) /\
    UsersRow.password row = bcrypt_hash_with salt (User.password user) 10 /\
    UsersRow.password row <> User.password user /\
    bcrypt_compare (User.password user) (UsersRow.password row) = true.
Proof.
  intros Hi.
  set (before := rows (t_users (data (session w)))).
  revert row.
  apply (GET_keeps_tables
           (fun d => forall row, In row (rows (t_users d)) ->
              In row before \/
              exists user salt,
                In user users /\
                uuid_in (User.id user) = Some (UsersRow.id row) /\
                UsersRow.password row =
                  bcrypt_hash_with salt (User.password user) 10 /\
                UsersRow.password row <> User.password user /\
                bcrypt_compare (User.password user) (UsersRow.password row)
                  = true));
    [| exact Hi | intros row H; left; exact H].
  intros s d n d' n' r Hs Ha Hd row Hrow.
  destruct (apply_stmt_users _ _ _ _ _ _ Ha)
    as [E | (id & name & email & pw & new & -> & Hnew & E)];
    rewrite E in Hrow.
  - apply Hd; exact Hrow.
  - apply in_app_or in Hrow; destruct Hrow as [Hrow | [<- | []]].
    + apply Hd; exact Hrow.
    + destruct (seeding_INSERT_users _ _ _ _ Hs)
        as (user & salt & Hin & -> & _ & _ & ->).
      apply users_row_in_password in Hnew; destruct Hnew as [Hid Hpw].
      right; exists user, salt; rewrite Hpw; repeat split.
      * exact Hin.
      * exact Hid.
      * apply Hdiffer.
      * apply Hcheck.
Qed.

End Stored.

(** ** Conflicts *)

Section Conflicts.
Context {server : PgServer}.

Lemma pg_exec_accepting s p :
  is_tx_control s = false -> accepting p ->
  pg_exec s p =
    match apply_stmt s (data p) (uuid_seq p) with
    | inr (d, n, r) => (inr r, mkSession d (tx p) n)
    | inl e => (inl e, mkSession (data p) (fail_tx (tx p)) (uuid_seq p))
    end.
Proof.
  intros Hc Ha; rewrite (pg_exec_data_stmt _ _ Hc).
  destruct (tx p) eqn:Ht; try reflexivity.
  exfalso; eapply Ha; exact Ht.
Qed.

Lemma session_eta p : mkSession (data p) (tx p) (uuid_seq p) = p.
Proof. destruct p; reflexivity. Qed.

(** C5 (as amended).  For every insert a seeding group issues, outside a
    failed transaction block, with values the columns accept: a conflict
    on the column its [ON CONFLICT] clause names (the [id] of a user, of
    a customer, of an invoice, the [month] of a revenue row) is
    suppressed.  The statement completes with row count 0 and no error,
    and no table changes. *)
Theorem conflict_on_target_is_skipped (p : Session) :
  accepting p ->
  (forall id name email password row,
     users_row_in id name email password = inr row ->
     In (UsersRow.id row) (map UsersRow.id (rows (t_users (data p)))) ->
     pg_exec (INSERT_users id name email password) p = (inr (Some 0), p)) /\
  (forall id name email image_url row,
     customers_row_in id name email image_url = inr row ->
     In (CustomersRow.id row)
       (map CustomersRow.id (rows (t_customers (data p)))) ->
     pg_exec (INSERT_customers id name email image_url) p
     = (inr (Some 0), p)) /\
  (forall customer_id amount status date row,
     invoices_row_in (uuid_generate_v4 (uuid_seq p)) customer_id amount
       status date = inr row ->
     In (InvoicesRow.id row)
       (map InvoicesRow.id (rows (t_invoices (data p)))) ->
     pg_exec (INSERT_invoices customer_id amount status date) p
     = (inr (Some 0), with_data p (data p) (S (uuid_seq p)))) /\
  (forall month revenue row,
     revenue_row_in month revenue = inr row ->
     In (RevenueRow.month row)
       (map RevenueRow.month (rows (t_revenue (data p)))) ->
     pg_exec (INSERT_revenue month revenue) p = (inr (Some 0), p)).
Proof.
  intros Ha; repeat split.
  - intros id name email password row Hrow Hin.
    rewrite (pg_exec_accepting (INSERT_users id name email password) p
               eq_refl Ha); simpl.
    unfold insert_users.
    destruct (t_users (data p)) as [l |]; [| destruct Hin]; simpl in Hin.
    rewrite Hrow; simpl.
    apply existsb_eqb_In in Hin; rewrite Hin; simpl.
    rewrite session_eta; reflexivity.
  - intros id name email image_url row Hrow Hin.
    rewrite (pg_exec_accepting (INSERT_customers id name email image_url) p
               eq_refl Ha); simpl.
    unfold insert_customers.
    destruct (t_customers (data p)) as [l |]; [| destruct Hin]; simpl in Hin.
    rewrite Hrow; simpl.
    apply existsb_eqb_In in Hin; rewrite Hin; simpl.
    rewrite session_eta; reflexivity.
  - intros customer_id amount status date row Hrow Hin.
    rewrite (pg_exec_accepting
               (INSERT_invoices customer_id amount status date) p
               eq_refl Ha); simpl.
    unfold insert_invoices.
    destruct (t_invoices (data p)) as [l |]; [| destruct Hin]; simpl in Hin.
    rewrite Hrow; simpl.
    apply existsb_eqb_In in Hin; rewrite Hin; simpl.
    reflexivity.
  - intros month revenue row Hrow Hin.
    rewrite (pg_exec_accepting (INSERT_revenue month revenue) p
               eq_refl Ha); simpl.
    unfold insert_revenue.
    destruct (t_revenue (data p)) as [l |]; [| destruct Hin]; simpl in Hin.
    rewrite Hrow; simpl.
    apply existsb_eqb_In in Hin; rewrite Hin; simpl.
    rewrite session_eta; reflexivity.
Qed.

(** An invoice insert whose generated identifier is not in the table
    stores its row, whatever the table holds. *)
Lemma insert_invoices_fresh customer_id amount status date row p :
  accepting p ->
  invoices_row_in (uuid_generate_v4 (uuid_seq p)) customer_id amount status
    date = inr row ->
  ~ In (uuid_generate_v4 (uuid_seq p))
      (map InvoicesRow.id (rows (t_invoices (data p)))) ->
  t_invoices (data p) <> None ->
  pg_exec (INSERT_invoices customer_id amount status date) p =
  (inr (Some 1),
   with_data p
     (with_invoices (data p) (rows (t_invoices (data p)) ++ [row]))
     (S (uuid_seq p))).
Proof.
  intros Ha Hrow Hfresh Htbl.
  rewrite (pg_exec_accepting (INSERT_invoices customer_id amount status date)
             p eq_refl Ha); simpl.
  unfold insert_invoices.
  destruct (t_invoices (data p)) as [l |]; [| contradiction]; simpl in *.
  rewrite Hrow; simpl.
  assert (Hid : InvoicesRow.id row = uuid_generate_v4 (uuid_seq p)).
  { revert Hrow; unfold invoices_row_in, and_then, of_option.
    destruct (uuid_in customer_id); [| discriminate].
    destruct (int4_in "amount" amount); [discriminate |].
    destruct (varchar_in 255 "status" status); [discriminate |].
    destruct (date_in date); [| discriminate].
    intros H; inversion H; reflexivity. }
  rewrite Hid.
  apply existsb_eqb_not_In in Hfresh; rewrite Hfresh; reflexivity.
Qed.

End Conflicts.

(** ** The identifiers of invoices *)

Section InvoiceIds.
Context {server : PgServer} {bcrypt : Bcrypt}.
Variable users : list User.t.
Variable customers : list Customer.t.
Variable invoices : list Invoice.t.
Variable revenue : list Revenue.t.

Lemma seedInvoices_written_fields (others : list Invoice.t) :
  map written_fields others = map written_fields invoices ->
  seedInvoices others = seedInvoices invoices.
Proof.
  intros H; unfold seedInvoices.
  assert (E : forall l,
    map (fun invoice =>
           client_sql
             (INSERT_invoices (Invoice.customer_id invoice)
                (Invoice.amount invoice)
                (status_text (Invoice.status invoice))
                (Invoice.date invoice))) l =
    map (fun f : string * Z * InvoiceStatus * string =>
           client_sql
             (INSERT_invoices (fst (fst (fst f))) (snd (fst (fst f)))
                (status_text (snd (fst f))) (snd f)))
      (map written_fields l))
    by (intros l; rewrite map_map; reflexivity).
  rewrite (E others), (E invoices), H; reflexivity.
Qed.

(** C9.  [seedInvoices] never writes the [id] of a fixture invoice: two
    fixtures that agree on [customer_id], [amount], [status] and [date]
    make [GET] do the same.  Every invoice row an invocation stores has
    an identifier handed out by the generator of the database.  And the
    conflict clause only ever compares that generated identifier: as
    long as the generator hands out an identifier that is not in the
    table, the insert stores its row, also when the same fixture invoice
    was seeded before. *)
Theorem invoice_ids_are_generated :
  (forall others w,
     map written_fields others = map written_fields invoices ->
     GET users customers others revenue w =
     GET users customers invoices revenue w) /\
  (forall w row,
     tx (session w) = Idle ->
     In row
       (rows
          (t_invoices
             (data (session (snd (GET users customers invoices revenue w))))))
     ->
     In row (rows (t_invoices (data (session w)))) \/
     exists n, InvoicesRow.id row = uuid_generate_v4 n) /\
  (forall p customer_id amount status date row,
     accepting p ->
     t_invoices (data p) <> None ->
     invoices_row_in (uuid_generate_v4 (uuid_seq p)) customer_id amount
       status date = inr row ->
     ~ In (uuid_generate_v4 (uuid_seq p))
         (map InvoicesRow.id (rows (t_invoices (data p)))) ->
     pg_exec (INSERT_invoices customer_id amount status date) p =
     (inr (Some 1),
      with_data p
        (with_invoices (data p) (rows (t_invoices (data p)) ++ [row]))
        (S (uuid_seq p)))).
Proof.
  split; [| split].
  - intros others w H; unfold GET, GET_try.
    rewrite (seedInvoices_written_fields others H); reflexivity.
  - intros w row Hi.
    set (before := rows (t_invoices (data (session w)))).
    revert row.
    apply (GET_keeps_tables users customers invoices revenue
             (fun d => forall row, In row (rows (t_invoices d)) ->
                In row before \/
                exists n, InvoicesRow.id row = uuid_generate_v4 n));
      [| exact Hi | intros row H; left; exact H].
    intros s d n d' n' r Hs Ha Hd row Hrow.
    destruct (apply_stmt_invoices _ _ _ _ _ _ Ha)
      as [E | (cid & amt & st & date & new & -> & Hnew & E)];
      rewrite E in Hrow.
    + apply Hd; exact Hrow.
    + apply in_app_or in Hrow; destruct Hrow as [Hrow | [<- | []]].
      * apply Hd; exact Hrow.
      * destruct (seeding_INSERT_invoices _ _ _ _ _ _ _ _ Hs)
          as (invoice & _ & _ & _ & -> & _).
        apply invoices_row_in_status in Hnew; destruct Hnew as (Hid & _).
        right; exists n; exact Hid.
  - intros p customer_id amount status date row Ha Htbl Hrow Hfresh.
    apply insert_invoices_fresh; assumption.
Qed.

End InvoiceIds.

(** ** Runs in which nothing throws *)

Lemma Promise_all_normal_inv {A : Type} (call : Js A) (rest : list (Js A))
  w l w' :
  Promise_all (call :: rest) w = (Normal l, w') ->
  exists a l' w1,
    call w = (Normal a, w1) /\
    Promise_all rest w1 = (Normal l', w') /\ l = a :: l'.
Proof.
  simpl; destruct (call w) as [[a | e] w1];
    destruct (Promise_all rest w1) as [[l' | e'] w2] eqn:Hrest; intros H;
    inversion H; subst.
  exists a, l', w1; split; [reflexivity | split; [exact Hrest | reflexivity]].
Qed.

Section NormalRuns.
Context {server : PgServer} {bcrypt : Bcrypt}.

Lemma client_sql_normal_inv s w q w' :
  client_sql s w = (Normal q, w') ->
  pg_exec s (session w) = (inr q, session w').
Proof.
  intros H.
  destruct (client_sql_session s w) as [[Hc _] | [Hs Hc]];
    rewrite H in *; cbn [fst snd] in *; [discriminate Hc |].
  destruct (pg_exec s (session w)) as [[e | q'] p']; cbn [fst snd] in *;
    inversion Hc; subst; reflexivity.
Qed.

(** A statement of a group that completes ran on the tables, in a
    block that accepts statements and still does. *)
Lemma pg_exec_normal_inv s p q p' :
  is_tx_control s = false ->
  pg_exec s p = (inr q, p') ->
  accepting p /\ accepting p' /\ tx p' = tx p /\
  apply_stmt s (data p) (uuid_seq p) = inr (data p', uuid_seq p', q).
Proof.
  intros Hc; rewrite (pg_exec_data_stmt _ _ Hc).
  destruct (tx p) as [| saved | saved] eqn:Ht; [| | discriminate];
    destruct (apply_stmt s (data p) (uuid_seq p)) as [e | [[d n] r]];
    intros H; inversion H; subst; simpl; rewrite ?Ht;
    repeat split; intros saved' E; try discriminate E;
    rewrite Ht in E; discriminate E.
Qed.

Lemma client_sql_normal_accepting s w q w' :
  is_tx_control s = false ->
  client_sql s w = (Normal q, w') -> accepting (session w').
Proof.
  intros Hc H; apply client_sql_normal_inv in H.
  apply (pg_exec_normal_inv _ _ _ _ Hc H).
Qed.

Lemma Promise_all_sql_accepting {A : Type} (g : A -> Stmt) (l : list A) :
  (forall x, is_tx_control (g x) = false) ->
  forall w r w',
    accepting (session w) ->
    Promise_all (map (fun x => client_sql (g x)) l) w = (Normal r, w') ->
    accepting (session w').
Proof.
  intros Hg; induction l as [| x l IH]; intros w r w' Ha H.
  - inversion H; subst; exact Ha.
  - apply Promise_all_normal_inv in H.
    destruct H as (a & l' & w1 & Hx & Hrest & _).
    eapply IH; [| exact Hrest].
    eapply client_sql_normal_accepting; [apply Hg | exact Hx].
Qed.

Lemma seedRevenue_normal_accepting revenue w r w' :
  seedRevenue revenue w = (Normal r, w') -> accepting (session w').
Proof.
  unfold seedRevenue; intros H.
  apply bind_normal_inv in H; destruct H as (q & w1 & H1 & H).
  apply bind_normal_inv in H; destruct H as (l & w2 & H2 & H).
  inversion H; subst.
  eapply (Promise_all_sql_accepting
            (fun rev =>
               INSERT_revenue (Revenue.month rev) (Revenue.revenue rev)));
    [reflexivity | | exact H2].
  eapply client_sql_normal_accepting; [| exact H1]; reflexivity.
Qed.

Lemma client_sql_BEGIN_data w q w' :
  client_sql BEGIN w = (Normal q, w') ->
  data (session w') = data (session w).
Proof.
  intros H; apply client_sql_normal_inv in H; revert H.
  unfold pg_exec; destruct (tx (session w)); intros H; inversion H;
    reflexivity.
Qed.

Lemma client_sql_COMMIT_data w q w' :
  accepting (session w) ->
  client_sql COMMIT w = (Normal q, w') ->
  data (session w') = data (session w) /\ tx (session w') = Idle.
Proof.
  intros Ha H; apply client_sql_normal_inv in H; revert H.
  unfold pg_exec; destruct (tx (session w)) eqn:Ht; intros H; inversion H;
    try (split; [reflexivity | assumption || reflexivity]).
  exfalso; eapply Ha; exact Ht.
Qed.

Lemma client_sql_COMMIT_uuid_seq w q w' :
  client_sql COMMIT w = (Normal q, w') ->
  uuid_seq (session w') = uuid_seq (session w).
Proof.
  intros H; apply client_sql_normal_inv in H; revert H.
  unfold pg_exec; destruct (tx (session w)); intros H; inversion H;
    reflexivity.
Qed.

(** A property of the tables as they are, kept by a statement of a
    group. *)
Lemma pg_keeps_data (D : Database -> Prop) s :
  is_tx_control s = false ->
  (forall d n d' n' r, apply_stmt s d n = inr (d', n', r) -> D d -> D d') ->
  pg_keeps (fun p => D (data p)) s.
Proof.
  intros Hc H p Hd; rewrite (pg_exec_data_stmt _ _ Hc).
  destruct (tx p); try exact Hd;
    destruct (apply_stmt s (data p) (uuid_seq p)) as [e | [[d n] r]] eqn:Ha;
    simpl; try exact Hd; eapply H; eassumption.
Qed.

End NormalRuns.

(** ** Invoices and their customers *)

Section References.
Context {server : PgServer} {bcrypt : Bcrypt}.
Variable users : list User.t.
Variable customers : list Customer.t.
Variable invoices : list Invoice.t.
Variable revenue : list Revenue.t.

Local Abbreviation seeding := (seeding_stmt users customers invoices revenue).

Lemma customers_row_in_id id name email image_url row :
  customers_row_in id name email image_url = inr row ->
  uuid_in id = Some (CustomersRow.id row).
Proof.
  unfold customers_row_in, and_then, of_option.
  destruct (uuid_in id); [| discriminate].
  destruct (varchar_in 255 "name" name); [discriminate |].
  destruct (varchar_in 255 "email" email); [discriminate |].
  destruct (varchar_in 255 "image_url" image_url); [discriminate |].
  intros H; inversion H; reflexivity.
Qed.

(** No statement removes a customer. *)
Lemma apply_stmt_has_customer s d n d' n' r k :
  apply_stmt s d n = inr (d', n', r) ->
  has_customer d k -> has_customer d' k.
Proof.
  unfold has_customer; intros Ha Hk.
  destruct (apply_stmt_customers _ _ _ _ _ _ Ha)
    as [E | (? & ? & ? & ? & row & _ & _ & E)]; rewrite E.
  - exact Hk.
  - rewrite map_app; apply in_or_app; left; exact Hk.
Qed.

(** A customer insert that completes leaves the customer stored. *)
Lemma insert_customer_normal customer w q w' :
  client_sql
    (INSERT_customers (Customer.id customer) (Customer.name customer)
       (Customer.email customer) (Customer.image_url customer)) w =
  (Normal q, w') ->
  (forall k, has_customer (data (session w)) k ->
             has_customer (data (session w')) k) /\
  exists k,
    uuid_in (Customer.id customer) = Some k /\
    has_customer (data (session w')) k.
Proof.
  intros H; apply client_sql_normal_inv in H.
  apply pg_exec_normal_inv in H; [| reflexivity].
  destruct H as (_ & _ & _ & Ha); split.
  - intros k; eapply apply_stmt_has_customer; exact Ha.
  - simpl in Ha; unfold inserted in Ha.
    destruct (insert_customers _ _ _ _ _) as [e | [d k]] eqn:Hins;
      inversion Ha; subst; clear Ha.
    apply insert_customers_inv in Hins.
    destruct Hins as (l & row & Hl & Hrow & Hcase).
    exists (CustomersRow.id row); split;
      [eapply customers_row_in_id; exact Hrow |].
    unfold has_customer.
    destruct Hcase as [(Hin & -> & _) | (_ & -> & _)].
    + rewrite Hl; exact Hin.
    + simpl; rewrite map_app; apply in_or_app; right; left; reflexivity.
Qed.

Lemma customers_batch_normal (l : list Customer.t) w r w' :
  Promise_all
    (map (fun customer =>
            client_sql
              (INSERT_customers (Customer.id customer)
                 (Customer.name customer) (Customer.email customer)
                 (Customer.image_url customer))) l) w = (Normal r, w') ->
  (forall k, has_customer (data (session w)) k ->
             has_customer (data (session w')) k) /\
  forall customer,
    In customer l ->
    exists k,
      uuid_in (Customer.id customer) = Some k /\
      has_customer (data (session w')) k.
Proof.
  revert w r; induction l as [| c l IH]; intros w r H.
  - inversion H; subst; split; [auto | intros ? []].
  - simpl in H; apply Promise_all_normal_inv in H.
    destruct H as (a & l' & w1 & Hc & Hrest & _).
    destruct (insert_customer_normal _ _ _ _ Hc) as [Hmono (k & Hk & Hin)].
    destruct (IH _ _ Hrest) as [Hmono' Hall]; split.
    + intros k' Hk'; apply Hmono', Hmono; exact Hk'.
    + intros customer [<- | Hl].
      * exists k; split; [exact Hk | apply Hmono'; exact Hin].
      * apply Hall; exact Hl.
Qed.

(** After a [seedCustomers] that completes every customer of the fixture
    is stored. *)
Lemma seedCustomers_normal w r w' :
  seedCustomers customers w = (Normal r, w') ->
  forall customer,
    In customer customers ->
    exists k,
      uuid_in (Customer.id customer) = Some k /\
      has_customer (data (session w')) k.
Proof.
  unfold seedCustomers; intros H.
  apply bind_normal_inv in H; destruct H as (q0 & w0 & _ & H).
  apply bind_normal_inv in H; destruct H as (q1 & w1 & _ & H).
  apply bind_normal_inv in H; destruct H as (l & w2 & H2 & H).
  inversion H; subst.
  apply (customers_batch_normal _ _ _ _ H2).
Qed.

(** The inserts of users and customers keep the references of the stored
    invoices. *)
Lemma references_kept_without_invoices s d n d' n' r :
  rows (t_invoices d') = rows (t_invoices d) ->
  apply_stmt s d n = inr (d', n', r) ->
  references_customers d -> references_customers d'.
Proof.
  intros E Ha Hd row Hrow; rewrite E in Hrow.
  eapply apply_stmt_has_customer; [exact Ha | apply Hd; exact Hrow].
Qed.

Lemma not_invoice_insert_keeps_references s d n d' n' r :
  (forall customer_id amount status date,
     s <> INSERT_invoices customer_id amount status date) ->
  apply_stmt s d n = inr (d', n', r) ->
  references_customers d -> references_customers d'.
Proof.
  intros Hs Ha; eapply references_kept_without_invoices; [| exact Ha].
  destruct (apply_stmt_invoices _ _ _ _ _ _ Ha)
    as [E | (? & ? & ? & ? & ? & E & _)]; [exact E |].
  exfalso; eapply Hs; exact E.
Qed.

(** C6 (as amended).  The tables declare no foreign key, so the route
    stores the [customer_id] of each fixture invoice as it is.  When
    every invoice of the fixture names, as its [customer_id], the [id]
    of a customer of the fixture, and every invoice already stored
    references a stored customer (as in the empty database), then every
    invoice row present after a successful invocation has a
    [customer_id] that is the [id] of a customer row. *)
Theorem seeded_invoices_reference_customers
  (Hclosed : forall invoice,
     In invoice invoices ->
     exists customer,
       In customer customers /\
       uuid_in (Invoice.customer_id invoice) =
       uuid_in (Customer.id customer))
  (w w' : World) :
  references_customers (data (session w)) ->
  GET users customers invoices revenue w =
    (Normal (Response_json (message_body "Database seeded successfully") 200),
     w') ->
  forall row,
    In row (rows (t_invoices (data (session w')))) ->
    exists customer_row,
      In customer_row (rows (t_customers (data (session w')))) /\
      CustomersRow.id customer_row = InvoicesRow.customer_id row.
Proof.
  intros Hrefs HG.
  assert (Hgoal : references_customers (data (session w'))).
  2:{ intros row Hrow; specialize (Hgoal row Hrow).
      unfold has_customer in Hgoal; apply in_map_iff in Hgoal.
      destruct Hgoal as (c & Hc & Hin); exists c; split; assumption. }
  (* the [try] block completed *)
  unfold GET, try_catch in HG.
  destruct (GET_try users customers invoices revenue w) as [[resp | e] wt]
    eqn:Ht.
  2:{ unfold GET_catch in HG.
      apply bind_normal_inv in HG; destruct HG as (? & ? & _ & HG).
      inversion HG. }
  inversion HG; subst resp wt; clear HG.
  unfold GET_try in Ht.
  apply bind_normal_inv in Ht; destruct Ht as (q0 & w0 & Hbegin & Ht).
  apply bind_normal_inv in Ht; destruct Ht as (r1 & w1 & Husers & Ht).
  apply bind_normal_inv in Ht; destruct Ht as (r2 & w2 & Hcust & Ht).
  apply bind_normal_inv in Ht; destruct Ht as (r3 & w3 & Hinv & Ht).
  apply bind_normal_inv in Ht; destruct Ht as (r4 & w4 & Hrev & Ht).
  apply bind_normal_inv in Ht; destruct Ht as (q5 & w5 & Hcommit & Ht).
  inversion Ht; subst w5; clear Ht.
  (* users and customers *)
  pose (P := fun p : Session => references_customers (data p)).
  assert (H0 : P (session w0))
    by (unfold P; rewrite (client_sql_BEGIN_data _ _ _ Hbegin); exact Hrefs).
  assert (H1 : P (session w1)).
  { pose proof (seedUsers_keeps users P) as K.
    specialize (K ltac:(
      intros s Hs; apply pg_keeps_data;
      [ apply (seeding_stmt_not_tx_control users customers invoices revenue);
        left; exact Hs
      | intros d n d' n' r; apply not_invoice_insert_keeps_references;
        intros ? ? ? ? E; subst s;
        destruct Hs as [E | [E | (? & ? & _ & E)]]; discriminate E ]) w0 H0).
    rewrite Husers in K; exact K. }
  assert (H2 : P (session w2)).
  { pose proof (seedCustomers_keeps customers P) as K.
    specialize (K ltac:(
      intros s Hs; apply pg_keeps_data;
      [ apply (seeding_stmt_not_tx_control users customers invoices revenue);
        right; left; exact Hs
      | intros d n d' n' r; apply not_invoice_insert_keeps_references;
        intros ? ? ? ? E; subst s;
        destruct Hs as [E | [E | (? & _ & E)]]; discriminate E ]) w1 H1).
    rewrite Hcust in K; exact K. }
  pose proof (seedCustomers_normal _ _ _ Hcust) as Hstored.
  (* invoices and revenue: references kept, customers stay stored *)
  pose (Q := fun d : Database =>
          references_customers d /\
          forall customer,
            In customer customers ->
            exists k,
              uuid_in (Customer.id customer) = Some k /\ has_customer d k).
  assert (HQ : forall s,
            invoices_stmt invoices s \/ revenue_stmt revenue s ->
            pg_keeps (fun p => Q (data p)) s).
  { intros s Hs; apply pg_keeps_data.
    - apply (seeding_stmt_not_tx_control users customers invoices revenue).
      destruct Hs as [Hs | Hs]; [right; right; left | right; right; right];
        exact Hs.
    - intros d n d' n' r Ha [Hr Hc]; split.
      + destruct (apply_stmt_invoices _ _ _ _ _ _ Ha)
          as [E | (cid & amt & st & date & new & -> & Hnew & E)].
        * eapply references_kept_without_invoices; eassumption.
        * intros row Hrow; rewrite E in Hrow.
          apply in_app_or in Hrow; destruct Hrow as [Hrow | [<- | []]].
          -- eapply apply_stmt_has_customer; [exact Ha | apply Hr, Hrow].
          -- destruct Hs as [Hs | [Hs | (? & _ & Hs)]];
               [| discriminate Hs | discriminate Hs].
             destruct Hs as [Hs | [Hs | (invoice & Hin & Hs)]];
               [discriminate Hs | discriminate Hs |].
             inversion Hs; subst; clear Hs.
             apply invoices_row_in_status in Hnew.
             destruct Hnew as (_ & Hcid & _).
             destruct (Hclosed invoice Hin) as (customer & Hcin & Heq).
             destruct (Hc customer Hcin) as (k & Hk & Hhas).
             rewrite Heq, Hk in Hcid; inversion Hcid; subst.
             eapply apply_stmt_has_customer; [exact Ha | exact Hhas].
      + intros customer Hin; destruct (Hc customer Hin) as (k & Hk & Hhas).
        exists k; split; [exact Hk |].
        eapply apply_stmt_has_customer; [exact Ha | exact Hhas]. }
  assert (H3 : Q (data (session w3))).
  { pose proof (seedInvoices_keeps invoices (fun p => Q (data p))) as K.
    specialize (K (fun s Hs => HQ s (or_introl Hs)) w2 (conj H2 Hstored)).
    rewrite Hinv in K; exact K. }
  assert (H4 : Q (data (session w4))).
  { pose proof (seedRevenue_keeps revenue (fun p => Q (data p))) as K.
    specialize (K (fun s Hs => HQ s (or_intror Hs)) w3 H3).
    rewrite Hrev in K; exact K. }
  (* the commit *)
  destruct (client_sql_COMMIT_data _ _ _
              (seedRevenue_normal_accepting _ _ _ _ Hrev) Hcommit) as [-> _].
  exact (proj1 H4).
Qed.

End References.

(** ** Invoking the route again *)

Section Reseeding.
Context {server : PgServer} {bcrypt : Bcrypt}.
Variable users : list User.t.
Variable customers : list Customer.t.
Variable invoices : list Invoice.t.
Variable revenue : list Revenue.t.

Local Abbreviation GET' := (GET users customers invoices revenue).
Local Abbreviation seeding := (seeding_stmt users customers invoices revenue).
Local Abbreviation ok :=
  (Response_json (message_body "Database seeded successfully") 200).

(** An invocation that answers with the success message ran every step
    of the [try] block to its end. *)
Lemma GET_normal_inv w w' :
  GET' w = (Normal ok, w') ->
  exists q0 w0 r1 w1 r2 w2 r3 w3 r4 w4 q5,
    client_sql BEGIN w = (Normal q0, w0) /\
    seedUsers users w0 = (Normal r1, w1) /\
    seedCustomers customers w1 = (Normal r2, w2) /\
    seedInvoices invoices w2 = (Normal r3, w3) /\
    seedRevenue revenue w3 = (Normal r4, w4) /\
    client_sql COMMIT w4 = (Normal q5, w').
Proof.
  intros HG; unfold GET, try_catch in HG.
  destruct (GET_try users customers invoices revenue w) as [[resp | e] wt]
    eqn:Ht.
  2:{ unfold GET_catch in HG.
      apply bind_normal_inv in HG; destruct HG as (? & ? & _ & HG).
      inversion HG. }
  inversion HG; subst resp wt; clear HG.
  unfold GET_try in Ht.
  apply bind_normal_inv in Ht; destruct Ht as (q0 & w0 & Hbegin & Ht).
  apply bind_normal_inv in Ht; destruct Ht as (r1 & w1 & Husers & Ht).
  apply bind_normal_inv in Ht; destruct Ht as (r2 & w2 & Hcust & Ht).
  apply bind_normal_inv in Ht; destruct Ht as (r3 & w3 & Hinv & Ht).
  apply bind_normal_inv in Ht; destruct Ht as (r4 & w4 & Hrev & Ht).
  apply bind_normal_inv in Ht; destruct Ht as (q5 & w5 & Hcommit & Ht).
  inversion Ht; subst w5.
  exists q0, w0, r1, w1, r2, w2, r3, w3, r4, w4, q5; repeat split; assumption.
Qed.

(** What every statement keeps of the tables, every group keeps. *)
Lemma seeds_keep_data (D : Database -> Prop) :
  (forall s d n d' n' r, apply_stmt s d n = inr (d', n', r) -> D d -> D d') ->
  keeps (fun p => D (data p)) (seedUsers users) /\
  keeps (fun p => D (data p)) (seedCustomers customers) /\
  keeps (fun p => D (data p)) (seedInvoices invoices) /\
  keeps (fun p => D (data p)) (seedRevenue revenue).
Proof.
  intros H.
  assert (K : forall s, seeding s -> pg_keeps (fun p => D (data p)) s).
  { intros s Hs; apply pg_keeps_data; [| apply H].
    eapply seeding_stmt_not_tx_control; exact Hs. }
  repeat split.
  - apply seedUsers_keeps; intros s Hs; apply K; left; exact Hs.
  - apply seedCustomers_keeps; intros s Hs; apply K; right; left; exact Hs.
  - apply seedInvoices_keeps; intros s Hs; apply K; right; right; left;
      exact Hs.
  - apply seedRevenue_keeps; intros s Hs; apply K; right; right; right;
      exact Hs.
Qed.

Lemma revenue_row_in_month month rev row :
  revenue_row_in month rev = inr row ->
  varchar_in 4 "month" month = inr (RevenueRow.month row).
Proof.
  unfold revenue_row_in, and_then.
  destruct (varchar_in 4 "month" month); [discriminate |].
  destruct (int4_in "revenue" rev); [discriminate |].
  intros H; inversion H; reflexivity.
Qed.

Lemma apply_stmt_has_user s d n d' n' r k :
  apply_stmt s d n = inr (d', n', r) -> has_user d k -> has_user d' k.
Proof.
  unfold has_user; intros Ha Hk.
  destruct (apply_stmt_users _ _ _ _ _ _ Ha)
    as [E | (? & ? & ? & ? & row & _ & _ & E)]; rewrite E.
  - exact Hk.
  - rewrite map_app; apply in_or_app; left; exact Hk.
Qed.

Lemma apply_stmt_has_month s d n d' n' r m :
  apply_stmt s d n = inr (d', n', r) -> has_month d m -> has_month d' m.
Proof.
  unfold has_month; intros Ha Hm.
  destruct (apply_stmt_revenue _ _ _ _ _ _ Ha)
    as [E | (? & ? & row & _ & _ & E)]; rewrite E.
  - exact Hm.
  - rewrite map_app; apply in_or_app; left; exact Hm.
Qed.

(** *** With every key of the fixture stored, nothing is added *)

(** On a connection with no transaction open and a database that holds
    a row for every user, customer and month of the fixture, an
    invocation leaves the rows of these three tables as they are,
    whatever its outcome. *)
Lemma GET_keeps_stored_rows w :
  tx (session w) = Idle ->
  users_stored users (data (session w)) ->
  customers_stored customers (data (session w)) ->
  revenue_stored revenue (data (session w)) ->
  rows (t_users (data (session (snd (GET' w))))) =
    rows (t_users (data (session w))) /\
  rows (t_customers (data (session (snd (GET' w))))) =
    rows (t_customers (data (session w))) /\
  rows (t_revenue (data (session (snd (GET' w))))) =
    rows (t_revenue (data (session w))).
Proof.
  intros Hi Hu Hc Hr.
  apply (GET_keeps_tables users customers invoices revenue
           (fun d =>
              rows (t_users d) = rows (t_users (data (session w))) /\
              rows (t_customers d) = rows (t_customers (data (session w))) /\
              rows (t_revenue d) = rows (t_revenue (data (session w)))));
    [| exact Hi | repeat split].
  intros s d n d' n' r Hs Ha (Eu & Ec & Er); repeat split.
  - destruct (apply_stmt_users_key _ _ _ _ _ _ Ha)
      as [E | (id & name & email & pw & row & -> & Hrow & Hnew)];
      [rewrite E; exact Eu | exfalso].
    destruct (seeding_INSERT_users _ _ _ _ _ _ _ _ Hs)
      as (user & salt & Hin & -> & _).
    apply users_row_in_password in Hrow; destruct Hrow as [Hid _].
    destruct (Hu user Hin) as (k & Hk & Hhas).
    rewrite Hk in Hid; inversion Hid; subst k.
    apply Hnew; rewrite Eu; exact Hhas.
  - destruct (apply_stmt_customers_key _ _ _ _ _ _ Ha)
      as [E | (id & name & email & url & row & -> & Hrow & Hnew)];
      [rewrite E; exact Ec | exfalso].
    destruct (seeding_INSERT_customers _ _ _ _ _ _ _ _ Hs)
      as (customer & Hin & -> & _).
    apply customers_row_in_id in Hrow.
    destruct (Hc customer Hin) as (k & Hk & Hhas).
    rewrite Hk in Hrow; inversion Hrow; subst k.
    apply Hnew; rewrite Ec; exact Hhas.
  - destruct (apply_stmt_revenue_key _ _ _ _ _ _ Ha)
      as [E | (month & rev & row & -> & Hrow & Hnew)];
      [rewrite E; exact Er | exfalso].
    destruct Hs as [[Hs | [Hs | (? & ? & _ & Hs)]]
                   | [[Hs | [Hs | (? & _ & Hs)]]
                   | [[Hs | [Hs | (? & _ & Hs)]]
                   | [Hs | (fixture & Hin & Hs)]]]]; try discriminate Hs.
    inversion Hs; subst; clear Hs.
    apply revenue_row_in_month in Hrow.
    destruct (Hr fixture Hin) as (m & Hm & Hhas).
    rewrite Hm in Hrow; inversion Hrow; subst m.
    apply Hnew; rewrite Er; exact Hhas.
Qed.

(** *** A successful invocation leaves every key of the fixture stored *)

Lemma insert_user_normal id name email password w q w' :
  client_sql (INSERT_users id name email password) w = (Normal q, w') ->
  (forall k, has_user (data (session w)) k ->
             has_user (data (session w')) k) /\
  exists k, uuid_in id = Some k /\ has_user (data (session w')) k.
Proof.
  intros H; apply client_sql_normal_inv in H.
  apply pg_exec_normal_inv in H; [| reflexivity].
  destruct H as (_ & _ & _ & Ha); split.
  - intros k; eapply apply_stmt_has_user; exact Ha.
  - simpl in Ha; unfold inserted in Ha.
    destruct (insert_users _ _ _ _ _) as [e | [d k]] eqn:Hins;
      inversion Ha; subst; clear Ha.
    apply insert_users_inv in Hins.
    destruct Hins as (l & row & Hl & Hrow & Hcase).
    exists (UsersRow.id row); split;
      [apply (users_row_in_password _ _ _ _ _ Hrow) |].
    unfold has_user.
    destruct Hcase as [(Hin & -> & _) | (_ & _ & -> & _)].
    + rewrite Hl; exact Hin.
    + simpl; rewrite map_app; apply in_or_app; right; left; reflexivity.
Qed.

Lemma users_batch_normal (l : list User.t) w r w' :
  Promise_all
    (map (fun user =>
            hashedPassword <- bcrypt_hash (User.password user) 10 ;;
            client_sql
              (INSERT_users (User.id user) (User.name user)
                 (User.email user) hashedPassword)) l) w = (Normal r, w') ->
  (forall k, has_user (data (session w)) k ->
             has_user (data (session w')) k) /\
  users_stored l (data (session w')).
Proof.
  revert w r; induction l as [| u l IH]; intros w r H.
  - inversion H; subst; split; [auto | intros ? []].
  - simpl in H; apply Promise_all_normal_inv in H.
    destruct H as (a & l' & w1 & Hc & Hrest & _).
    unfold bind at 1, bcrypt_hash at 1 in Hc.
    destruct (insert_user_normal _ _ _ _ _ _ _ Hc) as [Hmono (k & Hk & Hin)].
    simpl in Hmono.
    destruct (IH _ _ Hrest) as [Hmono' Hall]; split.
    + intros k' Hk'; apply Hmono', Hmono; exact Hk'.
    + intros user [<- | Hl].
      * exists k; split; [exact Hk | apply Hmono'; exact Hin].
      * apply Hall; exact Hl.
Qed.

Lemma seedUsers_normal w r w' :
  seedUsers users w = (Normal r, w') -> users_stored users (data (session w')).
Proof.
  unfold seedUsers; intros H.
  apply bind_normal_inv in H; destruct H as (q0 & w0 & _ & H).
  apply bind_normal_inv in H; destruct H as (q1 & w1 & _ & H).
  apply bind_normal_inv in H; destruct H as (l & w2 & H2 & H).
  inversion H; subst.
  apply (users_batch_normal _ _ _ _ H2).
Qed.

Lemma insert_revenue_normal month rev w q w' :
  client_sql (INSERT_revenue month rev) w = (Normal q, w') ->
  (forall m, has_month (data (session w)) m ->
             has_month (data (session w')) m) /\
  exists m,
    varchar_in 4 "month" month = inr m /\ has_month (data (session w')) m.
Proof.
  intros H; apply client_sql_normal_inv in H.
  apply pg_exec_normal_inv in H; [| reflexivity].
  destruct H as (_ & _ & _ & Ha); split.
  - intros m; eapply apply_stmt_has_month; exact Ha.
  - simpl in Ha; unfold inserted in Ha.
    destruct (insert_revenue _ _ _) as [e | [d k]] eqn:Hins;
      inversion Ha; subst; clear Ha.
    apply insert_revenue_inv in Hins.
    destruct Hins as (l & row & Hl & Hrow & Hcase).
    exists (RevenueRow.month row); split;
      [apply (revenue_row_in_month _ _ _ Hrow) |].
    unfold has_month.
    destruct Hcase as [(Hin & -> & _) | (_ & -> & _)].
    + rewrite Hl; exact Hin.
    + simpl; rewrite map_app; apply in_or_app; right; left; reflexivity.
Qed.

Lemma revenue_batch_normal (l : list Revenue.t) w r w' :
  Promise_all
    (map (fun rev =>
            client_sql
              (INSERT_revenue (Revenue.month rev) (Revenue.revenue rev))) l) w
  = (Normal r, w') ->
  (forall m, has_month (data (session w)) m ->
             has_month (data (session w')) m) /\
  revenue_stored l (data (session w')).
Proof.
  revert w r; induction l as [| x l IH]; intros w r H.
  - inversion H; subst; split; [auto | intros ? []].
  - simpl in H; apply Promise_all_normal_inv in H.
    destruct H as (a & l' & w1 & Hc & Hrest & _).
    destruct (insert_revenue_normal _ _ _ _ _ Hc) as [Hmono (m & Hm & Hin)].
    destruct (IH _ _ Hrest) as [Hmono' Hall]; split.
    + intros m' Hm'; apply Hmono', Hmono; exact Hm'.
    + intros rev [<- | Hl].
      * exists m; split; [exact Hm | apply Hmono'; exact Hin].
      * apply Hall; exact Hl.
Qed.

Lemma seedRevenue_normal w r w' :
  seedRevenue revenue w = (Normal r, w') ->
  revenue_stored revenue (data (session w')).
Proof.
  unfold seedRevenue; intros H.
  apply bind_normal_inv in H; destruct H as (q0 & w0 & _ & H).
  apply bind_normal_inv in H; destruct H as (l & w2 & H2 & H).
  inversion H; subst.
  apply (revenue_batch_normal _ _ _ _ H2).
Qed.

Lemma GET_normal_stored w w' :
  GET' w = (Normal ok, w') ->
  tx (session w') = Idle /\
  users_stored users (data (session w')) /\
  customers_stored customers (data (session w')) /\
  revenue_stored revenue (data (session w')).
Proof.
  intros HG; apply GET_normal_inv in HG.
  destruct HG as (q0 & w0 & r1 & w1 & r2 & w2 & r3 & w3 & r4 & w4 & q5 &
                  _ & Husers & Hcust & Hinv & Hrev & Hcommit).
  destruct (client_sql_COMMIT_data _ _ _
              (seedRevenue_normal_accepting _ _ _ _ Hrev) Hcommit)
    as [-> Hidle].
  split; [exact Hidle |].
  (* users: stored by [seedUsers], kept by the three groups after it *)
  destruct (seeds_keep_data (users_stored users)) as (_ & Kc & Ki & Kr).
  { intros s d n d' n' r Ha H user Hin.
    destruct (H user Hin) as (k & Hk & Hhas); exists k; split; [exact Hk |].
    eapply apply_stmt_has_user; eassumption. }
  pose proof (seedUsers_normal _ _ _ Husers) as U1.
  pose proof (Kc w1 U1) as U2; rewrite Hcust in U2.
  pose proof (Ki w2 U2) as U3; rewrite Hinv in U3.
  pose proof (Kr w3 U3) as U4; rewrite Hrev in U4.
  split; [exact U4 |].
  (* customers: stored by [seedCustomers], kept by the two after it *)
  destruct (seeds_keep_data (customers_stored customers)) as (_ & _ & Ki' & Kr').
  { intros s d n d' n' r Ha H customer Hin.
    destruct (H customer Hin) as (k & Hk & Hhas); exists k; split;
      [exact Hk |].
    eapply apply_stmt_has_customer; eassumption. }
  pose proof (seedCustomers_normal _ _ _ _ Hcust) as C2.
  pose proof (Ki' w2 C2) as C3; rewrite Hinv in C3.
  pose proof (Kr' w3 C3) as C4; rewrite Hrev in C4.
  split; [exact C4 |].
  exact (seedRevenue_normal _ _ _ Hrev).
Qed.

(** *** Every invoice insert of a successful invocation adds a row *)

Lemma pg_keeps_generated_before s :
  is_tx_control s = false -> pg_keeps generated_before s.
Proof.
  intros Hc p H; rewrite (pg_exec_data_stmt _ _ Hc).
  destruct (tx p); try exact H;
    destruct (apply_stmt s (data p) (uuid_seq p)) as [e | [[d n] r]] eqn:Ha;
    try exact H; intros row Hrow; simpl in *.
  all: destruct (apply_stmt_uuid_seq _ _ _ _ _ _ Ha)
         as [[-> E] | [-> [E | (new & Hid & _ & E)]]];
       rewrite E in Hrow.
  all: try (destruct (H row Hrow) as (j & Hj & Hrowid); exists j; split;
            [lia | exact Hrowid]).
  all: apply in_app_or in Hrow; destruct Hrow as [Hrow | [<- | []]];
       [ destruct (H row Hrow) as (j & Hj & Hrowid); exists j; split;
         [lia | exact Hrowid]
       | exists (uuid_seq p); split; [lia | exact Hid] ].
Qed.

Lemma pg_keeps_and (P Q : Session -> Prop) s :
  pg_keeps P s -> pg_keeps Q s -> pg_keeps (fun p => P p /\ Q p) s.
Proof. intros HP HQ p [H1 H2]; split; [apply HP | apply HQ]; assumption. Qed.

(** Outside the invoice inserts, the invoices table keeps its rows. *)
Lemma pg_keeps_invoices s (P : list InvoicesRow.t -> Prop) :
  is_tx_control s = false ->
  (forall customer_id amount status date,
     s <> INSERT_invoices customer_id amount status date) ->
  pg_keeps
    (fun p => generated_before p /\ P (rows (t_invoices (data p)))) s.
Proof.
  intros Hc Hs; apply pg_keeps_and; [apply pg_keeps_generated_before, Hc |].
  apply (pg_keeps_data (fun d => P (rows (t_invoices d)))); [exact Hc |].
  intros d n d' n' r Ha H.
  destruct (apply_stmt_invoices _ _ _ _ _ _ Ha)
    as [E | (? & ? & ? & ? & ? & E & _)]; [rewrite E; exact H |].
  exfalso; eapply Hs; exact E.
Qed.

Lemma invoices_row_in_generated generated customer_id amount status date
  row :
  invoices_row_in generated customer_id amount status date = inr row ->
  InvoicesRow.id row = generated.
Proof.
  unfold invoices_row_in, and_then, of_option.
  destruct (uuid_in customer_id); [| discriminate].
  destruct (int4_in "amount" amount); [discriminate |].
  destruct (varchar_in 255 "status" status); [discriminate |].
  destruct (date_in date); [| discriminate].
  intros H; inversion H; reflexivity.
Qed.

Section Distinct.
(** The generator never hands out an identifier twice. *)
Hypothesis uuid_distinct :
  forall i j, uuid_generate_v4 i = uuid_generate_v4 j -> i = j.

Lemma insert_invoice_normal customer_id amount status date w q w' :
  generated_before (session w) ->
  client_sql (INSERT_invoices customer_id amount status date) w =
    (Normal q, w') ->
  generated_before (session w') /\
  count_invoices (data (session w')) = S (count_invoices (data (session w))).
Proof.
  intros Hg H; apply client_sql_normal_inv in H.
  apply pg_exec_normal_inv in H; [| reflexivity].
  destruct H as (_ & _ & _ & Ha).
  simpl in Ha; unfold inserted in Ha.
  destruct (insert_invoices _ _ _ _ _ _) as [e | [d k]] eqn:Hins;
    inversion Ha as [[Hd Hn Hq]]; clear Ha.
  apply insert_invoices_inv in Hins.
  destruct Hins as (l & row & Hl & Hrow & Hcase).
  apply invoices_row_in_generated in Hrow.
  destruct Hcase as [(Hin & _) | (_ & -> & _)].
  - (* the generated identifier cannot be stored already *)
    exfalso; rewrite Hrow in Hin; apply in_map_iff in Hin.
    destruct Hin as (old & Hold & Hin).
    destruct (Hg old) as (j & Hj & Hid); [rewrite Hl; exact Hin |].
    rewrite Hid in Hold; apply uuid_distinct in Hold; lia.
  - split.
    + intros r Hr; rewrite <- Hd in Hr; simpl in Hr.
      apply in_app_or in Hr; destruct Hr as [Hr | [<- | []]].
      * destruct (Hg r) as (j & Hj & Hid); [rewrite Hl; exact Hr |].
        exists j; split; [lia | exact Hid].
      * exists (uuid_seq (session w)); split; [lia | exact Hrow].
    + unfold count_invoices; rewrite <- Hd, Hl; simpl.
      rewrite length_app; simpl; lia.
Qed.

Lemma invoices_batch_normal (l : list Invoice.t) w r w' :
  generated_before (session w) ->
  Promise_all
    (map (fun invoice =>
            client_sql
              (INSERT_invoices (Invoice.customer_id invoice)
                 (Invoice.amount invoice)
                 (status_text (Invoice.status invoice))
                 (Invoice.date invoice))) l) w = (Normal r, w') ->
  generated_before (session w') /\
  count_invoices (data (session w')) =
    count_invoices (data (session w)) + List.length l.
Proof.
  revert w r; induction l as [| x l IH]; intros w r Hg H.
  - inversion H; subst; split; [exact Hg | simpl; lia].
  - simpl in H; apply Promise_all_normal_inv in H.
    destruct H as (a & l' & w1 & Hc & Hrest & _).
    destruct (insert_invoice_normal _ _ _ _ _ _ _ Hg Hc) as [Hg1 Hc1].
    destruct (IH _ _ Hg1 Hrest) as [Hg' Hc']; split; [exact Hg' |].
    rewrite Hc', Hc1; simpl; lia.
Qed.

Lemma seedInvoices_normal w r w' :
  generated_before (session w) ->
  seedInvoices invoices w = (Normal r, w') ->
  generated_before (session w') /\
  count_invoices (data (session w')) =
    count_invoices (data (session w)) + List.length invoices.
Proof.
  unfold seedInvoices; intros Hg H.
  apply bind_normal_inv in H; destruct H as (q0 & w0 & H0 & H).
  apply bind_normal_inv in H; destruct H as (q1 & w1 & H1 & H).
  apply bind_normal_inv in H; destruct H as (l & w2 & H2 & H).
  inversion H; subst; clear H.
  set (c := count_invoices (data (session w))).
  pose (P := fun p : Session =>
          generated_before p /\
          List.length (rows (t_invoices (data p))) = c).
  assert (K0 : P (session w0)).
  { pose proof (keeps_client_sql P CREATE_EXTENSION_uuid_ossp
                  (pg_keeps_invoices CREATE_EXTENSION_uuid_ossp
                     (fun l => List.length l = c)
                     eq_refl ltac:(discriminate)) w (conj Hg eq_refl)) as K.
    rewrite H0 in K; exact K. }
  assert (K1 : P (session w1)).
  { pose proof (keeps_client_sql P CREATE_TABLE_invoices
                  (pg_keeps_invoices CREATE_TABLE_invoices
                     (fun l => List.length l = c)
                     eq_refl ltac:(discriminate)) w0 K0) as K.
    rewrite H1 in K; exact K. }
  destruct K1 as [Hg1 Hc1].
  destruct (invoices_batch_normal _ _ _ _ Hg1 H2) as [Hg2 Hc2].
  split; [exact Hg2 |].
  rewrite Hc2; unfold count_invoices at 1; rewrite Hc1; reflexivity.
Qed.

(** A successful invocation adds one invoice row per invoice of the
    fixture, whatever the table held. *)
Lemma GET_normal_invoices w w' :
  generated_before (session w) ->
  GET' w = (Normal ok, w') ->
  generated_before (session w') /\
  count_invoices (data (session w')) =
    count_invoices (data (session w)) + List.length invoices.
Proof.
  intros Hg HG; apply GET_normal_inv in HG.
  destruct HG as (q0 & w0 & r1 & w1 & r2 & w2 & r3 & w3 & r4 & w4 & q5 &
                  Hbegin & Husers & Hcust & Hinv & Hrev & Hcommit).
  set (c := count_invoices (data (session w))).
  pose (P := fun p : Session =>
          generated_before p /\
          List.length (rows (t_invoices (data p))) = c).
  assert (KP : forall s,
            seeding s ->
            (forall customer_id amount status date,
               s <> INSERT_invoices customer_id amount status date) ->
            pg_keeps P s).
  { intros s Hs Hn.
    apply (pg_keeps_invoices s (fun l => List.length l = c)); [| exact Hn].
    eapply seeding_stmt_not_tx_control; exact Hs. }
  (* [BEGIN] touches neither the tables nor the generator *)
  assert (K0 : P (session w0)).
  { apply client_sql_normal_inv in Hbegin; revert Hbegin.
    unfold pg_exec; destruct (tx (session w)); intros E; inversion E;
      split; try exact Hg; reflexivity. }
  assert (K1 : P (session w1)).
  { pose proof (seedUsers_keeps users P) as K.
    specialize (K ltac:(
      intros s Hs; apply KP; [left; exact Hs |];
      intros ? ? ? ? E; subst s;
      destruct Hs as [E | [E | (? & ? & _ & E)]]; discriminate E) w0 K0).
    rewrite Husers in K; exact K. }
  assert (K2 : P (session w2)).
  { pose proof (seedCustomers_keeps customers P) as K.
    specialize (K ltac:(
      intros s Hs; apply KP; [right; left; exact Hs |];
      intros ? ? ? ? E; subst s;
      destruct Hs as [E | [E | (? & _ & E)]]; discriminate E) w1 K1).
    rewrite Hcust in K; exact K. }
  destruct K2 as [Hg2 Hc2].
  destruct (seedInvoices_normal _ _ _ Hg2 Hinv) as [Hg3 Hc3].
  set (c3 := count_invoices (data (session w3))) in *.
  pose (P3 := fun p : Session =>
          generated_before p /\
          List.length (rows (t_invoices (data p))) = c3).
  assert (K4 : P3 (session w4)).
  { pose proof (seedRevenue_keeps revenue P3) as K.
    specialize (K ltac:(
      intros s Hs;
      apply (pg_keeps_invoices s (fun l => List.length l = c3));
      [ apply (seeding_stmt_not_tx_control users customers invoices revenue);
        right; right; right; exact Hs
      | intros ? ? ? ? E; subst s;
        destruct Hs as [E | (? & _ & E)]; discriminate E ]) w3
      (conj Hg3 eq_refl)).
    rewrite Hrev in K; exact K. }
  destruct K4 as [Hg4 Hc4].
  (* [COMMIT] *)
  pose proof (seedRevenue_normal_accepting _ _ _ _ Hrev) as Hacc.
  destruct (client_sql_COMMIT_data _ _ _ Hacc Hcommit) as [Ed _].
  pose proof (client_sql_COMMIT_uuid_seq _ _ _ Hcommit) as En.
  split.
  - intros row Hrow; rewrite Ed in Hrow; rewrite En; apply Hg4; exact Hrow.
  - unfold count_invoices in *; rewrite Ed, Hc4, Hc3, Hc2; reflexivity.
Qed.

(** Invoking the route again after a success, with a generator that
    never repeats an identifier: whatever the outcome, the rows of
    users, customers and revenue stay as they are; and when the second
    invocation succeeds too, every invoice of the fixture is stored once
    more. *)
Theorem GET_again w w1 :
  generated_before (session w) ->
  GET' w = (Normal ok, w1) ->
  (rows (t_users (data (session (snd (GET' w1))))) =
     rows (t_users (data (session w1))) /\
   rows (t_customers (data (session (snd (GET' w1))))) =
     rows (t_customers (data (session w1))) /\
   rows (t_revenue (data (session (snd (GET' w1))))) =
     rows (t_revenue (data (session w1)))) /\
  (forall w2,
     GET' w1 = (Normal ok, w2) ->
     count_invoices (data (session w2)) =
       count_invoices (data (session w1)) + List.length invoices).
Proof.
  intros Hg H1.
  destruct (GET_normal_stored _ _ H1) as (Hidle & Hu & Hc & Hr).
  destruct (GET_normal_invoices _ _ Hg H1) as [Hg1 _].
  split.
  - apply GET_keeps_stored_rows; assumption.
  - intros w2 H2; apply (GET_normal_invoices _ _ Hg1 H2).
Qed.

End Distinct.

End Reseeding.

(** ** The stand-in hashing library keeps the contract *)

Lemma prefix_marked (data salt : string) :
  String.prefix (data ++ "$") (data ++ String "$" salt) = true.
Proof.
  induction data as [| c data IH]; simpl.
  - destruct salt; reflexivity.
  - destruct (ascii_dec c c) as [_ | H]; [exact IH | contradiction].
Qed.

Lemma length_append_le (s t : string) :
  String.length s <= String.length (s ++ t).
Proof. induction s as [| c s IH]; simpl; lia. Qed.

Lemma marking_bcrypt_check salt data :
  bcrypt_compare data (bcrypt_hash_with salt data 10) = true.
Proof. simpl; apply prefix_marked. Qed.

Lemma marking_bcrypt_differs salt data :
  bcrypt_hash_with salt data 10 <> data.
Proof.
  simpl; intros H.
  pose proof (length_append_le data (String "$" salt)) as Hle.
  apply (f_equal String.length) in H; simpl in H; lia.
Qed.

(** ** The scenario of one row per table *)

Lemma seeded_invoice_status_witness :
  let row :=
    InvoicesRow.mk "00000000-0000-4000-8000-000000000000"
      "d6e15727-9fe1-4961-8c5b-ea44a9bd81aa" 15795 "pending" "2022-12-06" in
  In row (rows (t_invoices (data (session (fresh_world []))))) \/
  InvoicesRow.status row = "pending" \/ InvoicesRow.status row = "paid".
Proof.
  apply (seeded_invoice_status [one_user] [one_customer] [one_invoice]
           [one_revenue] (fresh_world [])).
  - reflexivity.
  - vm_compute; left; reflexivity.
Defined.

Lemma seeded_password_is_hashed_witness :
  let row :=
    UsersRow.mk "410544b2-4001-4271-9855-fec4b6a6442a" "User"
      "user@nextmail.com" "$123456$0000000000000000000000" in
  In row (rows (t_users (data (session (fresh_world []))))) \/
  exists user salt,
    In user [one_user] /\
    uuid_in (User.id user) = Some (UsersRow.id row) /\
    UsersRow.password row = bcrypt_hash_with salt (User.password user) 10 /\
    UsersRow.password row <> User.password user /\
    bcrypt_compare (User.password user) (UsersRow.password row) = true.
Proof.
  apply (seeded_password_is_hashed [one_user] [one_customer] [one_invoice]
           [one_revenue] marking_bcrypt_check marking_bcrypt_differs
           (fresh_world [])).
  - reflexivity.
  - vm_compute; left; reflexivity.
Defined.

Lemma conflict_on_target_is_skipped_witness :
  let p := mkSession one_user_stored Idle 0 in
  pg_exec
    (INSERT_users (User.id one_user) (User.name one_user)
       (User.email one_user) "$123456$0000000000000000000001") p =
  (inr (Some 0), p).
Proof.
  cbv zeta.
  eapply (proj1 (conflict_on_target_is_skipped
                   (mkSession one_user_stored Idle 0)
                   ltac:(intros saved H; discriminate H))).
  - vm_compute; reflexivity.
  - vm_compute; left; reflexivity.
Defined.

(** C5 as stated fails.  The second user has an [id] of its own and the
    e-mail address of the first: the insert violates the [UNIQUE]
    constraint on [email], which [ON CONFLICT (id)] does not cover.  The
    violation is raised and the invocation fails with it. *)
Lemma GET_unique_email_violation_surfaces :
  pg_exec
    (INSERT_users (User.id same_email_user) (User.name same_email_user)
       (User.email same_email_user) "$abcdef$0000000000000000000001")
    (mkSession one_user_stored Idle 0) =
  (inl (unique_violation "users_email_key"),
   mkSession one_user_stored Idle 0) /\
  fst (GET [one_user; same_email_user] [one_customer] [one_invoice]
         [one_revenue] (fresh_world [])) =
  Normal
    (Response_json (error_body (unique_violation "users_email_key")) 500).
Proof. split; vm_compute; reflexivity. Qed.

Lemma seeded_invoices_reference_customers_witness :
  exists customer_row,
    In customer_row
      (rows
         (t_customers
            (data
               (session
                  (snd
                     (GET [one_user] [one_customer] [one_invoice]
                        [one_revenue] (fresh_world []))))))) /\
    CustomersRow.id customer_row = "d6e15727-9fe1-4961-8c5b-ea44a9bd81aa".
Proof.
  assert (Hclosed : forall invoice,
            In invoice [one_invoice] ->
            exists customer,
              In customer [one_customer] /\
              uuid_in (Invoice.customer_id invoice) =
              uuid_in (Customer.id customer)).
  { intros invoice [<- | []]; exists one_customer; split;
      [left; reflexivity | reflexivity]. }
  apply (seeded_invoices_reference_customers [one_user] [one_customer]
           [one_invoice] [one_revenue] Hclosed (fresh_world []) _
           ltac:(intros row [])
           ltac:(vm_compute; reflexivity)
           (InvoicesRow.mk "00000000-0000-4000-8000-000000000000"
              "d6e15727-9fe1-4961-8c5b-ea44a9bd81aa" 15795 "pending"
              "2022-12-06")).
  vm_compute; left; reflexivity.
Defined.

(** C6 as stated fails.  The fixture holds one customer and an invoice
    of another, unknown customer.  The invocation succeeds and the
    invoice row is stored with a [customer_id] that no customer row
    has. *)
Lemma GET_stores_invoice_without_customer :
  let out :=
    GET [one_user] [one_customer] [stray_invoice] [one_revenue]
      (fresh_world []) in
  fst out =
    Normal (Response_json (message_body "Database seeded successfully") 200)
  /\
  exists row,
    In row (rows (t_invoices (data (session (snd out))))) /\
    ~ exists customer_row,
        In customer_row (rows (t_customers (data (session (snd out))))) /\
        CustomersRow.id customer_row = InvoicesRow.customer_id row.
Proof.
  split; [vm_compute; reflexivity |].
  eexists; split; [vm_compute; left; reflexivity |].
  vm_compute; intros (c & [<- | []] & H); discriminate H.
Qed.

Lemma invoice_ids_are_generated_witness :
  GET [one_user] [one_customer]
    [Invoice.mk "00000000-0000-0000-0000-000000000000"
       (Invoice.customer_id one_invoice) (Invoice.amount one_invoice)
       (Invoice.date one_invoice) (Invoice.status one_invoice)]
    [one_revenue] (fresh_world []) =
  GET [one_user] [one_customer] [one_invoice] [one_revenue] (fresh_world [])
  /\
  (let row :=
     InvoicesRow.mk "00000000-0000-4000-8000-000000000000"
       "d6e15727-9fe1-4961-8c5b-ea44a9bd81aa" 15795 "pending" "2022-12-06" in
   In row (rows (t_invoices (data (session (fresh_world []))))) \/
   exists n, InvoicesRow.id row = uuid_generate_v4 n) /\
  (let p :=
     session
       (snd (GET [one_user] [one_customer] [one_invoice] [one_revenue]
               (fresh_world []))) in
   fst
     (pg_exec
        (INSERT_invoices (Invoice.customer_id one_invoice)
           (Invoice.amount one_invoice)
           (status_text (Invoice.status one_invoice))
           (Invoice.date one_invoice)) p) = inr (Some 1)).
Proof.
  pose proof (invoice_ids_are_generated [one_user] [one_customer]
                [one_invoice] [one_revenue]) as (H1 & H2 & H3).
  split; [| split].
  - apply H1; reflexivity.
  - apply (H2 (fresh_world [])); [reflexivity | vm_compute; left; reflexivity].
  - cbv zeta; erewrite H3.
    + reflexivity.
    + intros saved H; vm_compute in H; discriminate H.
    + vm_compute; discriminate.
    + vm_compute; reflexivity.
    + vm_compute; intros [H | []]; discriminate H.
Defined.

(** C1 fails on the one-row fixture.  Both invocations answer with the
    success message; the first leaves one row in each table; the second
    leaves users, customers and revenue as they are and stores the
    invoice a second time, under a new identifier. *)
Lemma GET_twice_stores_invoice_twice :
  let once :=
    GET [one_user] [one_customer] [one_invoice] [one_revenue]
      (fresh_world []) in
  let twice :=
    GET [one_user] [one_customer] [one_invoice] [one_revenue] (snd once) in
  let ok :=
    Normal (Response_json (message_body "Database seeded successfully") 200)
  in
  fst once = ok /\ fst twice = ok /\
  count_users (data (session (snd once))) = 1 /\
  count_customers (data (session (snd once))) = 1 /\
  count_invoices (data (session (snd once))) = 1 /\
  count_revenue (data (session (snd once))) = 1 /\
  count_users (data (session (snd twice))) = 1 /\
  count_customers (data (session (snd twice))) = 1 /\
  count_invoices (data (session (snd twice))) = 2 /\
  count_revenue (data (session (snd twice))) = 1.
Proof. repeat split; vm_compute; reflexivity. Qed.

(** The general statement applies: on a server whose generator never
    repeats, the second invocation stores the invoice once more. *)
Lemma tally_distinct (i j : nat) : tally i = tally j -> i = j.
Proof.
  revert j; induction i as [| i IH]; intros [| j] H; simpl in H;
    try discriminate H; [reflexivity |].
  inversion H as [E]; rewrite (IH _ E); reflexivity.
Qed.

Lemma GET_again_on_one_row :
  let once :=
    @GET tally_server marking_bcrypt [one_user] [one_customer] [one_invoice]
      [one_revenue] (fresh_world []) in
  let twice :=
    @GET tally_server marking_bcrypt [one_user] [one_customer] [one_invoice]
      [one_revenue] (snd once) in
  count_invoices (data (session (snd twice))) =
  count_invoices (data (session (snd once))) + 1.
Proof.
  cbv zeta.
  refine (proj2 (@GET_again tally_server marking_bcrypt [one_user]
                   [one_customer] [one_invoice] [one_revenue]
                   tally_distinct (fresh_world []) _ _ _) _ _).
  - intros row [].
  - vm_compute; reflexivity.
  - vm_compute; reflexivity.
Qed.

(** * Further facts about the route *)

(** ** Worlds *)

Lemma keeps_world_ret {A : Type} (P : World -> Prop) (a : A) :
  keeps_world P (ret a).
Proof. intros w H; exact H. Qed.

Lemma keeps_world_bind {A B : Type} (P : World -> Prop) (m : Js A)
  (k : A -> Js B) :
  keeps_world P m -> (forall a, keeps_world P (k a)) ->
  keeps_world P (bind m k).
Proof.
  intros Hm Hk w H; unfold bind.
  specialize (Hm w H); destruct (m w) as [[a | e] w1]; simpl in Hm.
  - apply Hk; exact Hm.
  - exact Hm.
Qed.

Lemma keeps_world_Promise_all {A : Type} (P : World -> Prop)
  (calls : list (Js A)) :
  Forall (keeps_world P) calls -> keeps_world P (Promise_all calls).
Proof.
  induction 1 as [| call rest Hc _ IH]; intros w H; simpl.
  - exact H.
  - specialize (Hc w H); destruct (call w) as [c w1]; simpl in Hc.
    specialize (IH w1 Hc); destruct (Promise_all rest w1) as [cs w2].
    exact IH.
Qed.

Section Handler.
Context {server : PgServer} {bcrypt : Bcrypt}.
Variable users : list User.t.
Variable customers : list Customer.t.
Variable invoices : list Invoice.t.
Variable revenue : list Revenue.t.

Local Abbreviation GET' := (GET users customers invoices revenue).
Local Abbreviation GET_try' := (GET_try users customers invoices revenue).
Local Abbreviation steps := (GET_steps users customers invoices revenue).
Local Abbreviation ok :=
  (Response_json (message_body "Database seeded successfully") 200).

(** A link with no fault to come has none after a call. *)
Lemma client_sql_no_faults s :
  keeps_world (fun w => faults w = []) (client_sql s).
Proof.
  intros w H; unfold client_sql; rewrite H.
  destruct (pg_exec s (session w)); reflexivity.
Qed.

Lemma GET_try_no_faults : keeps_world (fun w => faults w = []) GET_try'.
Proof.
  assert (Hsql : forall s, keeps_world (fun w => faults w = [])
                             (client_sql s))
    by (intros s; apply client_sql_no_faults).
  assert (Hbatch : forall (A : Type) (g : A -> Stmt) (l : list A),
            keeps_world (fun w => faults w = [])
              (Promise_all (map (fun x => client_sql (g x)) l))).
  { intros A g l; apply keeps_world_Promise_all, Forall_forall.
    intros call Hc; apply in_map_iff in Hc; destruct Hc as (x & <- & _).
    apply Hsql. }
  unfold GET_try, seedUsers, seedCustomers, seedInvoices, seedRevenue.
  repeat
    first
      [ apply keeps_world_ret
      | apply Hsql
      | apply (Hbatch _ (fun customer =>
                 INSERT_customers (Customer.id customer)
                   (Customer.name customer) (Customer.email customer)
                   (Customer.image_url customer)))
      | apply (Hbatch _ (fun invoice =>
                 INSERT_invoices (Invoice.customer_id invoice)
                   (Invoice.amount invoice)
                   (status_text (Invoice.status invoice))
                   (Invoice.date invoice)))
      | apply (Hbatch _ (fun rev =>
                 INSERT_revenue (Revenue.month rev) (Revenue.revenue rev)))
      | apply keeps_world_bind; [| intros ?] ].
  apply keeps_world_Promise_all, Forall_forall.
  intros call Hc; apply in_map_iff in Hc; destruct Hc as (user & <- & _).
  apply keeps_world_bind; [intros w H; exact H | intros h; apply Hsql].
Qed.

(** A [ROLLBACK] throws only when the link loses it. *)
Lemma client_sql_ROLLBACK_thrown w e w' :
  client_sql ROLLBACK w = (Thrown e, w') ->
  e = connection_failure /\ exists later, faults w = true :: later.
Proof.
  unfold client_sql; destruct (faults w) as [| [|] later].
  - destruct (pg_exec_ROLLBACK_ok (session w)) as [q Hq].
    destruct (pg_exec ROLLBACK (session w)) as [r p]; simpl in Hq; subst r.
    intros H; discriminate H.
  - intros H; inversion H; split; [reflexivity | exists later; reflexivity].
  - destruct (pg_exec_ROLLBACK_ok (session w)) as [q Hq].
    destruct (pg_exec ROLLBACK (session w)) as [r p]; simpl in Hq; subst r.
    intros H; discriminate H.
Qed.

(** Whatever [GET] answers, it is the success message with status 200 or
    an error with status 500, and the transaction block is closed. *)
Lemma GET_normal_cases w r w' :
  GET' w = (Normal r, w') ->
  (r = ok /\ GET_try' w = (Normal ok, w')) \/
  (exists e w1 q,
     r = Response_json (error_body e) 500 /\
     GET_try' w = (Thrown e, w1) /\
     client_sql ROLLBACK w1 = (Normal q, w')).
Proof.
  unfold GET, try_catch.
  destruct (GET_try' w) as [[resp | e] w1] eqn:Ht; intros H.
  - left; inversion H; subst resp w1.
    assert (Hok : r = ok).
    { unfold GET_try in Ht.
      repeat (apply bind_normal_inv in Ht; destruct Ht as (? & ? & _ & Ht)).
      inversion Ht; reflexivity. }
    subst r; split; reflexivity.
  - right; unfold GET_catch in H.
    apply bind_normal_inv in H; destruct H as (q & w2 & Hr & H).
    inversion H; subst; exists e, w1, q; repeat split; exact Hr.
Qed.

End Handler.

(** ** What the handler answers *)

Section Answers.
Context {server : PgServer} {bcrypt : Bcrypt}.
Variable users : list User.t.
Variable customers : list Customer.t.
Variable invoices : list Invoice.t.
Variable revenue : list Revenue.t.

Local Abbreviation GET' := (GET users customers invoices revenue).
Local Abbreviation GET_try' := (GET_try users customers invoices revenue).
Local Abbreviation steps := (GET_steps users customers invoices revenue).
Local Abbreviation ok :=
  (Response_json (message_body "Database seeded successfully") 200).

Lemma GET_thrown_inv w e w' :
  GET' w = (Thrown e, w') ->
  e = connection_failure /\
  exists e0 w1 later,
    fails_at steps w e0 w1 /\
    GET_try' w = (Thrown e0, w1) /\
    faults w1 = true :: later.
Proof.
  unfold GET, try_catch.
  destruct (GET_try' w) as [[resp | e0] w1] eqn:Ht; intros H;
    [discriminate H |].
  unfold GET_catch in H.
  apply bind_thrown_inv in H.
  destruct H as [Hr | (q & w2 & _ & Hret)]; [| discriminate Hret].
  destruct (client_sql_ROLLBACK_thrown _ _ _ Hr) as [-> [later Hl]].
  split; [reflexivity |].
  exists e0, w1, later; repeat split; try assumption.
  apply thrown_fails_at.
  rewrite GET_try_steps in Ht.
  apply bind_thrown_inv in Ht.
  destruct Ht as [Hs | (u & w2 & _ & Hret)]; [exact Hs | discriminate Hret].
Qed.

(** X5.  Whenever [GET] returns a response, with status 200 or 500, no
    transaction block is left open on the connection. *)
Theorem GET_response_closes_transaction (w : World) r w' :
  GET' w = (Normal r, w') -> tx (session w') = Idle.
Proof.
  intros H.
  destruct (GET_normal_cases _ _ _ _ _ _ _ H)
    as [[_ Ht] | (e & w1 & q & _ & _ & Hr)].
  - unfold GET_try in Ht.
    do 5 (apply bind_normal_inv in Ht; destruct Ht as (? & ? & _ & Ht)).
    apply bind_normal_inv in Ht; destruct Ht as (q & w5 & Hc & Ht).
    inversion Ht; subst w5.
    apply client_sql_normal_inv in Hc.
    match type of Hc with
    | pg_exec COMMIT ?p = _ =>
        revert Hc; unfold pg_exec; destruct (tx p) eqn:E
    end; intros Hc; inversion Hc; try reflexivity; exact E.
  - rewrite (client_sql_ROLLBACK_normal _ _ _ Hr).
    unfold pg_exec; destruct (tx (session w1)) eqn:E; simpl;
      try reflexivity; exact E.
Qed.

(** X6.  [GET] rejects in one way only: a step of the [try] block threw
    and the link then lost the [ROLLBACK].  What it rejects with is the
    failure of the link, never an error of the database. *)
Theorem GET_rejects_only_when_rollback_lost (w : World) e w' :
  GET' w = (Thrown e, w') ->
  e = connection_failure /\
  exists e0 w1 later,
    fails_at steps w e0 w1 /\ faults w1 = true :: later.
Proof.
  intros H; destruct (GET_thrown_inv _ _ _ H)
    as [He (e0 & w1 & later & Hf & _ & Hl)].
  split; [exact He | exists e0, w1, later; split; assumption].
Qed.

(** X7.  Over a link that loses no statement [GET] always returns a
    response: the success message with status 200, or an error with
    status 500. *)
Theorem GET_answers_without_faults (w : World) :
  faults w = [] ->
  exists r w',
    GET' w = (Normal r, w') /\
    (r = ok \/ exists e, r = Response_json (error_body e) 500).
Proof.
  intros Hf; destruct (GET' w) as [[r | e] w'] eqn:HG.
  - exists r, w'; split; [reflexivity |].
    destruct (GET_normal_cases _ _ _ _ _ _ _ HG)
      as [[-> _] | (e & _ & _ & -> & _)]; [left | right; exists e];
      reflexivity.
  - exfalso; destruct (GET_thrown_inv _ _ _ HG)
      as [_ (e0 & w1 & later & _ & Ht & Hl)].
    pose proof (GET_try_no_faults users customers invoices revenue w Hf)
      as Hn.
    rewrite Ht in Hn; simpl in Hn; rewrite Hn in Hl; discriminate Hl.
Qed.

(** X15.  On a connection left in a failed transaction block, over a
    link that loses no statement, [GET] seeds nothing: its [BEGIN] is
    refused, it answers with that refusal and status 500, and its
    [ROLLBACK] closes the block and brings back the tables saved when
    the block was opened. *)
Theorem GET_clears_failed_block (w : World) saved :
  tx (session w) = InFailedTransaction saved ->
  faults w = [] ->
  exists w',
    GET' w =
      (Normal (Response_json (error_body in_failed_sql_transaction) 500),
       w') /\
    data (session w') = saved /\
    tx (session w') = Idle /\
    wire w' = wire w ++ [BEGIN; ROLLBACK].
Proof.
  intros Ht Hf.
  unfold GET, try_catch, GET_try, GET_catch, bind, client_sql.
  rewrite Hf; unfold pg_exec at 1; rewrite Ht; simpl.
  unfold pg_exec; simpl; rewrite Ht; simpl.
  eexists; repeat split.
  rewrite <- app_assoc; reflexivity.
Qed.

End Answers.

(** ** What statements do to the tables, once more *)

Lemma not_own_extension {A : Type} (l : list A) (x : A) : l <> l ++ [x].
Proof.
  intros H; apply (f_equal (@List.length A)) in H.
  rewrite length_app in H; simpl in H; lia.
Qed.

Lemma NoDup_added {A : Type} (l : list A) (x : A) :
  NoDup l -> ~ In x l -> NoDup (l ++ [x]).
Proof.
  induction 1 as [| a l Ha Hl IH]; intros Hx; simpl.
  - constructor; [intros [] | constructor].
  - constructor.
    + intros Hin; apply in_app_or in Hin; destruct Hin as [Hin | [-> | []]].
      * exact (Ha Hin).
      * apply Hx; left; reflexivity.
    + apply IH; intros Hin; apply Hx; right; exact Hin.
Qed.

Lemma extends_refl {A : Type} (l : list A) : extends l l.
Proof. exists []; rewrite app_nil_r; reflexivity. Qed.

Lemma extends_added {A : Type} (l0 l : list A) (x : A) :
  extends l0 l -> extends l0 (l ++ [x]).
Proof.
  intros [added ->]; exists (added ++ [x]); rewrite app_assoc; reflexivity.
Qed.

(** After a [CREATE TABLE IF NOT EXISTS] that raised no error the table
    is there: it was, or it is created. *)
Ltac table_created H :=
  simpl in H; unfold created, create_with_uuid_default in H;
  match type of H with
  | context [is_some ?t] => destruct t eqn:?; simpl in H
  end;
  repeat
    match type of H with
    | context [if ?b then _ else _] => destruct b eqn:?
    end;
  inversion H as [[Hd Hn Hq]]; simpl; congruence.

Ltac split_statement H :=
  unfold created, inserted, create_with_uuid_default, insert_users,
    insert_customers, insert_invoices, insert_revenue, users_row_in,
    customers_row_in, invoices_row_in, revenue_row_in, and_then, of_option,
    text_in, varchar_in, int4_in in H;
  repeat
    match type of H with
    | context [match ?x with _ => _ end] =>
        lazymatch x with
        | context [match _ with _ => _ end] => fail
        | _ => destruct x eqn:?
        end
    end.

Section Tables.
Context {server : PgServer}.

(** An error of a statement on the tables is never the refusal of a
    failed block. *)
Lemma apply_stmt_error s d n e :
  apply_stmt s d n = inl e -> e <> in_failed_sql_transaction.
Proof.
  intros H; destruct s; simpl in H; split_statement H;
    inversion H; discriminate.
Qed.

(** No statement drops the extension or a table. *)
Lemma apply_stmt_keeps_schema s d n d' n' r :
  apply_stmt s d n = inr (d', n', r) ->
  (uuid_ossp d = true -> uuid_ossp d' = true) /\
  (t_users d <> None -> t_users d' <> None) /\
  (t_customers d <> None -> t_customers d' <> None) /\
  (t_invoices d <> None -> t_invoices d' <> None) /\
  (t_revenue d <> None -> t_revenue d' <> None).
Proof.
  intros H; destruct s; simpl in H; split_statement H;
    inversion H; subst; simpl; repeat split; intros; try assumption;
    try discriminate; congruence.
Qed.

(** A user row is added under an [id] and an e-mail address that no
    stored user has. *)
Lemma apply_stmt_users_added s d n d' n' r :
  apply_stmt s d n = inr (d', n', r) ->
  rows (t_users d') = rows (t_users d) \/
  exists row,
    rows (t_users d') = rows (t_users d) ++ [row] /\
    ~ In (UsersRow.id row) (map UsersRow.id (rows (t_users d))) /\
    ~ In (UsersRow.email row) (map UsersRow.email (rows (t_users d))).
Proof.
  intros Ha.
  destruct (apply_stmt_users _ _ _ _ _ _ Ha)
    as [E | (id & name & email & pw & row & -> & Hrow & E)];
    [left; exact E | right].
  exists row; split; [exact E |].
  simpl in Ha; unfold inserted in Ha.
  destruct (insert_users id name email pw d) as [e | [d0 k]] eqn:Hins;
    inversion Ha; subst; clear Ha.
  apply insert_users_inv in Hins.
  destruct Hins as (l & row' & Hl & Hrow' & Hcase).
  rewrite Hrow in Hrow'; inversion Hrow'; subst row'.
  destruct Hcase as [(_ & -> & _) | (Hid & Hem & _)].
  - exfalso; exact (not_own_extension _ _ E).
  - rewrite Hl; split; assumption.
Qed.

Lemma apply_stmt_customers_added s d n d' n' r :
  apply_stmt s d n = inr (d', n', r) ->
  rows (t_customers d') = rows (t_customers d) \/
  exists row,
    rows (t_customers d') = rows (t_customers d) ++ [row] /\
    ~ In (CustomersRow.id row)
        (map CustomersRow.id (rows (t_customers d))).
Proof.
  intros Ha.
  destruct (apply_stmt_customers _ _ _ _ _ _ Ha)
    as [E | (id & name & email & url & row & -> & Hrow & E)];
    [left; exact E | right].
  exists row; split; [exact E |].
  simpl in Ha; unfold inserted in Ha.
  destruct (insert_customers id name email url d) as [e | [d0 k]] eqn:Hins;
    inversion Ha; subst; clear Ha.
  apply insert_customers_inv in Hins.
  destruct Hins as (l & row' & Hl & Hrow' & Hcase).
  rewrite Hrow in Hrow'; inversion Hrow'; subst row'.
  destruct Hcase as [(_ & -> & _) | (Hid & _)].
  - exfalso; exact (not_own_extension _ _ E).
  - rewrite Hl; exact Hid.
Qed.

Lemma apply_stmt_invoices_added s d n d' n' r :
  apply_stmt s d n = inr (d', n', r) ->
  rows (t_invoices d') = rows (t_invoices d) \/
  exists row,
    rows (t_invoices d') = rows (t_invoices d) ++ [row] /\
    ~ In (InvoicesRow.id row)
        (map InvoicesRow.id (rows (t_invoices d))).
Proof.
  intros Ha.
  destruct (apply_stmt_uuid_seq _ _ _ _ _ _ Ha)
    as [[_ E] | [_ [E | (row & Hid & Hnew & E)]]];
    [left; exact E | left; exact E | right].
  exists row; split; [exact E | rewrite Hid; exact Hnew].
Qed.

Lemma apply_stmt_revenue_added s d n d' n' r :
  apply_stmt s d n = inr (d', n', r) ->
  rows (t_revenue d') = rows (t_revenue d) \/
  exists row,
    rows (t_revenue d') = rows (t_revenue d) ++ [row] /\
    ~ In (RevenueRow.month row)
        (map RevenueRow.month (rows (t_revenue d))).
Proof.
  intros Ha.
  destruct (apply_stmt_revenue _ _ _ _ _ _ Ha)
    as [E | (month & rev & row & -> & Hrow & E)];
    [left; exact E | right].
  exists row; split; [exact E |].
  simpl in Ha; unfold inserted in Ha.
  destruct (insert_revenue month rev d) as [e | [d0 k]] eqn:Hins;
    inversion Ha; subst; clear Ha.
  apply insert_revenue_inv in Hins.
  destruct Hins as (l & row' & Hl & Hrow' & Hcase).
  rewrite Hrow in Hrow'; inversion Hrow'; subst row'.
  destruct Hcase as [(_ & -> & _) | (Hid & _)].
  - exfalso; exact (not_own_extension _ _ E).
  - rewrite Hl; exact Hid.
Qed.

(** Every statement keeps the keys of the tables distinct. *)
Lemma apply_stmt_keys_distinct s d n d' n' r :
  apply_stmt s d n = inr (d', n', r) ->
  keys_distinct d -> keys_distinct d'.
Proof.
  intros Ha (Hu & He & Hc & Hi & Hr); unfold keys_distinct.
  destruct (apply_stmt_users_added _ _ _ _ _ _ Ha)
    as [-> | (row & -> & Hid & Hem)];
    destruct (apply_stmt_customers_added _ _ _ _ _ _ Ha)
      as [-> | (crow & -> & Hcid)];
    destruct (apply_stmt_invoices_added _ _ _ _ _ _ Ha)
      as [-> | (irow & -> & Hiid)];
    destruct (apply_stmt_revenue_added _ _ _ _ _ _ Ha)
      as [-> | (rrow & -> & Hm)];
    rewrite ?map_app; simpl; repeat split;
    try assumption; apply NoDup_added; assumption.
Qed.

(** Every statement leaves the stored rows where they are. *)
Lemma apply_stmt_extends d0 s d n d' n' r :
  apply_stmt s d n = inr (d', n', r) ->
  extends_database d0 d -> extends_database d0 d'.
Proof.
  intros Ha (Hu & Hc & Hi & Hr); unfold extends_database.
  destruct (apply_stmt_users _ _ _ _ _ _ Ha)
    as [-> | (? & ? & ? & ? & ? & _ & _ & ->)];
    destruct (apply_stmt_customers _ _ _ _ _ _ Ha)
      as [-> | (? & ? & ? & ? & ? & _ & _ & ->)];
    destruct (apply_stmt_invoices _ _ _ _ _ _ Ha)
      as [-> | (? & ? & ? & ? & ? & _ & _ & ->)];
    destruct (apply_stmt_revenue _ _ _ _ _ _ Ha)
      as [-> | (? & ? & ? & _ & _ & ->)];
    repeat split; try assumption; apply extends_added; assumption.
Qed.

End Tables.

(** ** What an invocation does to the tables *)

Lemma root_cause_ret {A : Type} (a : A) : root_cause (ret a).
Proof. intros w H; exact H. Qed.

Lemma root_cause_bind {A B : Type} (m : Js A) (k : A -> Js B) :
  root_cause m -> (forall a, root_cause (k a)) -> root_cause (bind m k).
Proof.
  intros Hm Hk w H; unfold bind.
  specialize (Hm w H); destruct (m w) as [[a | e] w1].
  - apply Hk; exact Hm.
  - exact Hm.
Qed.

(** A batch rejects with its first error: the refusals that the
    statements behind the failing one meet are not what it throws. *)
Lemma root_cause_Promise_all {A : Type} (calls : list (Js A)) :
  Forall root_cause calls -> root_cause (Promise_all calls).
Proof.
  induction 1 as [| call rest Hc _ IH]; intros w H; simpl.
  - exact H.
  - specialize (Hc w H); destruct (call w) as [[a | e] w1].
    + specialize (IH w1 Hc).
      destruct (Promise_all rest w1) as [[l | e'] w2]; exact IH.
    + destruct (Promise_all rest w1) as [cs w2]; exact Hc.
Qed.

Section Seeded.
Context {server : PgServer} {bcrypt : Bcrypt}.
Variable users : list User.t.
Variable customers : list Customer.t.
Variable invoices : list Invoice.t.
Variable revenue : list Revenue.t.

Local Abbreviation GET' := (GET users customers invoices revenue).
Local Abbreviation GET_try' := (GET_try users customers invoices revenue).
Local Abbreviation seeding := (seeding_stmt users customers invoices revenue).
Local Abbreviation ok :=
  (Response_json (message_body "Database seeded successfully") 200).

(** X9.  An invocation on a connection with no transaction open never
    removes, changes or reorders a stored row: whatever its outcome,
    each of the four tables holds afterwards the rows it held, in their
    order, with the new rows behind them. *)
Theorem GET_only_appends (w : World) :
  tx (session w) = Idle ->
  extends_database (data (session w)) (data (session (snd (GET' w)))).
Proof.
  intros Hi.
  apply (GET_keeps_tables users customers invoices revenue
           (extends_database (data (session w)))); [| exact Hi |].
  - intros s d n d' n' r _ Ha; eapply apply_stmt_extends; exact Ha.
  - repeat split; apply extends_refl.
Qed.

(** X10.  An invocation on a connection with no transaction open keeps
    what the tables declare: when no two stored users share an [id] or
    an e-mail address, no two customers an [id], no two invoices an [id]
    and no two revenue rows a month, the same holds afterwards, whatever
    the fixture holds and whatever the outcome. *)
Theorem GET_keeps_keys_distinct (w : World) :
  tx (session w) = Idle ->
  keys_distinct (data (session w)) ->
  keys_distinct (data (session (snd (GET' w)))).
Proof.
  intros Hi Hk.
  apply (GET_keeps_tables users customers invoices revenue keys_distinct);
    [| exact Hi | exact Hk].
  intros s d n d' n' r _ Ha; eapply apply_stmt_keys_distinct; exact Ha.
Qed.

Lemma seeding_INSERT_revenue month rev :
  seeding (INSERT_revenue month rev) ->
  exists fixture,
    In fixture revenue /\
    month = Revenue.month fixture /\ rev = Revenue.revenue fixture.
Proof.
  intros [[H | [H | (? & ? & _ & H)]]
         | [[H | [H | (? & _ & H)]]
         | [[H | [H | (? & _ & H)]]
         | [H | (fixture & Hin & H)]]]]; try discriminate H.
  inversion H; subst; exists fixture; repeat split; exact Hin.
Qed.

(** X14.  An invocation on a connection with no transaction open stores
    nothing but the fixture: whatever its outcome, every row it adds to
    a table is what the columns of that table make of one record of the
    fixture list of that table (for a user with the 10-round digest in
    place of the password, for an invoice under a generated [id]). *)
Theorem GET_stores_fixture_rows_only (w : World) :
  tx (session w) = Idle ->
  added_from_fixture users customers invoices revenue (data (session w))
    (data (session (snd (GET' w)))).
Proof.
  intros Hi.
  apply (GET_keeps_tables users customers invoices revenue
           (added_from_fixture users customers invoices revenue
              (data (session w)))); [| exact Hi |].
  2:{ repeat split; intros row H; left; exact H. }
  intros s d n d' n' r Hs Ha (Hu & Hc & Hv & Hr); repeat split;
    intros row Hrow.
  - destruct (apply_stmt_users _ _ _ _ _ _ Ha)
      as [E | (id & name & email & pw & new & -> & Hnew & E)];
      rewrite E in Hrow; [apply Hu; exact Hrow |].
    apply in_app_or in Hrow; destruct Hrow as [Hrow | [<- | []]];
      [apply Hu; exact Hrow | right].
    destruct (seeding_INSERT_users _ _ _ _ _ _ _ _ Hs)
      as (user & salt & Hin & -> & -> & -> & ->).
    exists user, salt; split; assumption.
  - destruct (apply_stmt_customers _ _ _ _ _ _ Ha)
      as [E | (id & name & email & url & new & -> & Hnew & E)];
      rewrite E in Hrow; [apply Hc; exact Hrow |].
    apply in_app_or in Hrow; destruct Hrow as [Hrow | [<- | []]];
      [apply Hc; exact Hrow | right].
    destruct (seeding_INSERT_customers _ _ _ _ _ _ _ _ Hs)
      as (customer & Hin & -> & -> & -> & ->).
    exists customer; split; assumption.
  - destruct (apply_stmt_invoices _ _ _ _ _ _ Ha)
      as [E | (cid & amt & st & date & new & -> & Hnew & E)];
      rewrite E in Hrow; [apply Hv; exact Hrow |].
    apply in_app_or in Hrow; destruct Hrow as [Hrow | [<- | []]];
      [apply Hv; exact Hrow | right].
    destruct (seeding_INSERT_invoices _ _ _ _ _ _ _ _ Hs)
      as (invoice & Hin & -> & -> & -> & ->).
    exists invoice, n; split; assumption.
  - destruct (apply_stmt_revenue _ _ _ _ _ _ Ha)
      as [E | (month & rev & new & -> & Hnew & E)];
      rewrite E in Hrow; [apply Hr; exact Hrow |].
    apply in_app_or in Hrow; destruct Hrow as [Hrow | [<- | []]];
      [apply Hr; exact Hrow | right].
    destruct (seeding_INSERT_revenue _ _ Hs) as (fixture & Hin & -> & ->).
    exists fixture; split; assumption.
Qed.

(** *** The error that is reported *)

Lemma root_cause_client_sql s : root_cause (client_sql s).
Proof.
  intros w Ha.
  assert (Hrun :
    match pg_exec s (session w) with
    | (inr _, p) => accepting p
    | (inl e, _) => e <> in_failed_sql_transaction
    end).
  { destruct (is_tx_control s) eqn:Hc.
    - destruct s; try discriminate Hc; unfold pg_exec;
        destruct (tx (session w)) eqn:Ht;
        try (exfalso; eapply Ha; exact Ht);
        intros saved' E; simpl in E; try rewrite Ht in E; discriminate E.
    - rewrite (pg_exec_accepting _ _ Hc Ha).
      destruct (apply_stmt s (data (session w)) (uuid_seq (session w)))
        as [e | [[d n] r]] eqn:Hs.
      + eapply apply_stmt_error; exact Hs.
      + intros saved' E; simpl in E; eapply Ha; exact E. }
  unfold client_sql; destruct (faults w) as [| [|] later];
    try discriminate;
    destruct (pg_exec s (session w)) as [[e | q] p]; exact Hrun.
Qed.

Lemma root_cause_GET_try : root_cause GET_try'.
Proof.
  assert (Hbatch : forall (A : Type) (g : A -> Stmt) (l : list A),
            root_cause (Promise_all (map (fun x => client_sql (g x)) l))).
  { intros A g l; apply root_cause_Promise_all, Forall_forall.
    intros call Hc; apply in_map_iff in Hc; destruct Hc as (x & <- & _).
    apply root_cause_client_sql. }
  unfold GET_try, seedUsers, seedCustomers, seedInvoices, seedRevenue.
  repeat
    first
      [ apply root_cause_ret
      | apply root_cause_client_sql
      | apply (Hbatch _ (fun customer =>
                 INSERT_customers (Customer.id customer)
                   (Customer.name customer) (Customer.email customer)
                   (Customer.image_url customer)))
      | apply (Hbatch _ (fun invoice =>
                 INSERT_invoices (Invoice.customer_id invoice)
                   (Invoice.amount invoice)
                   (status_text (Invoice.status invoice))
                   (Invoice.date invoice)))
      | apply (Hbatch _ (fun rev =>
                 INSERT_revenue (Revenue.month rev) (Revenue.revenue rev)))
      | apply root_cause_bind; [| intros ?] ].
  apply root_cause_Promise_all, Forall_forall.
  intros call Hc; apply in_map_iff in Hc; destruct Hc as (user & <- & _).
  apply root_cause_bind;
    [intros w H; exact H | intros h; apply root_cause_client_sql].
Qed.

(** X11.  On a connection that is not in a failed transaction block,
    the error in a response with status 500 is never the refusal
    [in_failed_sql_transaction]: the refusals that the statements queued
    behind a failing insert of a batch meet are not what [GET]
    reports. *)
Theorem GET_reports_root_cause (w : World) e w' :
  accepting (session w) ->
  GET' w = (Normal (Response_json (error_body e) 500), w') ->
  e <> in_failed_sql_transaction.
Proof.
  intros Ha H.
  destruct (GET_normal_cases _ _ _ _ _ _ _ H)
    as [[Hr _] | (e0 & w1 & q & Hr & Ht & _)]; [discriminate Hr |].
  inversion Hr; subst e0.
  pose proof (root_cause_GET_try w Ha) as Hc; rewrite Ht in Hc; exact Hc.
Qed.

End Seeded.

(** ** What a successful invocation leaves *)

Section Provisioning.
Context {server : PgServer} {bcrypt : Bcrypt}.
Variable users : list User.t.
Variable customers : list Customer.t.
Variable invoices : list Invoice.t.
Variable revenue : list Revenue.t.

Local Abbreviation GET' := (GET users customers invoices revenue).
Local Abbreviation ok :=
  (Response_json (message_body "Database seeded successfully") 200).

(** A statement of a group that completes ran on the tables. *)
Lemma client_sql_normal_apply s w q w' :
  is_tx_control s = false ->
  client_sql s w = (Normal q, w') ->
  apply_stmt s (data (session w)) (uuid_seq (session w)) =
    inr (data (session w'), uuid_seq (session w'), q).
Proof.
  intros Hc H; apply client_sql_normal_inv in H.
  apply (pg_exec_normal_inv _ _ _ _ Hc H).
Qed.

Lemma batch_keeps_data {A : Type} (D : Database -> Prop) (g : A -> Stmt)
  (l : list A) :
  (forall x, is_tx_control (g x) = false) ->
  (forall s d n d' n' r, apply_stmt s d n = inr (d', n', r) -> D d -> D d') ->
  keeps (fun p => D (data p))
    (Promise_all (map (fun x => client_sql (g x)) l)).
Proof.
  intros Hg HD; apply keeps_Promise_all, Forall_forall.
  intros call Hc; apply in_map_iff in Hc; destruct Hc as (x & <- & _).
  apply keeps_client_sql, pg_keeps_data; [apply Hg | apply HD].
Qed.

Lemma users_batch_keeps_data (D : Database -> Prop) (l : list User.t) :
  (forall s d n d' n' r, apply_stmt s d n = inr (d', n', r) -> D d -> D d') ->
  keeps (fun p => D (data p))
    (Promise_all
       (map (fun user =>
               hashedPassword <- bcrypt_hash (User.password user) 10 ;;
               client_sql
                 (INSERT_users (User.id user) (User.name user)
                    (User.email user) hashedPassword)) l)).
Proof.
  intros HD; apply keeps_Promise_all, Forall_forall.
  intros call Hc; apply in_map_iff in Hc; destruct Hc as (x & <- & _).
  apply keeps_bind; [apply keeps_bcrypt_hash | intros h].
  apply keeps_client_sql, pg_keeps_data; [reflexivity | apply HD].
Qed.

Lemma uuid_ossp_kept s d n d' n' r :
  apply_stmt s d n = inr (d', n', r) ->
  uuid_ossp d = true -> uuid_ossp d' = true.
Proof. intros H; apply (apply_stmt_keeps_schema _ _ _ _ _ _ H). Qed.

Lemma seedUsers_normal_schema w r w' :
  seedUsers users w = (Normal r, w') ->
  uuid_ossp (data (session w')) = true /\ t_users (data (session w')) <> None.
Proof.
  unfold seedUsers; intros H.
  apply bind_normal_inv in H; destruct H as (q0 & w0 & H0 & H).
  apply bind_normal_inv in H; destruct H as (q1 & w1 & H1 & H).
  apply bind_normal_inv in H; destruct H as (l & w2 & H2 & H).
  inversion H; subst; clear H.
  apply client_sql_normal_apply in H0; [| reflexivity].
  apply client_sql_normal_apply in H1; [| reflexivity].
  assert (E0 : uuid_ossp (data (session w0)) = true)
    by (simpl in H0; inversion H0 as [[Hd Hn Hq]]; reflexivity).
  assert (E1 : uuid_ossp (data (session w1)) = true /\
               t_users (data (session w1)) <> None).
  { split; [eapply uuid_ossp_kept; eassumption |].
    table_created H1. }
  pose proof (users_batch_keeps_data
                (fun d => uuid_ossp d = true /\ t_users d <> None) users)
    as K.
  specialize (K ltac:(
    intros s d n d' n' r0 Ha [Hx Hy];
    destruct (apply_stmt_keeps_schema _ _ _ _ _ _ Ha) as (Kx & Ky & _);
    split; auto) w1 E1).
  rewrite H2 in K; exact K.
Qed.

Lemma seedCustomers_normal_schema w r w' :
  seedCustomers customers w = (Normal r, w') ->
  t_customers (data (session w')) <> None.
Proof.
  unfold seedCustomers; intros H.
  apply bind_normal_inv in H; destruct H as (q0 & w0 & H0 & H).
  apply bind_normal_inv in H; destruct H as (q1 & w1 & H1 & H).
  apply bind_normal_inv in H; destruct H as (l & w2 & H2 & H).
  inversion H; subst; clear H.
  apply client_sql_normal_apply in H1; [| reflexivity].
  assert (E1 : t_customers (data (session w1)) <> None).
  { table_created H1. }
  pose proof (batch_keeps_data (fun d => t_customers d <> None)
                (fun customer =>
                   INSERT_customers (Customer.id customer)
                     (Customer.name customer) (Customer.email customer)
                     (Customer.image_url customer)) customers
                ltac:(reflexivity)) as K.
  specialize (K ltac:(
    intros s d n d' n' r0 Ha Hx;
    apply (apply_stmt_keeps_schema _ _ _ _ _ _ Ha); exact Hx) w1 E1).
  cbv beta in K; rewrite H2 in K; exact K.
Qed.

Lemma seedInvoices_normal_schema w r w' :
  seedInvoices invoices w = (Normal r, w') ->
  t_invoices (data (session w')) <> None.
Proof.
  unfold seedInvoices; intros H.
  apply bind_normal_inv in H; destruct H as (q0 & w0 & H0 & H).
  apply bind_normal_inv in H; destruct H as (q1 & w1 & H1 & H).
  apply bind_normal_inv in H; destruct H as (l & w2 & H2 & H).
  inversion H; subst; clear H.
  apply client_sql_normal_apply in H1; [| reflexivity].
  assert (E1 : t_invoices (data (session w1)) <> None).
  { table_created H1. }
  pose proof (batch_keeps_data (fun d => t_invoices d <> None)
                (fun invoice =>
                   INSERT_invoices (Invoice.customer_id invoice)
                     (Invoice.amount invoice)
                     (status_text (Invoice.status invoice))
                     (Invoice.date invoice)) invoices
                ltac:(reflexivity)) as K.
  specialize (K ltac:(
    intros s d n d' n' r0 Ha Hx;
    apply (apply_stmt_keeps_schema _ _ _ _ _ _ Ha); exact Hx) w1 E1).
  cbv beta in K; rewrite H2 in K; exact K.
Qed.

Lemma seedRevenue_normal_schema w r w' :
  seedRevenue revenue w = (Normal r, w') ->
  t_revenue (data (session w')) <> None.
Proof.
  unfold seedRevenue; intros H.
  apply bind_normal_inv in H; destruct H as (q1 & w1 & H1 & H).
  apply bind_normal_inv in H; destruct H as (l & w2 & H2 & H).
  inversion H; subst; clear H.
  apply client_sql_normal_apply in H1; [| reflexivity].
  assert (E1 : t_revenue (data (session w1)) <> None).
  { table_created H1. }
  pose proof (batch_keeps_data (fun d => t_revenue d <> None)
                (fun rev =>
                   INSERT_revenue (Revenue.month rev) (Revenue.revenue rev))
                revenue ltac:(reflexivity)) as K.
  specialize (K ltac:(
    intros s d n d' n' r0 Ha Hx;
    apply (apply_stmt_keeps_schema _ _ _ _ _ _ Ha); exact Hx) w1 E1).
  cbv beta in K; rewrite H2 in K; exact K.
Qed.

(** X4.  After an invocation that answers with the success message the
    schema is in place, whatever the database held and also when every
    fixture list is empty: the extension ["uuid-ossp"] is installed and
    the tables users, customers, invoices and revenue exist. *)
Theorem successful_GET_provisions (w w' : World) :
  GET' w = (Normal ok, w') -> provisioned (data (session w')).
Proof.
  intros HG; apply GET_normal_inv in HG.
  destruct HG as (q0 & w0 & r1 & w1 & r2 & w2 & r3 & w3 & r4 & w4 & q5 &
                  _ & Husers & Hcust & Hinv & Hrev & Hcommit).
  destruct (client_sql_COMMIT_data _ _ _
              (seedRevenue_normal_accepting _ _ _ _ Hrev) Hcommit)
    as [-> _].
  destruct (seeds_keep_data users customers invoices revenue
              (fun d => uuid_ossp d = true /\ t_users d <> None))
    as (_ & Kc & Ki & Kr).
  { intros s d n d' n' r0 Ha [Hx Hy];
      destruct (apply_stmt_keeps_schema _ _ _ _ _ _ Ha) as (Kx & Ky & _);
      split; auto. }
  pose proof (seedUsers_normal_schema _ _ _ Husers) as U1.
  pose proof (Kc w1 U1) as U2; rewrite Hcust in U2.
  pose proof (Ki w2 U2) as U3; rewrite Hinv in U3.
  pose proof (Kr w3 U3) as U4; rewrite Hrev in U4.
  destruct (seeds_keep_data users customers invoices revenue
              (fun d => t_customers d <> None)) as (_ & _ & Ki' & Kr').
  { intros s d n d' n' r0 Ha Hx;
      apply (apply_stmt_keeps_schema _ _ _ _ _ _ Ha); exact Hx. }
  pose proof (seedCustomers_normal_schema _ _ _ Hcust) as C2.
  pose proof (Ki' w2 C2) as C3; rewrite Hinv in C3.
  pose proof (Kr' w3 C3) as C4; rewrite Hrev in C4.
  destruct (seeds_keep_data users customers invoices revenue
              (fun d => t_invoices d <> None)) as (_ & _ & _ & Kr'').
  { intros s d n d' n' r0 Ha Hx;
      apply (apply_stmt_keeps_schema _ _ _ _ _ _ Ha); exact Hx. }
  pose proof (seedInvoices_normal_schema _ _ _ Hinv) as I3.
  pose proof (Kr'' w3 I3) as I4; rewrite Hrev in I4.
  pose proof (seedRevenue_normal_schema _ _ _ Hrev) as R4.
  simpl in *; destruct U4 as [Ux Uy]; repeat split; assumption.
Qed.

(** X3.  After an invocation that answers with the success message every
    record of the users, customers and revenue fixtures has its row: a
    user row under the [id] of each user of the fixture, a customer row
    under the [id] of each customer, a revenue row for each month;
    either the row the invocation stored or the one that was there. *)
Theorem successful_GET_stores_fixture_keys (w w' : World) :
  GET' w = (Normal ok, w') ->
  users_stored users (data (session w')) /\
  customers_stored customers (data (session w')) /\
  revenue_stored revenue (data (session w')).
Proof.
  intros HG.
  destruct (GET_normal_stored _ _ _ _ _ _ HG) as (_ & Hu & Hc & Hr).
  repeat split; assumption.
Qed.

(** X1.  Invoking the route again after an invocation that answered with
    the success message leaves the rows of users, customers and revenue
    exactly as they are, whatever the outcome of the second
    invocation: conflict-skipping makes these three groups safe to
    repeat. *)
Theorem GET_again_keeps_keyed_tables (w w1 : World) :
  GET' w = (Normal ok, w1) ->
  rows (t_users (data (session (snd (GET' w1))))) =
    rows (t_users (data (session w1))) /\
  rows (t_customers (data (session (snd (GET' w1))))) =
    rows (t_customers (data (session w1))) /\
  rows (t_revenue (data (session (snd (GET' w1))))) =
    rows (t_revenue (data (session w1))).
Proof.
  intros HG.
  destruct (GET_normal_stored _ _ _ _ _ _ HG) as (Hidle & Hu & Hc & Hr).
  apply GET_keeps_stored_rows; assumption.
Qed.

(** X2.  With a generator that never hands out an identifier twice, and
    an invoices table whose identifiers all came from it, an invocation
    that answers with the success message adds exactly one invoice row
    per invoice of the fixture, whatever the table holds already. *)
Theorem successful_GET_adds_every_invoice
  (Hdistinct : forall i j, uuid_generate_v4 i = uuid_generate_v4 j -> i = j)
  (w w' : World) :
  generated_before (session w) ->
  GET' w = (Normal ok, w') ->
  count_invoices (data (session w')) =
    count_invoices (data (session w)) + List.length invoices.
Proof.
  intros Hg HG.
  apply (GET_normal_invoices users customers invoices revenue Hdistinct _ _
           Hg HG).
Qed.

End Provisioning.

(** ** What an invocation sends *)

Section Sent.
Context {server : PgServer} {bcrypt : Bcrypt}.
Variable users : list User.t.
Variable customers : list Customer.t.
Variable invoices : list Invoice.t.
Variable revenue : list Revenue.t.

Local Abbreviation GET' := (GET users customers invoices revenue).
Local Abbreviation ok :=
  (Response_json (message_body "Database seeded successfully") 200).

Lemma In_users_inserts s salt (l : list User.t) :
  In s (users_inserts salt l) ->
  exists user n,
    In user l /\
    s = INSERT_users (User.id user) (User.name user) (User.email user)
          (bcrypt_hash_with (salt_source n) (User.password user) 10).
Proof.
  revert salt; induction l as [| u l IH]; intros salt H; simpl in H.
  - destruct H.
  - destruct H as [<- | H].
    + exists u, salt; split; [left; reflexivity | reflexivity].
    + destruct (IH _ H) as (user & n & Hin & Hs).
      exists user, n; split; [right; exact Hin | exact Hs].
Qed.

(** The user inserts among the statements of a run carry digests. *)
Lemma INSERT_users_in_GET_stmts salt id name email password :
  In (INSERT_users id name email password)
    (GET_stmts users customers invoices revenue salt) ->
  exists user n,
    In user users /\
    id = User.id user /\ name = User.name user /\
    email = User.email user /\
    password = bcrypt_hash_with (salt_source n) (User.password user) 10.
Proof.
  unfold GET_stmts; intros [H | H]; [discriminate H |].
  apply in_app_or in H; destruct H as [H | H].
  { destruct H as [H | [H | H]]; try discriminate H.
    destruct (In_users_inserts _ _ _ H) as (user & n & Hin & Hs).
    inversion Hs; subst; exists user, n; repeat split; exact Hin. }
  apply in_app_or in H; destruct H as [H | H].
  { destruct H as [H | [H | H]]; try discriminate H.
    apply in_map_iff in H; destruct H as (? & H & _); discriminate H. }
  apply in_app_or in H; destruct H as [H | H].
  { destruct H as [H | [H | H]]; try discriminate H.
    apply in_map_iff in H; destruct H as (? & H & _); discriminate H. }
  apply in_app_or in H; destruct H as [H | H].
  { destruct H as [H | H]; try discriminate H.
    apply in_map_iff in H; destruct H as (? & H & _); discriminate H. }
  destruct H as [H | []]; discriminate H.
Qed.

(** X8.  The password of a user never goes to the database as it is:
    every [INSERT INTO users] that an invocation sends, whatever its
    outcome, names a user of the fixture and carries, in place of the
    password, its 10-round digest under a salt drawn for it. *)
Theorem GET_sends_digests_only (w : World) id name email password :
  In (INSERT_users id name email password) (wire (snd (GET' w))) ->
  In (INSERT_users id name email password) (wire w) \/
  exists user n,
    In user users /\
    id = User.id user /\ name = User.name user /\
    email = User.email user /\
    password = bcrypt_hash_with (salt_source n) (User.password user) 10.
Proof.
  intros H.
  destruct (emits_GET_try users customers invoices revenue w)
    as (sent & rest & Hall & Hw & _).
  assert (Hin : In (INSERT_users id name email password) (wire w ++ sent)).
  { unfold GET, try_catch in H.
    destruct (GET_try users customers invoices revenue w)
      as [[resp | e] w1]; simpl in *.
    - rewrite <- Hw; exact H.
    - unfold GET_catch, bind in H.
      pose proof (client_sql_wire ROLLBACK w1) as Hr.
      destruct (client_sql ROLLBACK w1) as [[q | e'] w2]; simpl in *;
        rewrite Hr in H; apply in_app_or in H;
        destruct H as [H | [H | []]]; try discriminate H;
        rewrite <- Hw; exact H. }
  apply in_app_or in Hin; destruct Hin as [Hin | Hin]; [left; exact Hin |].
  right; apply (INSERT_users_in_GET_stmts (salt_seq w)).
  rewrite Hall; apply in_or_app; left; exact Hin.
Qed.



End Sent.

(** ** Empty fixture lists *)

Section Empty.
Context {server : PgServer} {bcrypt : Bcrypt}.

(** X12.  With every fixture list empty, on a connection with no
    transaction open and over a link that loses no statement, [GET]
    answers with the success message whatever the database holds: it
    creates what is missing of the extension and the four tables and
    leaves the rows of every table as they are. *)
Theorem GET_empty_fixture (w : World) :
  faults w = [] ->
  tx (session w) = Idle ->
  exists w',
    GET [] [] [] [] w =
      (Normal
         (Response_json (message_body "Database seeded successfully") 200),
       w') /\
    provisioned (data (session w')) /\
    tx (session w') = Idle /\
    rows (t_users (data (session w'))) = rows (t_users (data (session w))) /\
    rows (t_customers (data (session w'))) =
      rows (t_customers (data (session w))) /\
    rows (t_invoices (data (session w'))) =
      rows (t_invoices (data (session w))) /\
    rows (t_revenue (data (session w'))) =
      rows (t_revenue (data (session w))).
Proof.
  destruct w as [[[x u c i r] t n] f k wi]; simpl; intros -> ->.
  exists (snd (GET [] [] [] []
                 (mkWorld (mkSession (mkDatabase x u c i r) Idle n) [] k
                    wi))).
  destruct u, c, i, r; vm_compute;
    repeat split; try reflexivity; intros H; discriminate H.
Qed.

End Empty.

(** ** The further facts on the fixtures of the scenario *)

Lemma GET_again_keeps_keyed_tables_witness :
  let w1 :=
    snd (GET [one_user] [one_customer] [one_invoice] [one_revenue]
           (fresh_world [])) in
  let again :=
    GET [one_user] [one_customer] [one_invoice] [one_revenue] w1 in
  rows (t_users (data (session (snd again)))) =
    rows (t_users (data (session w1))) /\
  rows (t_customers (data (session (snd again)))) =
    rows (t_customers (data (session w1))) /\
  rows (t_revenue (data (session (snd again)))) =
    rows (t_revenue (data (session w1))).
Proof.
  cbv zeta.
  apply (GET_again_keeps_keyed_tables [one_user] [one_customer]
           [one_invoice] [one_revenue] (fresh_world [])).
  vm_compute; reflexivity.
Defined.

Lemma successful_GET_adds_every_invoice_witness :
  let once :=
    @GET tally_server marking_bcrypt [one_user] [one_customer]
      [one_invoice; stray_invoice] [one_revenue] (fresh_world []) in
  count_invoices (data (session (snd once))) =
  count_invoices (data (session (fresh_world []))) + 2.
Proof.
  cbv zeta.
  apply (@successful_GET_adds_every_invoice tally_server marking_bcrypt
           [one_user] [one_customer] [one_invoice; stray_invoice]
           [one_revenue] tally_distinct (fresh_world [])).
  - intros row [].
  - vm_compute; reflexivity.
Defined.

Lemma successful_GET_stores_fixture_keys_witness :
  let w' :=
    snd (GET [one_user] [one_customer] [one_invoice] [one_revenue]
           (fresh_world [])) in
  users_stored [one_user] (data (session w')) /\
  customers_stored [one_customer] (data (session w')) /\
  revenue_stored [one_revenue] (data (session w')).
Proof.
  cbv zeta.
  apply (successful_GET_stores_fixture_keys [one_user] [one_customer]
           [one_invoice] [one_revenue] (fresh_world [])).
  vm_compute; reflexivity.
Defined.

Lemma successful_GET_provisions_witness :
  provisioned
    (data
       (session
          (snd (GET [one_user] [one_customer] [one_invoice] [one_revenue]
                  (fresh_world []))))).
Proof.
  apply (successful_GET_provisions [one_user] [one_customer] [one_invoice]
           [one_revenue] (fresh_world [])).
  vm_compute; reflexivity.
Defined.

Lemma GET_response_closes_transaction_witness :
  tx
    (session
       (snd (GET [one_user] [one_customer] [one_invoice] [long_month]
               (fresh_world [])))) = Idle.
Proof.
  eapply (GET_response_closes_transaction [one_user] [one_customer]
            [one_invoice] [long_month] (fresh_world [])).
  vm_compute; reflexivity.
Defined.

Lemma GET_rejects_only_when_rollback_lost_witness :
  connection_failure = connection_failure /\
  exists e0 w1 later,
    fails_at (GET_steps [one_user] [one_customer] [one_invoice] [one_revenue])
      (fresh_world [false; true; true]) e0 w1 /\
    faults w1 = true :: later.
Proof.
  eapply (GET_rejects_only_when_rollback_lost [one_user] [one_customer]
            [one_invoice] [one_revenue] (fresh_world [false; true; true])).
  vm_compute; reflexivity.
Defined.

Lemma GET_answers_without_faults_witness :
  exists r w',
    GET [one_user; same_email_user] [one_customer] [one_invoice]
      [one_revenue] (fresh_world []) = (Normal r, w') /\
    (r = Response_json (message_body "Database seeded successfully") 200 \/
     exists e, r = Response_json (error_body e) 500).
Proof.
  apply (GET_answers_without_faults [one_user; same_email_user]
           [one_customer] [one_invoice] [one_revenue] (fresh_world [])).
  reflexivity.
Defined.

Lemma GET_sends_digests_only_witness :
  In (INSERT_users "410544b2-4001-4271-9855-fec4b6a6442a" "User"
        "user@nextmail.com" "$123456$0000000000000000000000")
    (wire (fresh_world [])) \/
  exists user n,
    In user [one_user] /\
    "410544b2-4001-4271-9855-fec4b6a6442a" = User.id user /\
    "User" = User.name user /\
    "user@nextmail.com" = User.email user /\
    "$123456$0000000000000000000000" =
      bcrypt_hash_with (salt_source n) (User.password user) 10.
Proof.
  apply (GET_sends_digests_only [one_user] [one_customer] [one_invoice]
           [one_revenue] (fresh_world [])).
  vm_compute; right; right; right; left; reflexivity.
Defined.

Lemma GET_only_appends_witness :
  let w := mkWorld (mkSession one_user_stored Idle 0) [] 1 [] in
  extends_database (data (session w))
    (data
       (session
          (snd (GET [one_user; same_email_user] [one_customer] [one_invoice]
                  [one_revenue] w)))).
Proof.
  cbv zeta.
  apply (GET_only_appends [one_user; same_email_user] [one_customer]
           [one_invoice] [one_revenue]).
  reflexivity.
Defined.

Lemma GET_keeps_keys_distinct_witness :
  keys_distinct
    (data
       (session
          (snd (GET [one_user; one_user] [one_customer; one_customer]
                  [one_invoice; one_invoice] [one_revenue; one_revenue]
                  (fresh_world []))))).
Proof.
  apply (GET_keeps_keys_distinct [one_user; one_user]
           [one_customer; one_customer] [one_invoice; one_invoice]
           [one_revenue; one_revenue] (fresh_world [])).
  - reflexivity.
  - repeat split; constructor.
Defined.

Lemma GET_reports_root_cause_witness :
  invalid_text_representation "id" <> in_failed_sql_transaction.
Proof.
  eapply (GET_reports_root_cause [one_user]
            [malformed_customer; another_customer] [one_invoice]
            [one_revenue] (fresh_world [])).
  - intros saved H; discriminate H.
  - vm_compute; reflexivity.
Defined.

Lemma GET_empty_fixture_witness :
  exists w',
    GET [] [] [] [] (fresh_world []) =
      (Normal
         (Response_json (message_body "Database seeded successfully") 200),
       w') /\
    provisioned (data (session w')) /\
    tx (session w') = Idle /\
    rows (t_users (data (session w'))) =
      rows (t_users (data (session (fresh_world [])))) /\
    rows (t_customers (data (session w'))) =
      rows (t_customers (data (session (fresh_world [])))) /\
    rows (t_invoices (data (session w'))) =
      rows (t_invoices (data (session (fresh_world [])))) /\
    rows (t_revenue (data (session w'))) =
      rows (t_revenue (data (session (fresh_world [])))).
Proof.
  apply (GET_empty_fixture (fresh_world [])); reflexivity.
Defined.


Lemma GET_stores_fixture_rows_only_witness :
  added_from_fixture [one_user] [one_customer] [one_invoice] [one_revenue]
    (data (session (fresh_world [])))
    (data
       (session
          (snd (GET [one_user] [one_customer] [one_invoice] [one_revenue]
                  (fresh_world []))))).
Proof.
  apply (GET_stores_fixture_rows_only [one_user] [one_customer]
           [one_invoice] [one_revenue] (fresh_world [])).
  reflexivity.
Defined.

Lemma GET_clears_failed_block_witness :
  let stuck :=
    snd (GET [one_user] [one_customer] [one_invoice] [long_month]
           (fresh_world (repeat false 12 ++ [true]))) in
  tx (session stuck) = InFailedTransaction empty_database /\
  exists w',
    GET [one_user] [one_customer] [one_invoice] [one_revenue] stuck =
      (Normal (Response_json (error_body in_failed_sql_transaction) 500),
       w') /\
    data (session w') = empty_database /\
    tx (session w') = Idle /\
    wire w' = wire stuck ++ [BEGIN; ROLLBACK].
Proof.
  cbv zeta; split; [vm_compute; reflexivity |].
  apply (GET_clears_failed_block [one_user] [one_customer] [one_invoice]
           [one_revenue]).
  - vm_compute; reflexivity.
  - vm_compute; reflexivity.
Defined.

(** ** Seeding empty tables *)

Lemma NoDup_map_injective {A B : Type} (f : A -> B) (l : list A) :
  (forall x y, f x = f y -> x = y) -> NoDup l -> NoDup (map f l).
Proof.
  intros Hf; induction 1 as [| a l Ha _ IH]; simpl; constructor.
  - intros Hin; apply in_map_iff in Hin; destruct Hin as (y & Hy & Hin).
    apply Hf in Hy; subst y; exact (Ha Hin).
  - exact IH.
Qed.

(** Two lists without repetition that hold the same keys are as long as
    each other. *)
Lemma same_keys_same_length {K : Type} (stored keys : list K) :
  NoDup stored -> NoDup keys ->
  incl stored keys -> incl keys stored ->
  List.length stored = List.length keys.
Proof.
  intros Hs Hk H1 H2; apply Nat.le_antisymm;
    apply NoDup_incl_length; assumption.
Qed.

Section EmptyTables.
Context {server : PgServer} {bcrypt : Bcrypt}.
Variable users : list User.t.
Variable customers : list Customer.t.
Variable invoices : list Invoice.t.
Variable revenue : list Revenue.t.

Local Abbreviation GET' := (GET users customers invoices revenue).
Local Abbreviation ok :=
  (Response_json (message_body "Database seeded successfully") 200).

(** X16.  Seeding tables that hold no row stores the fixture, record for
    record: on a connection with no transaction open, when no two users
    of the fixture have the same [id], no two customers the same [id]
    and no two revenue records the same month (as the columns read
    them), an invocation that answers with the success message leaves as
    many user rows as the fixture has users, as many customer rows as it
    has customers and as many revenue rows as it has months. *)
Theorem seeding_empty_tables_counts (w w' : World) :
  tx (session w) = Idle ->
  rows (t_users (data (session w))) = [] ->
  rows (t_customers (data (session w))) = [] ->
  rows (t_revenue (data (session w))) = [] ->
  NoDup (map (fun user => uuid_in (User.id user)) users) ->
  NoDup (map (fun customer => uuid_in (Customer.id customer)) customers) ->
  NoDup (map (fun rev => varchar_in 4 "month" (Revenue.month rev)) revenue) ->
  GET' w = (Normal ok, w') ->
  count_users (data (session w')) = List.length users /\
  count_customers (data (session w')) = List.length customers /\
  count_revenue (data (session w')) = List.length revenue.
Proof.
  intros Hi Eu Ec Er Nu Nc Nr HG.
  destruct (GET_normal_stored _ _ _ _ _ _ HG) as (_ & Su & Sc & Sr).
  assert (Hw' : w' = snd (GET' w)) by (rewrite HG; reflexivity).
  (* what the invocation keeps, whatever it does *)
  assert (Hinv :
    (NoDup (map UsersRow.id (rows (t_users (data (session w'))))) /\
     forall row, In row (rows (t_users (data (session w')))) ->
       In (Some (UsersRow.id row))
          (map (fun user => uuid_in (User.id user)) users)) /\
    (NoDup (map CustomersRow.id (rows (t_customers (data (session w'))))) /\
     forall row, In row (rows (t_customers (data (session w')))) ->
       In (Some (CustomersRow.id row))
          (map (fun customer => uuid_in (Customer.id customer)) customers))
    /\
    (NoDup (map RevenueRow.month (rows (t_revenue (data (session w'))))) /\
     forall row, In row (rows (t_revenue (data (session w')))) ->
       In (inr (RevenueRow.month row))
          (map (fun rev => varchar_in 4 "month" (Revenue.month rev))
             revenue))).
  { rewrite Hw'.
    apply (GET_keeps_tables users customers invoices revenue
             (fun d =>
                (NoDup (map UsersRow.id (rows (t_users d))) /\
                 forall row, In row (rows (t_users d)) ->
                   In (Some (UsersRow.id row))
                      (map (fun user => uuid_in (User.id user)) users)) /\
                (NoDup (map CustomersRow.id (rows (t_customers d))) /\
                 forall row, In row (rows (t_customers d)) ->
                   In (Some (CustomersRow.id row))
                      (map (fun customer => uuid_in (Customer.id customer))
                         customers)) /\
                (NoDup (map RevenueRow.month (rows (t_revenue d))) /\
                 forall row, In row (rows (t_revenue d)) ->
                   In (inr (RevenueRow.month row))
                      (map (fun rev =>
                              varchar_in 4 "month" (Revenue.month rev))
                         revenue))));
      [| exact Hi
       | rewrite Eu, Ec, Er; simpl; repeat split;
         try constructor; intros ? [] ].
    intros s d n d' n' r Hs Ha ((Du & Pu) & (Dc & Pc) & (Dr & Pr)).
    repeat split.
    - destruct (apply_stmt_users_added _ _ _ _ _ _ Ha)
        as [-> | (row & -> & Hid & _)]; [exact Du |].
      rewrite map_app; apply NoDup_added; assumption.
    - intros row Hrow.
      destruct (apply_stmt_users _ _ _ _ _ _ Ha)
        as [E | (id & name & email & pw & new & -> & Hnew & E)];
        rewrite E in Hrow; [apply Pu; exact Hrow |].
      apply in_app_or in Hrow; destruct Hrow as [Hrow | [<- | []]];
        [apply Pu; exact Hrow |].
      destruct (seeding_INSERT_users _ _ _ _ _ _ _ _ Hs)
        as (user & salt & Hin & -> & _).
      apply users_row_in_password in Hnew; destruct Hnew as [<- _].
      apply (in_map (fun user => uuid_in (User.id user))); exact Hin.
    - destruct (apply_stmt_customers_added _ _ _ _ _ _ Ha)
        as [-> | (row & -> & Hid)]; [exact Dc |].
      rewrite map_app; apply NoDup_added; assumption.
    - intros row Hrow.
      destruct (apply_stmt_customers _ _ _ _ _ _ Ha)
        as [E | (id & name & email & url & new & -> & Hnew & E)];
        rewrite E in Hrow; [apply Pc; exact Hrow |].
      apply in_app_or in Hrow; destruct Hrow as [Hrow | [<- | []]];
        [apply Pc; exact Hrow |].
      destruct (seeding_INSERT_customers _ _ _ _ _ _ _ _ Hs)
        as (customer & Hin & -> & _).
      apply customers_row_in_id in Hnew; rewrite <- Hnew.
      apply (in_map (fun customer => uuid_in (Customer.id customer)));
        exact Hin.
    - destruct (apply_stmt_revenue_added _ _ _ _ _ _ Ha)
        as [-> | (row & -> & Hid)]; [exact Dr |].
      rewrite map_app; apply NoDup_added; assumption.
    - intros row Hrow.
      destruct (apply_stmt_revenue _ _ _ _ _ _ Ha)
        as [E | (month & rev & new & -> & Hnew & E)];
        rewrite E in Hrow; [apply Pr; exact Hrow |].
      apply in_app_or in Hrow; destruct Hrow as [Hrow | [<- | []]];
        [apply Pr; exact Hrow |].
      destruct (seeding_INSERT_revenue _ _ _ _ _ _ Hs)
        as (fixture & Hin & -> & _).
      apply revenue_row_in_month in Hnew; rewrite <- Hnew.
      apply (in_map (fun rev => varchar_in 4 "month" (Revenue.month rev)));
        exact Hin. }
  destruct Hinv as ((Du & Pu) & (Dc & Pc) & (Dr & Pr)).
  unfold count_users, count_customers, count_revenue; repeat split.
  - rewrite <- (length_map UsersRow.id), <- (length_map (@Some string)).
    rewrite <- (length_map (fun user => uuid_in (User.id user)) users).
    apply same_keys_same_length; try assumption.
    + apply NoDup_map_injective; [intros x y E; inversion E; reflexivity |].
      exact Du.
    + intros k Hk; apply in_map_iff in Hk; destruct Hk as (id & <- & Hk).
      apply in_map_iff in Hk; destruct Hk as (row & <- & Hrow).
      apply Pu; exact Hrow.
    + intros k Hk; apply in_map_iff in Hk; destruct Hk as (user & <- & Hin).
      destruct (Su user Hin) as (id & -> & Hhas).
      apply in_map; exact Hhas.
  - rewrite <- (length_map CustomersRow.id), <- (length_map (@Some string)).
    rewrite <- (length_map
                  (fun customer => uuid_in (Customer.id customer)) customers).
    apply same_keys_same_length; try assumption.
    + apply NoDup_map_injective; [intros x y E; inversion E; reflexivity |].
      exact Dc.
    + intros k Hk; apply in_map_iff in Hk; destruct Hk as (id & <- & Hk).
      apply in_map_iff in Hk; destruct Hk as (row & <- & Hrow).
      apply Pc; exact Hrow.
    + intros k Hk; apply in_map_iff in Hk;
        destruct Hk as (customer & <- & Hin).
      destruct (Sc customer Hin) as (id & -> & Hhas).
      apply in_map; exact Hhas.
  - rewrite <- (length_map RevenueRow.month),
      <- (length_map (@inr SqlError string)).
    rewrite <- (length_map
                  (fun rev => varchar_in 4 "month" (Revenue.month rev))
                  revenue).
    apply same_keys_same_length; try assumption.
    + apply NoDup_map_injective; [intros x y E; inversion E; reflexivity |].
      exact Dr.
    + intros k Hk; apply in_map_iff in Hk; destruct Hk as (m & <- & Hk).
      apply in_map_iff in Hk; destruct Hk as (row & <- & Hrow).
      apply Pr; exact Hrow.
    + intros k Hk; apply in_map_iff in Hk; destruct Hk as (rev & <- & Hin).
      destruct (Sr rev Hin) as (m & -> & Hhas).
      apply in_map; exact Hhas.
Qed.

End EmptyTables.

Lemma seeding_empty_tables_counts_witness :
  let w' :=
    snd (GET [one_user] [one_customer; another_customer]
           [one_invoice] [one_revenue] (fresh_world [])) in
  count_users (data (session w')) = 1 /\
  count_customers (data (session w')) = 2 /\
  count_revenue (data (session w')) = 1.
Proof.
  cbv zeta.
  apply (seeding_empty_tables_counts [one_user]
           [one_customer; another_customer] [one_invoice] [one_revenue]
           (fresh_world [])).
  - reflexivity.
  - reflexivity.
  - reflexivity.
  - reflexivity.
  - repeat constructor; intros [].
  - repeat constructor; [intros [H | []]; discriminate H | intros []].
  - repeat constructor; intros [].
  - vm_compute; reflexivity.
Defined.
